(** * League of Misfits dashboard: the data-derivation layer

    A shallow embedding of the derivation code of the two React sources
    (the direct-Sleeper variant and [App.jsx]): the roster/user resolver,
    the standings ranker, the matchup pairer, the weekly trend aggregator
    and the award calculator, together with the refresh step of
    [useLeagueData].  Unqualified names belong to the direct-Sleeper
    variant; the module [AppJsx] holds what [App.jsx] does differently.

    Conventions of the embedding.
    - A JSON integer field is a [Z].  A JSON number that carries a score
      is a [Q], the exact value of a finite double.  Arithmetic on scores
      rounds as the binary64 operations do ([binary64]: to nearest, ties to
      even, with gradual underflow); a result beyond the largest finite
      double is outside the model.  Comparisons, [Math.max] and [Math.min]
      are exact.  The points-for sum [fpts + fpts_decimal / 100] is kept as
      the exact sum: the ranker only compares these sums, and for the
      hundredths the platform sends (0 to 99) the doubles compare and tie as
      the exact sums do.
    - A property the code guards ([?.], [||], [!x]) may be absent,
      [undefined] or [null]: it is an [option].  A property the code reads
      without guard belongs to the input type and is always there.
    - An awaited fetch is its result: [None] is the [null] a failed fetch
      delivers.
    - An object used as a dictionary and only read by key is a [gmap].
      Identifiers are the platform's numeric strings; the properties every
      object inherits from [Object.prototype] are not modelled.
    - [grouped], whose enumeration order matters, is an association list in
      property-creation order, enumerated the way [Object.values] does.
    - A [TypeError] is a value of the completion type [js]. *)

From Stdlib Require Import QArith Qminmax Qround Qpower Lqa.
From stdpp Require Import gmap strings list pretty sorting.

Local Open Scope string_scope.
Local Open Scope list_scope.
Local Open Scope Z_scope.

(** ** JavaScript preliminaries *)

(** [x || d] on a string-or-absent operand: [undefined], [null] and the
    empty string are falsy. *)
Definition str_or (x : option string) (d : string) : string :=
  match x with
  | Some s => if decide (s = "") then d else s
  | None => d
  end.

(** [x || 0] on a number-or-absent operand ([0 || 0] is [0]). *)
Definition int_or0 (x : option Z) : Z := default 0 x.
Definition num_or0 (x : option Q) : Q := default 0%Q x.

(** [x || d] on an integer-or-absent operand: [0] is falsy. *)
Definition int_or (x : option Z) (d : Z) : Z :=
  match x with
  | Some n => if n =? 0 then d else n
  | None => d
  end.

(** Truthiness of an integer-or-absent operand: [undefined], [null] and [0]
    are falsy. *)
Definition truthy (x : option Z) : bool :=
  match x with
  | Some n => negb (n =? 0)
  | None => false
  end.

Global Instance Qlt_decision (x y : Q) : Decision (x < y)%Q.
Proof.
  destruct (Qlt_le_dec x y) as [H|H]; [left; exact H | right].
  apply Qle_not_lt, H.
Defined.

Global Instance Qle_decision (x y : Q) : Decision (x <= y)%Q.
Proof.
  destruct (Qlt_le_dec y x) as [H|H]; [right | left; exact H].
  apply Qlt_not_le, H.
Defined.

Global Instance Qeq_decision (x y : Q) : Decision (x == y)%Q := Qeq_dec x y.

(** *** Numbers: binary64 arithmetic

    A JavaScript number is a double.  [x + y], [x * y] and [x / y] deliver
    the double nearest to the exact result, ties going to the even
    significand: 53 binary digits, the last place never below [2^-1074]. *)

Definition pow2 (k : Z) : Q := (2 ^ k)%Q.

(** The binary exponent of a positive rational: [2^k <= q < 2^(k+1)]. *)
Definition Qlog2 (q : Q) : Z :=
  let k := Z.log2 (Qnum q) - Z.log2 (Zpos (Qden q)) in
  if decide (pow2 k <= q)%Q then k else k - 1.

(** The nearest integer, the even one of two equally near. *)
Definition round_even (q : Q) : Z :=
  let f := Qfloor q in
  let r := (q - inject_Z f)%Q in
  if decide (r < 1 # 2)%Q then f
  else if decide ((1 # 2) < r)%Q then f + 1
  else if Z.even f then f else f + 1.

(** The nearest double of a positive rational: a multiple of the unit in
    its last place. *)
Definition binary64_pos (q : Q) : Q :=
  let e := Z.max (Qlog2 q - 52) (-1074) in
  (inject_Z (round_even (q / pow2 e)) * pow2 e)%Q.

Definition binary64 (q : Q) : Q :=
  if decide (0 < q)%Q then binary64_pos q
  else if decide (q < 0)%Q then (- binary64_pos (- q))%Q
  else 0%Q.

(** [x + y], [x * y], [x / y] *)
Definition num_add (x y : Q) : Q := binary64 (x + y).
Definition num_mul (x y : Q) : Q := binary64 (x * y).
Definition num_div (x y : Q) : Q := binary64 (x / y).

(** *** Completions: a value, or a thrown error *)

Inductive js (A : Type) : Type :=
| Return (a : A)
| Throw (e : string).
Global Arguments Return {A} a.
Global Arguments Throw {A} e.

Global Instance js_ret : MRet js := @Return.
Global Instance js_bind : MBind js := λ A B k m,
  match m with
  | Return a => k a
  | Throw e => Throw e
  end.

(** [o.p] where [o] may be [undefined]: reading a property of [undefined]
    throws. *)
Definition prop {A B} (o : option A) (p : A → B) : js B :=
  match o with
  | Some a => Return (p a)
  | None => Throw "TypeError: Cannot read properties of undefined"
  end.

(** [l.map(f)] with a callback that may throw. *)
Fixpoint Array_mapM {A B} (f : A → js B) (l : list A) : js (list B) :=
  match l with
  | [] => Return []
  | x :: l' => y ← f x; ys ← Array_mapM f l'; Return (y :: ys)
  end.

(** [l.reduce(f, init)] with a callback that may throw. *)
Fixpoint Array_reduceM {A B} (f : B → A → js B) (init : B) (l : list A) : js B :=
  match l with
  | [] => Return init
  | x :: l' => acc ← f init x; Array_reduceM f acc l'
  end.

(** *** [Array.prototype.sort]

    The sort is stable (ES2019).  With a consistent comparator its result is
    the unique stable arrangement, which insertion from the right computes:
    an element moves past a neighbour only when the comparator is positive. *)
Section Array_sort.
Context {A : Type} (cmp : A → A → Q).

Fixpoint sort_insert (x : A) (l : list A) : list A :=
  match l with
  | [] => [x]
  | y :: l' =>
      if decide (0 < cmp x y)%Q then y :: sort_insert x l' else x :: y :: l'
  end.

Definition Array_sort (l : list A) : list A := foldr sort_insert [] l.

(** [x] may stay in front of [y]: the comparator does not ask for [y]
    first. *)
Definition keeps (x y : A) : Prop := ¬ (0 < cmp x y)%Q.
End Array_sort.

(** [for (let w = lo; w <= hi; w++)]: the values [w] takes, in order. *)
Definition for_range (lo hi : Z) : list Z := seqZ lo (hi + 1 - lo).

(** ** The upstream JSON shapes *)

Module Sleeper.
Record User := {
  user_id : string;
  display_name : option string;
  username : option string;
  avatar : option string
}.

Record Settings := {
  wins : option Z;
  losses : option Z;
  fpts : option Z;
  fpts_decimal : option Z;
  fpts_against : option Z;
  fpts_against_decimal : option Z
}.

Record Metadata := { streak : option string }.

Record Roster := {
  roster_id : Z;
  owner_id : string;
  settings : option Settings;
  metadata : option Metadata
}.

Record NflState := { week : option Z }.

(** The league object is stored and never read. *)
Record League := { league_name : option string }.
End Sleeper.

(** A row of [/matchups/{week}]. *)
Module Row.
Record t := {
  roster_id : Z;
  matchup_id : option Z;
  points : option Q
}.
End Row.

(** ** Roster/User Resolver *)

Record UserEntry := { name : string; avatar : option string }.

Definition user_entry (u : Sleeper.User) : UserEntry :=
  {| name := str_or (Sleeper.display_name u)
               (str_or (Sleeper.username u) "Unknown");
     avatar :=
       match Sleeper.avatar u with
       | Some a =>
           if decide (a = "") then None
           else Some ("https://sleepercdn.com/avatars/thumbs/" +:+ a)
       | None => None
       end |}.

(** [users.forEach(u => { userMap[u.user_id] = ... })] *)
Definition build_userMap (users : list Sleeper.User) : gmap string UserEntry :=
  foldl (λ userMap u, <[Sleeper.user_id u := user_entry u]> userMap) ∅ users.

(** [userMap[r.owner_id]?.name || `Team ${r.roster_id}`] *)
Definition resolve_name (userMap : gmap string UserEntry) (r : Sleeper.Roster)
    : string :=
  str_or (name <$> userMap !! Sleeper.owner_id r)
         ("Team " +:+ pretty (Sleeper.roster_id r)).

(** [rosters.forEach(r => { rosterToUser[r.roster_id] = ... })] *)
Definition build_rosterToUser (userMap : gmap string UserEntry)
    (rosters : list Sleeper.Roster) : gmap Z string :=
  foldl (λ rosterToUser r,
           <[Sleeper.roster_id r := resolve_name userMap r]> rosterToUser)
        ∅ rosters.

(** ** Standings Ranker *)

(** A standings row before its rank is assigned. *)
Record TeamRow := {
  t_name : string;
  t_avatar : option string;
  wins : Z;
  losses : Z;
  pf : Q;
  pa : Q;
  rosterId : Z;
  ownerId : string;
  streak : string
}.

(** [{ ...t, rank: i + 1 }] *)
Record Team := { row : TeamRow; rank : Z }.

Definition setting (r : Sleeper.Roster) (field : Sleeper.Settings → option Z)
    : Z :=
  int_or0 (Sleeper.settings r ≫= field).

Definition team_of_roster (userMap : gmap string UserEntry)
    (r : Sleeper.Roster) : TeamRow :=
  {| t_name := resolve_name userMap r;
     t_avatar := userMap !! Sleeper.owner_id r ≫= avatar;
     wins := setting r Sleeper.wins;
     losses := setting r Sleeper.losses;
     pf := (inject_Z (setting r Sleeper.fpts)
            + inject_Z (setting r Sleeper.fpts_decimal) / 100)%Q;
     pa := (inject_Z (setting r Sleeper.fpts_against)
            + inject_Z (setting r Sleeper.fpts_against_decimal) / 100)%Q;
     rosterId := Sleeper.roster_id r;
     ownerId := Sleeper.owner_id r;
     streak := str_or (Sleeper.metadata r ≫= Sleeper.streak) "" |}.

(** [(a, b) => b.wins !== a.wins ? b.wins - a.wins : b.pf - a.pf] *)
Definition by_record (a b : TeamRow) : Q :=
  if negb (wins b =? wins a) then inject_Z (wins b - wins a)
  else (pf b - pf a)%Q.

Definition rank_teams (rows : list TeamRow) : list Team :=
  imap (λ i t, {| row := t; rank := Z.of_nat i + 1 |})
       (Array_sort by_record rows).

(** [rosters.map(...).sort(...).map((t, i) => ...)] *)
Definition standings_of (userMap : gmap string UserEntry)
    (rosters : list Sleeper.Roster) : list Team :=
  rank_teams (team_of_roster userMap <$> rosters).

(** ** Matchup Pairer *)

(** An element of a group: [{ ...m, teamName: ..., points: m.points || 0 }]. *)
Module Entry.
Record t := { m : Row.t; teamName : string; points : Q }.
End Entry.

Record Matchup := { team1 : string; score1 : Q; team2 : string; score2 : Q }.

(** [rosterToUser[m.roster_id] || `Team ${m.roster_id}`] *)
Definition team_name (rosterToUser : gmap Z string) (m : Row.t) : string :=
  str_or (rosterToUser !! Row.roster_id m)
         ("Team " +:+ pretty (Row.roster_id m)).

Definition entry_of (rosterToUser : gmap Z string) (m : Row.t) : Entry.t :=
  {| Entry.m := m;
     Entry.teamName := team_name rosterToUser m;
     Entry.points := num_or0 (Row.points m) |}.

(** [if (!grouped[mid]) grouped[mid] = []; grouped[mid].push(e)] on the
    properties of [grouped] in creation order. *)
Fixpoint grouped_push (mid : Z) (e : Entry.t)
    (grouped : list (Z * list Entry.t)) : list (Z * list Entry.t) :=
  match grouped with
  | [] => [(mid, [e])]
  | (k, g) :: rest =>
      if decide (k = mid) then (k, g ++ [e]) :: rest
      else (k, g) :: grouped_push mid e rest
  end.

(** The body of [data.forEach(m => ...)]; [if (!mid) return] skips a row
    whose [matchup_id] is falsy. *)
Definition group_row (rosterToUser : gmap Z string)
    (grouped : list (Z * list Entry.t)) (m : Row.t)
    : list (Z * list Entry.t) :=
  match Row.matchup_id m with
  | Some mid =>
      if truthy (Some mid)
      then grouped_push mid (entry_of rosterToUser m) grouped
      else grouped
  | None => grouped
  end.

Definition group_rows (rosterToUser : gmap Z string) (data : list Row.t)
    : list (Z * list Entry.t) :=
  foldl (group_row rosterToUser) [] data.

(** The keys that are array indices. *)
Definition array_index (k : Z) : Prop := 0 ≤ k < 2 ^ 32 - 1.

Definition by_key {V} (a b : Z * V) : Q := inject_Z (a.1 - b.1).

(** Own properties are enumerated array indices first, in ascending order,
    then the other keys in creation order. *)
Definition Object_entries {V} (o : list (Z * V)) : list (Z * V) :=
  Array_sort by_key (filter (λ kv, array_index kv.1) o)
  ++ filter (λ kv, ¬ array_index kv.1) o.

Definition Object_values {V} (o : list (Z * V)) : list V :=
  (Object_entries o).*2.

(** [([a, b]) => ({ team1: a.teamName, score1: a.points, team2: b.teamName,
    score2: b.points })] *)
Definition to_matchup (g : list Entry.t) : js Matchup :=
  let a := g !! 0%nat in
  let b := g !! 1%nat in
  t1 ← prop a Entry.teamName;
  s1 ← prop a Entry.points;
  t2 ← prop b Entry.teamName;
  s2 ← prop b Entry.points;
  Return {| team1 := t1; score1 := s1; team2 := t2; score2 := s2 |}.

Definition pair_rows (rosterToUser : gmap Z string) (data : list Row.t)
    : js (list Matchup) :=
  let grouped := group_rows rosterToUser data in
  Array_mapM to_matchup
    (filter (λ g, length g = 2%nat) (Object_values grouped)).

(** The handler of [api.matchups(week).then(data => ...)]: the value passed
    to [setMatchups]. *)
Definition useMatchups (userMap : gmap string UserEntry)
    (rosters : list Sleeper.Roster) (data : option (list Row.t))
    : js (list Matchup) :=
  match data with
  | None => Return []
  | Some data => pair_rows (build_rosterToUser userMap rosters) data
  end.

(** ** Weekly Trend Aggregator *)

Module Trend.
Record Point := { week : Z; high : Q; low : Q; avg : Q }.
End Trend.

(** [data.map(m => m.points || 0).filter(p => p > 0)] *)
Definition trend_scores (data : list Row.t) : list Q :=
  filter (λ p, (0 < p)%Q) ((λ m, num_or0 (Row.points m)) <$> data).

(** [scores.reduce((a, b) => a + b, 0) / scores.length] *)
Definition mean (scores : list Q) : Q :=
  num_div (foldl num_add 0%Q scores) (inject_Z (Z.of_nat (length scores))).

(** One turn of the loop of [fetchHistory], [data] being the awaited
    [api.matchups(w)].  Under [scores.length > 0] the list is [s :: rest],
    on which [Math.max(...scores)] and [Math.min(...scores)] fold from its
    head. *)
Definition history_week (fetch : Z → option (list Row.t))
    (weeks : list Trend.Point) (w : Z) : list Trend.Point :=
  match fetch w with
  | Some data =>
      if decide (0 < length data)%nat then
        match trend_scores data with
        | [] => weeks
        | (s :: rest) as scores =>
            weeks ++ [{| Trend.week := w;
                         Trend.high := foldl Qmax s rest;
                         Trend.low := foldl Qmin s rest;
                         Trend.avg := mean scores |}]
        end
      else weeks
  | None => weeks
  end.

(** The value [useWeeklyHistory(currentWeek)] settles on; the effect returns
    at once under [!currentWeek || currentWeek < 1] and [history] keeps its
    initial value. *)
Definition useWeeklyHistory (currentWeek : Z)
    (fetch : Z → option (list Row.t)) : list Trend.Point :=
  if (currentWeek =? 0) || (currentWeek <? 1) then []
  else foldl (history_week fetch) [] (for_range 1 (Z.min currentWeek 17)).

(** ** Award Calculator *)

Module Score.
Record t := { team : option string; points : Q }.
End Score.

Module Award.
(** [detail] stands for the text [`${low.points.toFixed(2)} pts`]; the
    embedding keeps the number the text is rendered from. *)
Record HorsesAss := { name : option string; detail : Q }.

Record t := {
  week : Z;
  topDawg : option Score.t;
  superWeenie : option Score.t;
  horsesAss : HorsesAss
}.
End Award.

(** [matchups.map(m => ({ team: rosterToUser[m.roster_id],
    points: m.points || 0 })).filter(t => t.points > 0)] *)
Definition award_scores (rosterToUser : gmap Z string)
    (matchups : list Row.t) : list Score.t :=
  filter (λ t, (0 < Score.points t)%Q)
    ((λ m, {| Score.team := rosterToUser !! Row.roster_id m;
              Score.points := num_or0 (Row.points m) |}) <$> matchups).

(** [(max, t) => t.points > max.points ? t : max]; the accumulator starts
    as [scores[0]], which is [undefined] on an empty array. *)
Definition pick_top (max : option Score.t) (t : Score.t)
    : js (option Score.t) :=
  max_points ← prop max Score.points;
  Return (if decide (max_points < Score.points t)%Q then Some t else max).

(** [(min, t) => t.points < min.points ? t : min] *)
Definition pick_low (min : option Score.t) (t : Score.t)
    : js (option Score.t) :=
  min_points ← prop min Score.points;
  Return (if decide (Score.points t < min_points)%Q then Some t else min).

(** One turn of the loop of [calculate]; a [continue] leaves [result] as it
    is. *)
Definition award_week (userMap : gmap string UserEntry)
    (rosters : list Sleeper.Roster) (fetch : Z → option (list Row.t))
    (result : list Award.t) (w : Z) : js (list Award.t) :=
  match fetch w with
  | None => Return result
  | Some matchups =>
      if decide (length matchups = 0%nat) then Return result else
      let rosterToUser := build_rosterToUser userMap rosters in
      let scores := award_scores rosterToUser matchups in
      if decide (length scores = 0%nat) then Return result else
      top ← Array_reduceM pick_top (scores !! 0%nat) scores;
      low ← Array_reduceM pick_low (scores !! 0%nat) scores;
      low_team ← prop low Score.team;
      low_points ← prop low Score.points;
      Return (result ++ [{| Award.week := w;
                            Award.topDawg := top;
                            Award.superWeenie := low;
                            Award.horsesAss :=
                              {| Award.name := low_team;
                                 Award.detail := low_points |} |}])
  end.

(** The weeks [calculate] walks through. *)
Definition awards_window (currentWeek : Z) : list Z :=
  for_range (Z.max 1 (currentWeek - 2)) currentWeek.

(** The value passed to [setAwards]; [calculate] runs only when
    [currentWeek] is truthy, and [awards] keeps its initial value
    otherwise. *)
Definition Awards (userMap : gmap string UserEntry)
    (rosters : list Sleeper.Roster) (currentWeek : Z)
    (fetch : Z → option (list Row.t)) : js (list Award.t) :=
  if currentWeek =? 0 then Return []
  else
    result ← Array_reduceM (award_week userMap rosters fetch) []
               (awards_window currentWeek);
    Return (reverse result).

(** ** [useLeagueData]: one refresh *)

Record LeagueData := {
  loading : bool;
  error : option string;
  nflState : option Sleeper.NflState;
  league : option Sleeper.League;
  users : list Sleeper.User;
  rosters : list Sleeper.Roster;
  standings : list Team;
  currentWeek : Z;
  userMap : gmap string UserEntry
}.

(** The body of the [try] block, from the four results of [Promise.all];
    a failed fetch delivers [null]. *)
Definition refresh_try
    (nflState : option Sleeper.NflState) (league : option Sleeper.League)
    (users : option (list Sleeper.User))
    (rosters : option (list Sleeper.Roster)) : js LeagueData :=
  match nflState, users, rosters with
  | Some nflState, Some users, Some rosters =>
      let userMap := build_userMap users in
      let standings := standings_of userMap rosters in
      Return {| loading := false; error := None;
                nflState := Some nflState; league := league;
                users := users; rosters := rosters;
                standings := standings;
                currentWeek := int_or (Sleeper.week nflState) 1;
                userMap := userMap |}
  | _, _, _ => Throw "Failed to fetch league data"
  end.

(** [setData(d => ({ ...d, loading: true, error: null }))] *)
Definition refresh_begin (d : LeagueData) : LeagueData :=
  {| loading := true; error := None;
     nflState := nflState d; league := league d; users := users d;
     rosters := rosters d; standings := standings d;
     currentWeek := currentWeek d; userMap := userMap d |}.

(** [catch (e) { setData(d => ({ ...d, loading: false, error: e.message })) }] *)
Definition refresh_catch (message : string) (d : LeagueData) : LeagueData :=
  {| loading := false; error := Some message;
     nflState := nflState d; league := league d; users := users d;
     rosters := rosters d; standings := standings d;
     currentWeek := currentWeek d; userMap := userMap d |}.

(** The state once [refresh] has settled, from the state [d] it started
    in. *)
Definition refresh
    (nflState : option Sleeper.NflState) (league : option Sleeper.League)
    (users : option (list Sleeper.User))
    (rosters : option (list Sleeper.Roster))
    (d : LeagueData) : LeagueData :=
  let d := refresh_begin d in
  match refresh_try nflState league users rosters with
  | Return snapshot => snapshot
  | Throw message => refresh_catch message d
  end.

(** ** The variant of [App.jsx] *)

(** The feed of the intermediary backend, with the fields the components
    read. *)
Module Backend.
Record Standing := {
  name : option string;
  avatar : option string;
  wins : option Z;
  losses : option Z;
  points_for : option Q;
  streak : option string
}.

Record Award := {
  title : string;
  winner : option string;
  detail : option string
}.
End Backend.

(** [s.includes(pat)] *)
Fixpoint String_includes (pat s : string) : bool :=
  String.prefix pat s
  || match s with
     | EmptyString => false
     | String _ s' => String_includes pat s'
     end.

(** [s.replace(pat, "")]: the first occurrence of [pat] is removed. *)
Fixpoint String_remove (pat s : string) : string :=
  if String.prefix pat s
  then String.substring (String.length pat)
         (String.length s - String.length pat) s
  else match s with
       | EmptyString => EmptyString
       | String c s' => String c (String_remove pat s')
       end.

(** [l.find(p)] *)
Definition Array_find {A} (p : A → bool) (l : list A) : option A :=
  head (List.filter p l).

Module AppJsx.
Definition USE_BACKEND_API : bool := true.

(** An element of [standings]: a backend row with its rank and [pf], or a
    locally ranked team. *)
Inductive StandingRow :=
| Ranked (s : Backend.Standing) (rank : Z) (pf : option Q)
| Local (t : Team).

Record LeagueData := {
  loading : bool;
  error : option string;
  nflState : option Sleeper.NflState;
  standings : list StandingRow;
  currentWeek : Z;
  userMap : gmap string UserEntry;
  rosters : list Sleeper.Roster
}.

(** Path A: the two fetches of the backend, joined. *)
Definition refresh_backend (state : option Sleeper.NflState)
    (standingsData : option (list Backend.Standing)) : js LeagueData :=
  match state, standingsData with
  | Some state, Some standingsData =>
      let standings :=
        imap (λ i s, Ranked s (Z.of_nat i + 1) (Backend.points_for s))
             standingsData in
      Return {| loading := false; error := None;
                nflState := Some state;
                standings := standings;
                currentWeek := int_or (Sleeper.week state) 1;
                userMap := ∅; rosters := [] |}
  | _, _ => Throw "Failed to connect to Python Brain"
  end.

(** Path B: the three fetches of the platform, joined. *)
Definition refresh_sleeper (nflState : option Sleeper.NflState)
    (users : option (list Sleeper.User))
    (rosters : option (list Sleeper.Roster)) : js LeagueData :=
  match nflState, users, rosters with
  | Some nflState, Some users, Some rosters =>
      let userMap := build_userMap users in
      let standings := Local <$> standings_of userMap rosters in
      Return {| loading := false; error := None;
                nflState := Some nflState;
                standings := standings;
                currentWeek := int_or (Sleeper.week nflState) 1;
                userMap := userMap; rosters := rosters |}
  | _, _, _ => Throw "Failed to fetch league data"
  end.

(** The body of the [try] block; each path awaits its own fetches, whose
    results are the arguments. *)
Definition refresh_try (state : option Sleeper.NflState)
    (standingsData : option (list Backend.Standing))
    (nflState : option Sleeper.NflState)
    (users : option (list Sleeper.User))
    (rosters : option (list Sleeper.Roster)) : js LeagueData :=
  if USE_BACKEND_API then refresh_backend state standingsData
  else refresh_sleeper nflState users rosters.

Definition refresh_begin (d : LeagueData) : LeagueData :=
  {| loading := true; error := None;
     nflState := nflState d; standings := standings d;
     currentWeek := currentWeek d; userMap := userMap d;
     rosters := rosters d |}.

Definition refresh_catch (message : string) (d : LeagueData)
    : LeagueData :=
  {| loading := false; error := Some message;
     nflState := nflState d; standings := standings d;
     currentWeek := currentWeek d; userMap := userMap d;
     rosters := rosters d |}.

Definition refresh (state : option Sleeper.NflState)
    (standingsData : option (list Backend.Standing))
    (nflState : option Sleeper.NflState)
    (users : option (list Sleeper.User))
    (rosters : option (list Sleeper.Roster))
    (d : LeagueData) : LeagueData :=
  let d := refresh_begin d in
  match refresh_try state standingsData nflState users rosters with
  | Return snapshot => snapshot
  | Throw message => refresh_catch message d
  end.

(** *** [useAwards] *)

Record Superlative := { team : option string; points : option string }.

Record HorsesAss := {
  title : string;
  ha_team : option string;
  reason : option string
}.

Record WeekAwards := {
  week : Z;
  topDawg : option Superlative;
  superWeenie : option Superlative;
  horsesAss : option HorsesAss
}.

Definition titled (pat : string) (a : Backend.Award) : bool :=
  String_includes pat (Backend.title a).

Definition superlative (a : Backend.Award) : Superlative :=
  {| team := Backend.winner a; points := Backend.detail a |}.

(** One turn of the loop of [fetchAwards]. *)
Definition awards_week (fetch : Z → option (list Backend.Award))
    (result : list WeekAwards) (w : Z) : list WeekAwards :=
  if USE_BACKEND_API then
    match fetch w with
    | Some weekAwards =>
        if decide (0 < length weekAwards)%nat then
          let topDawg := Array_find (titled "Top Dawg") weekAwards in
          let superWeenie := Array_find (titled "Super Weenie") weekAwards in
          let horsesAss := Array_find (titled "Horse") weekAwards in
          result ++
          [{| week := w;
              topDawg := superlative <$> topDawg;
              superWeenie := superlative <$> superWeenie;
              horsesAss :=
                (λ a, {| title :=
                           String_remove "🐴 Horses Ass: "
                             (String_remove "🐴 Horse's Ass: "
                                (Backend.title a));
                         ha_team := Backend.winner a;
                         reason := Backend.detail a |}) <$> horsesAss |}]
        else result
    | None => result
    end
  else result.

(** The value passed to [setAwards]; the effect returns at once under
    [!currentWeek]. *)
Definition useAwards (currentWeek : Z)
    (fetch : Z → option (list Backend.Award)) : list WeekAwards :=
  if currentWeek =? 0 then []
  else reverse (foldl (awards_week fetch) [] (awards_window currentWeek)).
End AppJsx.

(** * The rest of the two sources

    The fetch boundary, the values the pages derive from a snapshot, page
    selection and the chat.  [String.prototype.trim] is a parameter of the
    chat: what is proved holds whatever it strips. *)

(** ** [api.get] *)

Module Http.
(** What [fetch] resolves to: [json] is what [res.json()] delivers, a
    rejection when the body does not parse and [None] for the body
    [null]. *)
Record Response (A : Type) := { ok : bool; status : Z; json : js (option A) }.
Global Arguments ok {A} _.
Global Arguments status {A} _.
Global Arguments json {A} _.
End Http.

(** [try { res = await fetch(...); if (!res.ok) throw ...;
    return await res.json() } catch (e) { return null }]; [fetched] throws
    when the network fails. *)
Definition api_get {A} (fetched : js (Http.Response A)) : option A :=
  match (res ← fetched;
         if negb (Http.ok res)
         then Throw ("HTTP " +:+ pretty (Http.status res))
         else Http.json res) with
  | Return body => body
  | Throw _ => None
  end.

(** The argument of [useState] in [useLeagueData]. *)
Definition initial_data : LeagueData :=
  {| loading := true; error := None; nflState := None; league := None;
     users := []; rosters := []; standings := []; currentWeek := 1;
     userMap := ∅ |}.

(** One call of [refresh] from the four HTTP exchanges. *)
Definition refresh_from
    (nflState : js (Http.Response Sleeper.NflState))
    (league : js (Http.Response Sleeper.League))
    (users : js (Http.Response (list Sleeper.User)))
    (rosters : js (Http.Response (list Sleeper.Roster)))
    (d : LeagueData) : LeagueData :=
  refresh (api_get nflState) (api_get league) (api_get users)
    (api_get rosters) d.

(** ** [Dashboard] *)

(** [standings[0]] *)
Definition leader (standings : list Team) : option Team := standings !! 0%nat.

(** [leader?.name || '...'] *)
Definition leader_label (standings : list Team) : string :=
  str_or ((λ t, t_name (row t)) <$> leader standings) "...".

(** [standings.length > 0 ? Math.max(...standings.map(s => s.pf)) : 0] *)
Definition highestPF (standings : list Team) : Q :=
  match (λ s, pf (row s)) <$> standings with
  | [] => 0%Q
  | p :: rest => foldl Qmax p rest
  end.

(** [\d] *)
Definition is_digit (c : Ascii.ascii) : bool :=
  let n := Ascii.N_of_ascii c in (48 <=? n)%N && (n <=? 57)%N.

(** The longest run of digits [s] starts with. *)
Fixpoint digits (s : string) : string :=
  match s with
  | String c s' => if is_digit c then String c (digits s') else EmptyString
  | EmptyString => EmptyString
  end.

(** [s.match(/W(\d+)/)?.[1]]: the digits after the first [W] (code 87)
    that a digit follows. *)
Fixpoint match_W_digits (s : string) : option string :=
  match s with
  | EmptyString => None
  | String c s' =>
      if decide (c = Ascii.ascii_of_nat 87) then
        match digits s' with
        | EmptyString => match_W_digits s'
        | d => Some d
        end
      else match_W_digits s'
  end.

(** [parseInt] on a run of digits, [n] being the value read so far. *)
Fixpoint parseInt_from (n : Z) (d : string) : Z :=
  match d with
  | EmptyString => n
  | String c d' =>
      parseInt_from (10 * n + (Z.of_N (Ascii.N_of_ascii c) - 48)) d'
  end.

Definition parseInt (d : string) : Z := parseInt_from 0 d.

(** [parseInt(s.streak?.match(/W(\d+)/)?.[1] || 0) || 0] *)
Definition win_streak (streak : string) : Z :=
  match match_W_digits streak with
  | Some d => parseInt d
  | None => 0
  end.

(** [standings.reduce((max, s) => Math.max(max, ...), 0)] *)
Definition longestStreak (standings : list Team) : Z :=
  foldl (λ max s, Z.max max (win_streak (streak (row s)))) 0 standings.

(** [longestStreak || '-'] *)
Definition streak_label (standings : list Team) : string :=
  if longestStreak standings =? 0 then "-"
  else pretty (longestStreak standings).

(** ** [Matchups] *)

(** [Array.from({ length: Math.max(currentWeek, 1) }, (_, i) => i + 1)] *)
Definition week_options (currentWeek : Z) : list Z :=
  (λ i, i + 1) <$> seqZ 0 (Z.max currentWeek 1).

(** [(m.score1 / Math.max(m.score1 + m.score2, 1)) * 100], the width of the
    bar in percent. *)
Definition bar_width (m : Matchup) : Q :=
  num_mul (num_div (score1 m) (Qmax (num_add (score1 m) (score2 m)) 1)) 100.

(** ** [App]: the page shown *)

Module Page.
Inductive t :=
| LoadingSpinner
| Error (message : string)
| Dashboard
| Standings
| Matchups
| Awards
| AIChat.
End Page.

(** [switch (activeTab)] *)
Definition tab_page (activeTab : string) : Page.t :=
  if decide (activeTab = "dashboard") then Page.Dashboard
  else if decide (activeTab = "standings") then Page.Standings
  else if decide (activeTab = "matchups") then Page.Matchups
  else if decide (activeTab = "awards") then Page.Awards
  else if decide (activeTab = "chat") then Page.AIChat
  else Page.Dashboard.

Definition renderPage (data : LeagueData) (activeTab : string) : Page.t :=
  if loading data then Page.LoadingSpinner
  else
    match error data with
    | Some message =>
        if decide (message = "") then tab_page activeTab
        else Page.Error message
    | None => tab_page activeTab
    end.

(** ** [AIChat] *)

(** [l[i]] *)
Definition Array_get {A} (l : list A) (i : Z) : option A :=
  if i <? 0 then None else l !! Z.to_nat i.

Module AIChat.
Inductive Role := user | assistant.

#[global] Instance Role_eq_dec : EqDecision Role.
Proof. solve_decision. Defined.

Record Message := { role : Role; content : option string }.

(** [timers] counts the callbacks [setTimeout] has scheduled and not yet
    run. *)
Record State := {
  messages : list Message;
  input : string;
  loading : bool;
  timers : nat
}.

Definition greeting : string :=
  "Hey! I'm your League of Misfits AI 🛡️ Ask about trades, waivers, or roasts!".

Definition initial : State :=
  {| messages := [{| role := assistant; content := Some greeting |}];
     input := ""; loading := false; timers := 0 |}.

Definition responses : list string :=
  ["Based on recent performance, target high-upside waiver players! 🎯";
   "That trade looks fair - maybe counter for a little more value 💪";
   "Ha! That team's bench is outscoring their starters! 😂";
   "Playoff race is TIGHT - every game matters now! 🔥"].

(** [onChange={(e) => setInput(e.target.value)}] *)
Definition type (text : string) (st : State) : State :=
  {| messages := messages st; input := text; loading := loading st;
     timers := timers st |}.

Section chat.
Context (trim : string → string).

(** [send]: the part that runs at once. *)
Definition send (st : State) : State :=
  if bool_decide (trim (input st) = "") || loading st then st
  else
    {| messages :=
         messages st ++ [{| role := user; content := Some (input st) |}];
       input := "";
       loading := true;
       timers := S (timers st) |}.

(** The callback of [setTimeout]; [random] is the value of
    [Math.random()]. *)
Definition reply (random : Q) (st : State) : State :=
  let i := Qfloor (random * inject_Z (Z.of_nat (length responses))) in
  {| messages :=
       messages st ++ [{| role := assistant;
                          content := Array_get responses i |}];
     input := input st;
     loading := false;
     timers := pred (timers st) |}.

(** What can happen to the chat: typing, a send, and a scheduled callback
    running with a random number of [[0, 1)].  Each event handler runs on
    the state of the latest render, and the component renders between two
    events. *)
Inductive step : State → State → Prop :=
| step_type st text : step st (type text st)
| step_send st : step st (send st)
| step_reply st random :
    (0 < timers st)%nat → (0 <= random)%Q → (random < 1)%Q →
    step st (reply random st).
End chat.
End AIChat.

(** *** The chat of [App.jsx] *)

Module AppJsxChat.
Record Message := { role : AIChat.Role; content : string }.

(** [pending] counts the completion requests in flight. *)
Record State := {
  messages : list Message;
  input : string;
  loading : bool;
  pending : nat
}.

Definition initial : State :=
  {| messages := [{| role := AIChat.assistant;
                     content := AIChat.greeting |}];
     input := ""; loading := false; pending := 0 |}.

(** [onChange={(e) => setInput(e.target.value)}] *)
Definition type (text : string) (st : State) : State :=
  {| messages := messages st; input := text; loading := loading st;
     pending := pending st |}.

Section chat.
Context (trim : string → string).

(** [handleSend] up to the [await]. *)
Definition handleSend (st : State) : State :=
  if bool_decide (trim (input st) = "") then st
  else
    {| messages :=
         messages st ++ [{| role := AIChat.user; content := input st |}];
       input := "";
       loading := true;
       pending := S (pending st) |}.

(** The [messages] of the request body: [[...messages, userMsg]]. *)
Definition request_messages (st : State) : list Message :=
  messages st ++ [{| role := AIChat.user; content := input st |}].
End chat.

(** [handleSend] after the [await]s.  [outcome] throws when [fetch] or
    [res.json()] rejects, and is [data.choices?.[0]?.message?.content]
    otherwise. *)
Definition completed (outcome : js (option string)) (st : State) : State :=
  let reply :=
    match outcome with
    | Return content => str_or content "I couldn't process that. Try again!"
    | Throw _ => "❌ Connection error. Check your API key!"
    end in
  {| messages :=
       messages st ++ [{| role := AIChat.assistant; content := reply |}];
     input := input st;
     loading := false;
     pending := pred (pending st) |}.

(** What can happen to the chat: typing, a send, and a request in flight
    settling with some outcome. *)
Inductive step (trim : string → string) : State → State → Prop :=
| step_type st text : step trim st (type text st)
| step_send st : step trim st (handleSend trim st)
| step_completed st outcome :
    (0 < pending st)%nat → step trim st (completed outcome st).
End AppJsxChat.

(** ** The pages of [App.jsx] *)

Module AppJsxPages.
(** [renderPage] has no loading and no error branch. *)
Definition renderPage (data : AppJsx.LeagueData) (activeTab : string)
    : Page.t :=
  if decide (activeTab = "standings") then Page.Standings
  else if decide (activeTab = "matchups") then Page.Matchups
  else if decide (activeTab = "awards") then Page.Awards
  else if decide (activeTab = "chat") then Page.AIChat
  else Page.Dashboard.

(** The week of [Matchups]: [useState(data.currentWeek || 1)], PREV and
    NEXT. *)
Inductive Click := PREV | NEXT.

Definition initial_week (data : AppJsx.LeagueData) : Z :=
  if AppJsx.currentWeek data =? 0 then 1 else AppJsx.currentWeek data.

Definition click (week : Z) (c : Click) : Z :=
  match c with
  | PREV => Z.max 1 (week - 1)
  | NEXT => week + 1
  end.
End AppJsxPages.

(** ** Notions the statements use *)

(** Sample rows. *)
Definition mkrow (r : Z) (k : option Z) (p : Q) : Row.t :=
  {| Row.roster_id := r; Row.matchup_id := k; Row.points := Some p |}.

(** The selection of the rows that share a record. *)
Definition same_record (w : Z) (p : Q) (t : TeamRow) : Prop :=
  wins t = w ∧ (pf t == p)%Q.

Global Instance same_record_dec w p t : Decision (same_record w p t).
Proof. unfold same_record. apply _. Defined.

(** The qualifying scores of a week, [[]] when the fetch failed. *)
Definition week_scores (fetch : Z → option (list Row.t)) (w : Z) : list Q :=
  from_option trend_scores [] (fetch w).

Definition Qsum (l : list Q) : Q := foldr Qplus 0%Q l.

(** [x] is the largest (smallest) element of [l]. *)
Definition is_max (x : Q) (l : list Q) : Prop :=
  x ∈ l ∧ ∀ y, y ∈ l → (y <= x)%Q.
Definition is_min (x : Q) (l : list Q) : Prop :=
  x ∈ l ∧ ∀ y, y ∈ l → (x <= y)%Q.

(** The trend point of a week, when it has one. *)
Definition trend_point (fetch : Z → option (list Row.t)) (w : Z)
    : option Trend.Point :=
  match week_scores fetch w with
  | [] => None
  | (s :: rest) as scores =>
      Some {| Trend.week := w;
              Trend.high := foldl Qmax s rest;
              Trend.low := foldl Qmin s rest;
              Trend.avg := mean scores |}
  end.

Definition sample_week : list Row.t :=
  [mkrow 1 (Some 1) 10; mkrow 2 (Some 1) 20; mkrow 3 (Some 2) 30;
   mkrow 4 (Some 2) 0;
   {| Row.roster_id := 5; Row.matchup_id := None; Row.points := None |}].

(** The qualifying scores of a week as the award calculator reads them. *)
Definition week_award_scores (userMap : gmap string UserEntry)
    (rosters : list Sleeper.Roster) (fetch : Z → option (list Row.t))
    (w : Z) : list Score.t :=
  from_option (award_scores (build_rosterToUser userMap rosters)) []
    (fetch w).

(** [top] is the first element of [scores] with the largest points. *)
Definition first_max (top : Score.t) (scores : list Score.t) : Prop :=
  ∃ l1 l2,
    scores = l1 ++ top :: l2
    ∧ Forall (λ t, (Score.points t < Score.points top)%Q) l1
    ∧ Forall (λ t, (Score.points t <= Score.points top)%Q) l2.

(** [low] is the first element of [scores] with the smallest points. *)
Definition first_min (low : Score.t) (scores : list Score.t) : Prop :=
  ∃ l1 l2,
    scores = l1 ++ low :: l2
    ∧ Forall (λ t, (Score.points low < Score.points t)%Q) l1
    ∧ Forall (λ t, (Score.points low <= Score.points t)%Q) l2.

(** The reducers on a defined accumulator. *)
Definition keep_top (max t : Score.t) : Score.t :=
  if decide (Score.points max < Score.points t)%Q then t else max.

Definition keep_low (min t : Score.t) : Score.t :=
  if decide (Score.points t < Score.points min)%Q then t else min.

(** The awards of a week, when it has any. *)
Definition week_award (userMap : gmap string UserEntry)
    (rosters : list Sleeper.Roster) (fetch : Z → option (list Row.t))
    (w : Z) : option Award.t :=
  match week_award_scores userMap rosters fetch w with
  | [] => None
  | (s :: _) as scores =>
      let top := foldl keep_top s scores in
      let low := foldl keep_low s scores in
      Some {| Award.week := w;
              Award.topDawg := Some top;
              Award.superWeenie := Some low;
              Award.horsesAss :=
                {| Award.name := Score.team low;
                   Award.detail := Score.points low |} |}
  end.

Definition sample_awards_fetch (w : Z) : option (list Row.t) :=
  if w =? 6 then
    Some [mkrow 1 (Some 1) 150.5; mkrow 2 (Some 1) 80.2; mkrow 3 (Some 2) 95]
  else if w =? 7 then Some [mkrow 1 (Some 1) 88; mkrow 2 (Some 1) 88]
  else None.

(** The entry [App.jsx] builds for a week, when the feed has awards. *)
Definition feed_awards (feed : Z → option (list Backend.Award)) (w : Z)
    : option AppJsx.WeekAwards :=
  head (AppJsx.awards_week feed [] w).

(** A required fetch of the joined group failed. *)
Definition fetch_failed
    (nflState : option Sleeper.NflState) (users : option (list Sleeper.User))
    (rosters : option (list Sleeper.Roster)) : Prop :=
  nflState = None ∨ users = None ∨ rosters = None.

(** A required fetch of the group joined on the backend path failed. *)
Definition backend_fetch_failed (state : option Sleeper.NflState)
    (standingsData : option (list Backend.Standing)) : Prop :=
  state = None ∨ standingsData = None.

(** The rows of [data] that carry the pairing identifier [k], in input
    order, and how many there are. *)
Definition group_of (k : Z) (data : list Row.t) : list Row.t :=
  filter (λ m, Row.matchup_id m = Some k) data.

Definition occurrences (k : Z) (data : list Row.t) : nat :=
  length (group_of k data).

Definition zero_id_rows : list Row.t :=
  [mkrow 1 (Some 0) 101.5; mkrow 2 (Some 0) 98.25].

Definition one_game_rows : list Row.t :=
  [mkrow 1 (Some 1) 101.5; mkrow 2 (Some 1) 98.25].

Definition three_way_rows : list Row.t :=
  [mkrow 1 (Some 4) 101.5; mkrow 2 (Some 4) 98.25; mkrow 3 (Some 4) 77].

(** A row with pairing identifier 0 read as a row without one. *)
Definition zero_as_missing (m : Row.t) : Row.t :=
  if decide (Row.matchup_id m = Some 0)
  then {| Row.roster_id := Row.roster_id m;
          Row.matchup_id := None;
          Row.points := Row.points m |}
  else m.

Definition sample_user : Sleeper.User :=
  {| Sleeper.user_id := "871";
     Sleeper.display_name := None;
     Sleeper.username := None;
     Sleeper.avatar := None |}.

Definition sample_roster : Sleeper.Roster :=
  {| Sleeper.roster_id := 3;
     Sleeper.owner_id := "872";
     Sleeper.settings := None;
     Sleeper.metadata := None |}.

Definition sample_data : LeagueData :=
  {| loading := false; error := None; nflState := None; league := None;
     users := []; rosters := [sample_roster];
     standings := standings_of ∅ [sample_roster];
     currentWeek := 4; userMap := ∅ |}.

Definition sample_app_data : AppJsx.LeagueData :=
  {| AppJsx.loading := false; AppJsx.error := None;
     AppJsx.nflState := None;
     AppJsx.standings := AppJsx.Local <$> standings_of ∅ [sample_roster];
     AppJsx.currentWeek := 4; AppJsx.userMap := ∅;
     AppJsx.rosters := [sample_roster] |}.

(** A three-team league: owners A, B and C of the rosters 1, 2 and 3. *)
Definition mkuser (id display : string) : Sleeper.User :=
  {| Sleeper.user_id := id;
     Sleeper.display_name := Some display;
     Sleeper.username := None;
     Sleeper.avatar := None |}.

Definition mkroster (id : Z) (owner : string) (w f fd : Z) : Sleeper.Roster :=
  {| Sleeper.roster_id := id;
     Sleeper.owner_id := owner;
     Sleeper.settings :=
       Some {| Sleeper.wins := Some w; Sleeper.losses := None;
               Sleeper.fpts := Some f; Sleeper.fpts_decimal := Some fd;
               Sleeper.fpts_against := None;
               Sleeper.fpts_against_decimal := None |};
     Sleeper.metadata := None |}.

Definition sample_users : list Sleeper.User :=
  [mkuser "871" "A"; mkuser "872" "B"; mkuser "873" "C"].

Definition sample_rosters : list Sleeper.Roster :=
  [mkroster 1 "871" 5 900 50; mkroster 2 "872" 7 850 0;
   mkroster 3 "873" 5 900 50; mkroster 4 "874" 5 910 5].

(** *** The words of the specification *)

(** The positive scores of a week's rows, in row order; a row without
    points has none. *)
Fixpoint positive_scores (rows : list Row.t) : list Q :=
  match rows with
  | [] => []
  | m :: rows' =>
      match Row.points m with
      | Some p =>
          if decide (0 < p)%Q then p :: positive_scores rows'
          else positive_scores rows'
      | None => positive_scores rows'
      end
  end.

(** The positive scores of a week's rows, each with the name the
    rosterId-to-name mapping has for its roster (none when it has none). *)
Fixpoint positive_team_scores (rosterToUser : gmap Z string)
    (rows : list Row.t) : list Score.t :=
  match rows with
  | [] => []
  | m :: rows' =>
      match Row.points m with
      | Some p =>
          if decide (0 < p)%Q
          then {| Score.team := rosterToUser !! Row.roster_id m;
                  Score.points := p |}
               :: positive_team_scores rosterToUser rows'
          else positive_team_scores rosterToUser rows'
      | None => positive_team_scores rosterToUser rows'
      end
  end.

(** No step of the average rounds: every running sum of [scores] and the
    quotient of their sum by their number are doubles. *)
Definition sums_exact (scores : list Q) : Prop :=
  (∀ k, (k ≤ length scores)%nat →
        (binary64 (Qsum (take k scores)) == Qsum (take k scores))%Q)
  ∧ (binary64 (Qsum scores / inject_Z (Z.of_nat (length scores)))
     == Qsum scores / inject_Z (Z.of_nat (length scores)))%Q.

(** [found] is the first award of a week's feed whose title contains
    [pat]; there is none when no title contains it. *)
Definition first_titled (pat : string) (weekAwards : list Backend.Award)
    (found : option Backend.Award) : Prop :=
  match found with
  | Some a =>
      ∃ l1 l2,
        weekAwards = l1 ++ a :: l2
        ∧ String_includes pat (Backend.title a) = true
        ∧ Forall (λ b, String_includes pat (Backend.title b) = false) l1
  | None =>
      Forall (λ b, String_includes pat (Backend.title b) = false) weekAwards
  end.

(** Three rows with the score 50.05, as a double. *)
Definition three_equal_scores : list Row.t :=
  [mkrow 1 (Some 1) (binary64 50.05); mkrow 2 (Some 1) (binary64 50.05);
   mkrow 3 (Some 2) (binary64 50.05)].

(** A feed whose only award of week 6 carries none of the three titles,
    and a feed whose awards of week 6 name the lower score under the
    top title. *)
Definition untitled_feed (w : Z) : option (list Backend.Award) :=
  if w =? 6 then
    Some [{| Backend.title := "Weekly recap"; Backend.winner := Some "A";
             Backend.detail := Some "150.5 pts" |}]
  else None.

Definition upside_down_feed (w : Z) : option (list Backend.Award) :=
  if w =? 6 then
    Some [{| Backend.title := "🏆 Top Dawg"; Backend.winner := Some "B";
             Backend.detail := Some "80.2 pts" |};
          {| Backend.title := "💩 Super Weenie"; Backend.winner := Some "A";
             Backend.detail := Some "150.5 pts" |}]
  else None.

(** *** Notions about the rest of the sources *)

(** The exchange went through: a response with an ok status whose body
    parses to a value. *)
Definition succeeded {A} (fetched : js (Http.Response A)) : Prop :=
  ∃ res body,
    fetched = Return res ∧ Http.ok res = true
    ∧ Http.json res = Return (Some body).

(** The results the four fetches of one refresh deliver. *)
Record Fetched := {
  got_nflState : option Sleeper.NflState;
  got_league : option Sleeper.League;
  got_users : option (list Sleeper.User);
  got_rosters : option (list Sleeper.Roster)
}.

(** The state after a series of refreshes. *)
Definition refreshes (results : list Fetched) (d : LeagueData) : LeagueData :=
  foldl (λ d got, refresh (got_nflState got) (got_league got)
                    (got_users got) (got_rosters got) d) d results.

(** The derived fields of a snapshot fit its raw ones. *)
Definition coherent (d : LeagueData) : Prop :=
  userMap d = build_userMap (users d)
  ∧ standings d = standings_of (userMap d) (rosters d)
  ∧ currentWeek d ≠ 0.

(** The chat is in step: one callback is scheduled exactly while it loads,
    the messages alternate between the assistant and the user, the user
    has the last word exactly while it loads, and every line of the
    assistant is the greeting or one of the canned responses. *)
Definition in_step (st : AIChat.State) : Prop :=
  AIChat.timers st = (if AIChat.loading st then 1 else 0)%nat
  ∧ Nat.even (length (AIChat.messages st)) = AIChat.loading st
  ∧ (∀ i m, AIChat.messages st !! i = Some m →
            AIChat.role m
            = if Nat.even i then AIChat.assistant else AIChat.user)
  ∧ (∀ m, m ∈ AIChat.messages st → AIChat.role m = AIChat.assistant →
          ∃ c, AIChat.content m = Some c
               ∧ c ∈ AIChat.greeting :: AIChat.responses).

(** The messages of one role. *)
Definition said (r : AIChat.Role) (msgs : list AppJsxChat.Message)
    : list AppJsxChat.Message :=
  filter (λ m, AppJsxChat.role m = r) msgs.

(** Every request is accounted for: the assistant has spoken once for the
    greeting and once for each request that has settled, the spinner shows
    only while a request is in flight, and no line of the assistant is
    empty. *)
Definition answered (st : AppJsxChat.State) : Prop :=
  (length (said AIChat.assistant (AppJsxChat.messages st))
   + AppJsxChat.pending st
   = S (length (said AIChat.user (AppJsxChat.messages st))))%nat
  ∧ (AppJsxChat.loading st = true → (0 < AppJsxChat.pending st)%nat)
  ∧ (∀ m, m ∈ said AIChat.assistant (AppJsxChat.messages st) →
          AppJsxChat.content m ≠ "").

(** A week of the backend's feed. *)
Definition sample_backend_awards : list Backend.Award :=
  [{| Backend.title := "🏆 Top Dawg"; Backend.winner := Some "A";
      Backend.detail := Some "150.5 pts" |};
   {| Backend.title := "🐴 Horse's Ass: Benchwarmer";
      Backend.winner := Some "B";
      Backend.detail := Some "left 40 points on the bench" |}].

Definition sample_backend_feed (w : Z) : option (list Backend.Award) :=
  if w =? 6 then Some sample_backend_awards else None.

(** The week after a series of clicks. *)
Definition clicks (week : Z) (cs : list AppJsxPages.Click) : Z :=
  foldl AppJsxPages.click week cs.

Definition sample_matchup : Matchup :=
  {| team1 := "A"; score1 := 101.5; team2 := "C"; score2 := 77 |}.

Definition sample_week6_award : Award.t :=
  {| Award.week := 6;
     Award.topDawg :=
       Some {| Score.team := Some "A"; Score.points := 150.5 |};
     Award.superWeenie :=
       Some {| Score.team := Some "B"; Score.points := 80.2 |};
     Award.horsesAss := {| Award.name := Some "B"; Award.detail := 80.2 |} |}.

Definition sample_week7_award : Award.t :=
  {| Award.week := 7;
     Award.topDawg :=
       Some {| Score.team := Some "A"; Score.points := 88 |};
     Award.superWeenie :=
       Some {| Score.team := Some "A"; Score.points := 88 |};
     Award.horsesAss := {| Award.name := Some "A"; Award.detail := 88 |} |}.

Definition interleaved_rows : list Row.t :=
  [mkrow 1 (Some 2) 10; mkrow 2 (Some 1) 20;
   mkrow 3 (Some 2) 30; mkrow 4 (Some 1) 40].

Definition regrouped_rows : list Row.t :=
  [mkrow 2 (Some 1) 20; mkrow 4 (Some 1) 40;
   mkrow 1 (Some 2) 10; mkrow 3 (Some 2) 30].

(** * Properties *)

(** ** Rounding to the nearest double *)

Lemma pow2_pos k : (0 < pow2 k)%Q.
Proof. apply Qpower_0_lt. reflexivity. Qed.

Lemma pow2_add a b : (pow2 (a + b) == pow2 a * pow2 b)%Q.
Proof. apply Qpower_plus. discriminate. Qed.

Lemma pow2_le a b : a ≤ b → (pow2 a <= pow2 b)%Q.
Proof. intros H. apply Qpower_le_compat_l; [exact H|discriminate]. Qed.

Lemma pow2_lt_inv a b : (pow2 a < pow2 b)%Q → a < b.
Proof. intros H. eapply Qpower_lt_compat_l_inv; [exact H|reflexivity]. Qed.

Lemma pow2_Z k : 0 ≤ k → (pow2 k == inject_Z (2 ^ k))%Q.
Proof. intros H. unfold pow2. by rewrite (Zpower_Qpower 2 k H). Qed.

Lemma Qlog2_spec q :
  (0 < q)%Q → (pow2 (Qlog2 q) <= q)%Q ∧ (q < pow2 (Qlog2 q + 1))%Q.
Proof.
  intros Hq. unfold Qlog2.
  destruct q as [n d]. simpl Qnum. simpl Qden.
  assert (0 < n) as Hn.
  { unfold Qlt in Hq. simpl in Hq. lia. }
  set (a := Z.log2 n). set (b := Z.log2 (Z.pos d)).
  destruct (Z.log2_spec n Hn) as [Ha1 Ha2].
  destruct (Z.log2_spec (Z.pos d) ltac:(done)) as [Hb1 Hb2].
  fold a in Ha1, Ha2. fold b in Hb1, Hb2.
  assert (0 ≤ a) as Ha0 by apply Z.log2_nonneg.
  assert (0 ≤ b) as Hb0 by apply Z.log2_nonneg.
  (* the two outer bounds, over the integers *)
  assert (pow2 (a - b - 1) <= n # d)%Q as Hlow.
  { assert (pow2 (a - b - 1) == inject_Z (2 ^ a) / inject_Z (2 ^ (b + 1)))%Q
      as ->.
    { rewrite <- !pow2_Z by lia. unfold pow2.
      replace (a - b - 1) with (a - (b + 1)) by lia.
      apply Qpower_minus. discriminate. }
    rewrite (Qmake_Qdiv n d).
    assert (0 < inject_Z (2 ^ (b + 1)))%Q as Hpb.
    { rewrite <- (pow2_Z (b + 1)) by lia. apply pow2_pos. }
    assert (0 < inject_Z (Z.pos d))%Q as Hpd by reflexivity.
    apply Qle_shift_div_r; [exact Hpb|].
    assert (inject_Z n / inject_Z (Z.pos d) * inject_Z (2 ^ (b + 1))
            == inject_Z (n * 2 ^ (b + 1)) / inject_Z (Z.pos d))%Q as ->.
    { rewrite inject_Z_mult. field. intros H. rewrite H in Hpd.
      by apply Qlt_irrefl in Hpd. }
    apply Qle_shift_div_l; [exact Hpd|].
    rewrite <- inject_Z_mult, <- Zle_Qle. nia. }
  assert (n # d < pow2 (a - b + 1))%Q as Hhigh.
  { assert (pow2 (a - b + 1) == inject_Z (2 ^ (a + 1)) / inject_Z (2 ^ b))%Q
      as ->.
    { rewrite <- !pow2_Z by lia. unfold pow2.
      replace (a - b + 1) with (a + 1 - b) by lia.
      apply Qpower_minus. discriminate. }
    rewrite (Qmake_Qdiv n d).
    assert (0 < inject_Z (2 ^ b))%Q as Hpb.
    { rewrite <- (pow2_Z b) by lia. apply pow2_pos. }
    assert (0 < inject_Z (Z.pos d))%Q as Hpd by reflexivity.
    apply Qlt_shift_div_l; [exact Hpb|].
    assert (inject_Z n / inject_Z (Z.pos d) * inject_Z (2 ^ b)
            == inject_Z (n * 2 ^ b) / inject_Z (Z.pos d))%Q as ->.
    { rewrite inject_Z_mult. field. intros H. rewrite H in Hpd.
      by apply Qlt_irrefl in Hpd. }
    apply Qlt_shift_div_r; [exact Hpd|].
    rewrite <- inject_Z_mult, <- Zlt_Qlt. nia. }
  destruct (decide (pow2 (a - b) <= n # d)%Q) as [Hk|Hk].
  - split; [exact Hk|exact Hhigh].
  - split.
    + exact Hlow.
    + replace (a - b - 1 + 1) with (a - b) by lia.
      by apply Qnot_le_lt.
Qed.

Lemma Qlog2_mono x y : (0 < x)%Q → (x <= y)%Q → Qlog2 x ≤ Qlog2 y.
Proof.
  intros Hx Hxy.
  assert (0 < y)%Q as Hy by (eapply Qlt_le_trans; eauto).
  destruct (Qlog2_spec x Hx) as [Hx1 _].
  destruct (Qlog2_spec y Hy) as [_ Hy2].
  assert (pow2 (Qlog2 x) < pow2 (Qlog2 y + 1))%Q as H.
  { eapply Qle_lt_trans; [exact Hx1|]. eapply Qle_lt_trans; eauto. }
  apply pow2_lt_inv in H. lia.
Qed.

Lemma round_even_bounds q : Qfloor q ≤ round_even q ≤ Qfloor q + 1.
Proof.
  unfold round_even. repeat case_decide; try lia.
  destruct (Z.even (Qfloor q)); lia.
Qed.

Lemma round_even_Z n : round_even (inject_Z n) = n.
Proof.
  unfold round_even. rewrite Qfloor_Z.
  rewrite decide_True; [done|]. lra.
Qed.

Lemma round_even_mono x y : (x <= y)%Q → round_even x ≤ round_even y.
Proof.
  intros Hxy.
  pose proof (Qfloor_resp_le x y Hxy) as Hf.
  pose proof (round_even_bounds x) as Hx.
  pose proof (round_even_bounds y) as Hy.
  destruct (decide (Qfloor x = Qfloor y)) as [Heq|Hne]; [|lia].
  clear Hx Hy. unfold round_even. rewrite Heq.
  repeat case_decide; try lia; try lra.
  all: destruct (Z.even (Qfloor y)); try lia; try lra.
Qed.

Lemma round_even_le_Z x n : (x <= inject_Z n)%Q → round_even x ≤ n.
Proof. intros H%round_even_mono. by rewrite round_even_Z in H. Qed.

Lemma round_even_ge_Z x n : (inject_Z n <= x)%Q → n ≤ round_even x.
Proof. intros H%round_even_mono. by rewrite round_even_Z in H. Qed.

Lemma round_even_error q :
  (inject_Z (round_even q) - q <= 1 # 2)%Q
  ∧ (q - inject_Z (round_even q) <= 1 # 2)%Q.
Proof.
  pose proof (Qfloor_le q) as H1. pose proof (Qlt_floor q) as H2.
  rewrite inject_Z_plus in H2. change (inject_Z 1) with 1%Q in H2.
  unfold round_even. repeat case_decide.
  - lra.
  - rewrite inject_Z_plus. change (inject_Z 1) with 1%Q. lra.
  - destruct (Z.even (Qfloor q)).
    + lra.
    + rewrite inject_Z_plus. change (inject_Z 1) with 1%Q. lra.
Qed.

Lemma scaled_le x y e : (x <= y)%Q → (x / pow2 e <= y / pow2 e)%Q.
Proof.
  intros H. apply Qmult_le_compat_r; [exact H|].
  apply Qlt_le_weak, Qinv_lt_0_compat, pow2_pos.
Qed.

Lemma binary64_pos_nonneg q : (0 <= q)%Q → (0 <= binary64_pos q)%Q.
Proof.
  intros Hq. unfold binary64_pos.
  set (e := Z.max (Qlog2 q - 52) (-1074)).
  apply Qmult_le_0_compat; [|apply Qlt_le_weak, pow2_pos].
  change 0%Q with (inject_Z 0). rewrite <- Zle_Qle.
  apply round_even_ge_Z. change (inject_Z 0) with 0%Q.
  apply Qle_shift_div_l; [apply pow2_pos|]. lra.
Qed.

Lemma binary64_pos_mono x y :
  (0 < x)%Q → (x <= y)%Q → (binary64_pos x <= binary64_pos y)%Q.
Proof.
  intros Hx Hxy.
  assert (0 < y)%Q as Hy by (eapply Qlt_le_trans; eauto).
  pose proof (Qlog2_mono x y Hx Hxy) as Hl.
  destruct (Qlog2_spec x Hx) as [_ Hx2].
  destruct (Qlog2_spec y Hy) as [Hy1 _].
  unfold binary64_pos.
  set (ex := Z.max (Qlog2 x - 52) (-1074)).
  set (ey := Z.max (Qlog2 y - 52) (-1074)).
  destruct (decide (ex = ey)) as [Heq|Hne].
  - rewrite Heq. apply Qmult_le_compat_r; [|apply Qlt_le_weak, pow2_pos].
    rewrite <- Zle_Qle. apply round_even_mono. by apply scaled_le.
  - assert (ex < ey ∧ ey = Qlog2 y - 52 ∧ Qlog2 x < Qlog2 y) as (He & Hey & Hlt)
      by lia.
    (* both sides meet at the power of two between them *)
    apply (Qle_trans _ (pow2 (Qlog2 y))).
    + assert (pow2 (Qlog2 y)
              == inject_Z (2 ^ (Qlog2 y - ex)) * pow2 ex)%Q as ->.
      { rewrite <- pow2_Z by lia. rewrite <- pow2_add. by f_equiv; lia. }
      apply Qmult_le_compat_r; [|apply Qlt_le_weak, pow2_pos].
      rewrite <- Zle_Qle. apply round_even_le_Z.
      rewrite <- pow2_Z by lia.
      apply Qle_shift_div_r; [apply pow2_pos|].
      rewrite <- pow2_add. replace (Qlog2 y - ex + ex) with (Qlog2 y) by lia.
      apply Qlt_le_weak. eapply Qlt_le_trans; [exact Hx2|].
      apply pow2_le. lia.
    + assert (pow2 (Qlog2 y) == inject_Z (2 ^ 52) * pow2 ey)%Q as Hp.
      { rewrite <- pow2_Z by lia. rewrite <- pow2_add. by f_equiv; lia. }
      rewrite Hp at 1.
      apply Qmult_le_compat_r; [|apply Qlt_le_weak, pow2_pos].
      rewrite <- Zle_Qle. apply round_even_ge_Z.
      rewrite <- pow2_Z by lia.
      apply Qle_shift_div_l; [apply pow2_pos|].
      rewrite <- pow2_add. replace (52 + ey) with (Qlog2 y) by lia.
      exact Hy1.
Qed.

Lemma binary64_nonneg q : (0 <= q)%Q → (0 <= binary64 q)%Q.
Proof.
  intros Hq. unfold binary64.
  destruct (decide (0 < q)%Q); [by apply binary64_pos_nonneg|].
  destruct (decide (q < 0)%Q); [lra|]. apply Qle_refl.
Qed.

Lemma binary64_nonpos q : (q <= 0)%Q → (binary64 q <= 0)%Q.
Proof.
  intros Hq. unfold binary64.
  destruct (decide (0 < q)%Q); [lra|].
  destruct (decide (q < 0)%Q); [|apply Qle_refl].
  pose proof (binary64_pos_nonneg (- q) ltac:(lra)). lra.
Qed.

(** Rounding is monotone. *)
Lemma binary64_mono x y : (x <= y)%Q → (binary64 x <= binary64 y)%Q.
Proof.
  intros Hxy.
  destruct (Qlt_le_dec 0 x) as [Hx|Hx].
  - unfold binary64. rewrite !decide_True by lra.
    by apply binary64_pos_mono.
  - apply (Qle_trans _ (binary64 x)); [apply Qle_refl|].
    destruct (Qlt_le_dec y 0) as [Hy|Hy].
    + unfold binary64. rewrite !(decide_False (P := (0 < _)%Q)) by lra.
      rewrite !decide_True by lra.
      pose proof (binary64_pos_mono (- y) (- x) ltac:(lra) ltac:(lra)). lra.
    + apply (Qle_trans _ 0); [by apply binary64_nonpos|].
      by apply binary64_nonneg.
Qed.

Global Instance binary64_proper : Proper (Qeq ==> Qeq) binary64.
Proof.
  intros x y Hxy.
  apply Qle_antisym; apply binary64_mono; rewrite Hxy; apply Qle_refl.
Qed.

Lemma binary64_0 : (binary64 0 == 0)%Q.
Proof. reflexivity. Qed.
Lemma binary64_1 : (binary64 1 == 1)%Q.
Proof. by vm_compute. Qed.
Lemma binary64_100 : (binary64 100 == 100)%Q.
Proof. by vm_compute. Qed.

(** In the normal range the nearest double is off by at most half a unit in
    the last place: [2^-53] of the value. *)
Lemma binary64_accurate q :
  (pow2 (-1022) <= q)%Q →
  (binary64 q - q <= pow2 (-53) * q)%Q ∧ (q - binary64 q <= pow2 (-53) * q)%Q.
Proof.
  intros Hq.
  assert (0 < q)%Q as Hpos.
  { eapply Qlt_le_trans; [apply (pow2_pos (-1022))|exact Hq]. }
  unfold binary64. rewrite decide_True by done. unfold binary64_pos.
  destruct (Qlog2_spec q Hpos) as [Hl1 Hl2].
  assert (-1022 ≤ Qlog2 q) as Hl.
  { assert (pow2 (-1022) < pow2 (Qlog2 q + 1))%Q as H
      by (eapply Qle_lt_trans; eauto).
    apply pow2_lt_inv in H. lia. }
  rewrite Z.max_l by lia.
  set (e := Qlog2 q - 52).
  pose proof (pow2_pos e) as He.
  destruct (round_even_error (q / pow2 e)) as [H1 H2].
  set (n := inject_Z (round_even (q / pow2 e))) in *.
  assert (q == q / pow2 e * pow2 e)%Q as Hqe.
  { field. intros H. rewrite H in He. by apply Qlt_irrefl in He. }
  assert (pow2 e == 2 * (pow2 (-53) * pow2 (Qlog2 q)))%Q as Hulp.
  { rewrite <- pow2_add. change 2%Q with (pow2 1). rewrite <- pow2_add.
    unfold e. by f_equiv; lia. }
  pose proof (pow2_pos (-53)) as H53.
  set (t := (q / pow2 e)%Q) in *.
  assert (n * pow2 e - q == (n - t) * pow2 e)%Q as E1
    by (rewrite Hqe at 1; ring).
  assert (q - n * pow2 e == (t - n) * pow2 e)%Q as E2
    by (rewrite Hqe at 1; ring).
  rewrite E1, E2. split.
  - apply (Qle_trans _ ((1 # 2) * pow2 e)).
    + apply Qmult_le_compat_r; [exact H1|lra].
    + rewrite Hulp. nra.
  - apply (Qle_trans _ ((1 # 2) * pow2 e)).
    + apply Qmult_le_compat_r; [exact H2|lra].
    + rewrite Hulp. nra.
Qed.

(** The double of 0.1; a tie going to the even significand; the smallest
    subnormal and the tie below it. *)
Lemma binary64_examples :
  (binary64 0.1 == 3602879701896397 # 36028797018963968)%Q
  ∧ (binary64 (inject_Z (2 ^ 53 + 1)) == inject_Z (2 ^ 53))%Q
  ∧ (binary64 (inject_Z (2 ^ 53 + 3)) == inject_Z (2 ^ 53 + 4))%Q
  ∧ (binary64 (pow2 (-1074)) == pow2 (-1074))%Q
  ∧ (binary64 (pow2 (-1075)) == 0)%Q
  ∧ (binary64 (3 * pow2 (-1075)) == pow2 (-1073))%Q
  ∧ (binary64 (- (1 # 3)) == - (6004799503160661 # 18014398509481984))%Q.
Proof. split_and!; by vm_compute. Qed.

(** ** Lists *)

Lemma StronglySorted_lookup {A} (R : relation A) (l : list A) i j x y :
  StronglySorted R l → (i < j)%nat → l !! i = Some x → l !! j = Some y → R x y.
Proof.
  intros Hs. revert i j.
  induction Hs as [|z l Hl IH Hz]; intros i j Hij Hi Hj; [done|].
  destruct j as [|j]; [lia|]. simpl in Hj.
  destruct i as [|i]; simpl in Hi.
  - injection Hi as ->. eapply Forall_forall in Hz; [done|].
    by eapply list_elem_of_lookup_2.
  - apply (IH i j); [lia|done..].
Qed.

Lemma filter_all {A} (P : A → Prop) `{!∀ x, Decision (P x)} (l : list A) :
  Forall P l → filter P l = l.
Proof.
  induction 1 as [|x l Hx _ IH]; [done|].
  by rewrite filter_cons_True, IH.
Qed.

(** A selection that only drops what a later selection drops anyway. *)
Lemma filter_fmap_filter {A B} (f : A → B) (P : B → Prop) (Q : A → Prop)
    `{!∀ y, Decision (P y), !∀ x, Decision (Q x)} (l : list A) :
  (∀ x, x ∈ l → ¬ Q x → ¬ P (f x)) →
  filter P (f <$> filter Q l) = filter P (f <$> l).
Proof.
  induction l as [|x l IH]; intros Hl; [done|].
  rewrite filter_cons, fmap_cons, (filter_cons P).
  assert (filter P (f <$> filter Q l) = filter P (f <$> l)) as IH'.
  { apply IH. intros y Hy. apply Hl. by right. }
  destruct (decide (Q x)) as [HQ|HQ].
  - by rewrite fmap_cons, filter_cons, IH'.
  - rewrite IH', decide_False; [done|]. apply Hl; [left|done].
Qed.

Lemma Array_mapM_Return {A B} (f : A → js B) (l : list A) :
  Forall (λ x, ∃ y, f x = Return y) l →
  ∃ ys, Array_mapM f l = Return ys ∧ Forall2 (λ x y, f x = Return y) l ys.
Proof.
  induction 1 as [|x l [y Hy] _ (ys & Hys & HF)]; simpl.
  { exists []. by split. }
  exists (y :: ys). rewrite Hy, Hys. split; [done|]. by constructor.
Qed.

Lemma StronglySorted_reverse {A} (R : relation A) (l : list A) :
  StronglySorted R l → StronglySorted (flip R) (reverse l).
Proof.
  induction 1 as [|x l Hl IH Hx]; [constructor|].
  rewrite reverse_cons. apply StronglySorted_app. split_and!.
  - intros y z Hy ->%list_elem_of_singleton. unfold flip.
    rewrite elem_of_reverse in Hy.
    exact (proj1 (Forall_forall (R x) l) Hx y Hy).
  - done.
  - repeat constructor.
Qed.

(** ** [Array_sort] *)

Section Array_sort_facts.
Context {A : Type} (cmp : A → A → Q).

Lemma sort_insert_perm x l : sort_insert cmp x l ≡ₚ x :: l.
Proof.
  induction l as [|y l IH]; simpl; [done|].
  case_decide; [|done].
  rewrite IH. apply Permutation_swap.
Qed.

Lemma Array_sort_perm l : Array_sort cmp l ≡ₚ l.
Proof.
  induction l as [|x l IH]; simpl; [done|].
  by rewrite sort_insert_perm, IH.
Qed.

Lemma Array_sort_length l : length (Array_sort cmp l) = length l.
Proof. by rewrite Array_sort_perm. Qed.

Lemma sort_insert_front x l :
  Forall (keeps cmp x) l → sort_insert cmp x l = x :: l.
Proof.
  destruct l as [|y l]; simpl; [done|].
  intros [Hy _]%Forall_cons. by rewrite decide_False.
Qed.

(** Sorting leaves alone a list none of whose elements has to move. *)
Lemma Array_sort_id l :
  (∀ x y, x ∈ l → y ∈ l → keeps cmp x y) → Array_sort cmp l = l.
Proof.
  induction l as [|x l IH]; simpl; intros Hl; [done|].
  rewrite IH by (intros; apply Hl; by constructor).
  apply sort_insert_front, Forall_forall.
  intros y Hy. apply Hl; [left | by right].
Qed.

Section consistent.
Hypothesis cmp_asym : ∀ x y, (0 < cmp x y)%Q → keeps cmp y x.
Hypothesis keeps_trans : ∀ x y z, keeps cmp x y → keeps cmp y z → keeps cmp x z.

Lemma sort_insert_sorted x l :
  StronglySorted (keeps cmp) l → StronglySorted (keeps cmp) (sort_insert cmp x l).
Proof using cmp_asym keeps_trans.
  induction 1 as [|y l Hl IH Hy]; simpl.
  { repeat constructor. }
  case_decide as Hxy.
  - constructor; [done|].
    rewrite sort_insert_perm. constructor; [by apply cmp_asym | done].
  - constructor; [by constructor|].
    constructor; [done|].
    eapply Forall_impl; [exact Hy|]. intros z Hz. by eapply keeps_trans.
Qed.

Lemma Array_sort_sorted l : StronglySorted (keeps cmp) (Array_sort cmp l).
Proof using cmp_asym keeps_trans.
  induction l; simpl; [constructor | by apply sort_insert_sorted].
Qed.

(** Stability: the sort commutes with every selection of elements. *)
Lemma filter_sort_insert (P : A → Prop) `{!∀ x, Decision (P x)} x l :
  StronglySorted (keeps cmp) l →
  filter P (sort_insert cmp x l)
  = if decide (P x) then sort_insert cmp x (filter P l) else filter P l.
Proof using keeps_trans.
  induction 1 as [|y l Hl IH Hy]; simpl.
  { rewrite filter_cons, filter_nil. by case_decide. }
  destruct (decide (0 < cmp x y)%Q) as [Hxy|Hxy].
  - rewrite !(filter_cons _ y), IH.
    destruct (decide (P x)), (decide (P y)); simpl; try done.
    by rewrite decide_True.
  - rewrite (filter_cons _ x).
    destruct (decide (P x)); [|done].
    symmetry. apply sort_insert_front.
    apply Forall_forall. intros z [_ Hz]%list_elem_of_filter.
    apply elem_of_cons in Hz as [->|Hz]; [done|].
    eapply keeps_trans; [exact Hxy|].
    by eapply Forall_forall in Hy.
Qed.

Lemma filter_Array_sort (P : A → Prop) `{!∀ x, Decision (P x)} l :
  filter P (Array_sort cmp l) = Array_sort cmp (filter P l).
Proof using cmp_asym keeps_trans.
  induction l as [|x l IH]; simpl; [done|].
  rewrite filter_sort_insert by apply Array_sort_sorted.
  rewrite filter_cons, IH. by case_decide.
Qed.
End consistent.
End Array_sort_facts.

(** ** Standings Ranker *)

Lemma keeps_by_record a b :
  keeps by_record a b ↔
  wins b < wins a ∨ (wins a = wins b ∧ (pf b <= pf a)%Q).
Proof.
  unfold keeps, by_record.
  destruct (Z.eqb_spec (wins b) (wins a)) as [Heq|Hne]; simpl.
  - split.
    + intros H. right. split; [done|]. lra.
    + intros [?|[_ ?]]; [lia | lra].
  - rewrite <- (Zlt_Qlt 0). split.
    + intros H. left. lia.
    + intros [?|[? _]]; [lia | congruence].
Qed.

Lemma by_record_asym a b : (0 < by_record a b)%Q → keeps by_record b a.
Proof.
  intros H. apply keeps_by_record.
  assert (¬ keeps by_record a b) as Hk by (intros Hk; by apply Hk).
  rewrite keeps_by_record in Hk.
  destruct (Z.lt_trichotomy (wins a) (wins b)) as [?|[?|?]]; [by left| |].
  - right. split; [done|].
    destruct (Qlt_le_dec (pf b) (pf a)) as [Hlt|Hle]; [|done].
    exfalso. apply Hk. right. split; [done|]. lra.
  - exfalso. apply Hk. by left.
Qed.

Lemma keeps_by_record_trans a b c :
  keeps by_record a b → keeps by_record b c → keeps by_record a c.
Proof.
  rewrite !keeps_by_record.
  intros [?|[? ?]] [?|[? ?]]; [left; lia..|].
  right. split; [lia | lra].
Qed.

Lemma rank_teams_rows rows :
  row <$> rank_teams rows = Array_sort by_record rows.
Proof.
  unfold rank_teams. rewrite fmap_imap.
  induction (Array_sort by_record rows) as [|t l IH] using rev_ind; [done|].
  by rewrite imap_app, IH, imap_cons.
Qed.

Lemma rank_teams_ranks rows :
  rank <$> rank_teams rows = seqZ 1 (Z.of_nat (length rows)).
Proof.
  unfold rank_teams. rewrite fmap_imap, <- (Array_sort_length by_record).
  apply list_eq. intros i.
  rewrite list_lookup_imap.
  destruct (Array_sort by_record rows !! i) as [t|] eqn:Hi; simpl.
  - apply lookup_lt_Some in Hi. symmetry. rewrite lookup_seqZ. lia.
  - apply lookup_ge_None in Hi. symmetry. apply lookup_seqZ_ge. lia.
Qed.

Lemma standings_length_of userMap rosters :
  length (standings_of userMap rosters) = length rosters.
Proof.
  unfold standings_of.
  rewrite <- (length_fmap row), rank_teams_rows, Array_sort_length.
  apply length_fmap.
Qed.


(** C4. The ranker's sort is stable: for every wins value and every
    points-for value, the teams that have exactly that record appear in the
    ranked output in the order they have in the input. *)
Theorem standings_stable
    (userMap : gmap string UserEntry) (rosters : list Sleeper.Roster)
    (w : Z) (p : Q) :
  filter (same_record w p) (row <$> standings_of userMap rosters)
  = filter (same_record w p) (team_of_roster userMap <$> rosters).
Proof.
  unfold standings_of. rewrite rank_teams_rows.
  rewrite (filter_Array_sort _ by_record_asym keeps_by_record_trans).
  apply Array_sort_id.
  intros a b [[Ha Ha'] _]%list_elem_of_filter [[Hb Hb'] _]%list_elem_of_filter.
  apply keeps_by_record. right. split; [congruence|].
  rewrite Ha', Hb'. apply Qle_refl.
Qed.

(** ** Matchup Pairer *)

Section grouping.
Context (rosterToUser : gmap Z string).
Implicit Types (data : list Row.t) (grouped : list (Z * list Entry.t)).

Local Abbreviation entry := (entry_of rosterToUser).
Local Abbreviation as_map grouped :=
  (list_to_map grouped : gmap Z (list Entry.t)).

Lemma grouped_push_map mid e grouped :
  as_map (grouped_push mid e grouped)
  = <[mid := default [] (as_map grouped !! mid) ++ [e]]> (as_map grouped).
Proof.
  induction grouped as [|[k g] rest IH]; simpl; [done|].
  case_decide as Hk; simpl.
  - subst k. by rewrite lookup_insert_eq, insert_insert_eq.
  - rewrite IH, lookup_insert_ne by done. by apply insert_insert_ne.
Qed.

Lemma grouped_push_keys mid e grouped :
  (grouped_push mid e grouped).*1
  = if decide (mid ∈ grouped.*1) then grouped.*1 else grouped.*1 ++ [mid].
Proof.
  induction grouped as [|[k g] rest IH]; csimpl; [done|].
  destruct (decide (k = mid)) as [->|Hk]; csimpl.
  - rewrite decide_True; [done|]. left.
  - rewrite IH. destruct (decide (mid ∈ rest.*1)) as [Hin|Hin].
    + rewrite decide_True; [done|]. by right.
    + rewrite decide_False; [done|].
      intros [->|?]%elem_of_cons; done.
Qed.

Lemma grouped_push_NoDup mid e grouped :
  NoDup grouped.*1 → NoDup (grouped_push mid e grouped).*1.
Proof.
  intros Hnd. rewrite grouped_push_keys. case_decide as Hin; [done|].
  apply NoDup_app. split_and!; [done| |apply NoDup_singleton].
  intros k Hk ->%list_elem_of_singleton. done.
Qed.

Lemma grouped_push_size mid e grouped :
  sum_list (length <$> (grouped_push mid e grouped).*2)
  = S (sum_list (length <$> grouped.*2)).
Proof.
  induction grouped as [|[k g] rest IH]; simpl; [done|].
  case_decide; csimpl; [rewrite length_app; simpl; lia|].
  rewrite IH. lia.
Qed.

Lemma group_rows_snoc data m :
  group_rows rosterToUser (data ++ [m])
  = group_row rosterToUser (group_rows rosterToUser data) m.
Proof. apply foldl_snoc. Qed.

Lemma group_rows_NoDup data : NoDup (group_rows rosterToUser data).*1.
Proof.
  induction data as [|m data IH] using rev_ind; [constructor|].
  rewrite group_rows_snoc. unfold group_row.
  destruct (Row.matchup_id m) as [mid|]; [|done].
  destruct (truthy (Some mid)); [|done].
  by apply grouped_push_NoDup.
Qed.

(** What [grouped[k]] holds once every row is processed. *)
Lemma group_rows_lookup data k :
  as_map (group_rows rosterToUser data) !! k
  = if decide (k ≠ 0 ∧ group_of k data ≠ [])
    then Some (entry <$> group_of k data) else None.
Proof.
  induction data as [|m data IH] using rev_ind.
  { simpl. rewrite decide_False; [done|]. by intros [_ ?]. }
  rewrite group_rows_snoc. unfold group_row, group_of.
  rewrite filter_app, filter_cons, filter_nil. fold (group_of k data).
  destruct (decide (Row.matchup_id m = Some k)) as [Hmk|Hmk].
  - rewrite Hmk. simpl. destruct (Z.eqb_spec k 0) as [->|Hk]; simpl.
    { rewrite IH, !decide_False; [done|by intros [? _]..]. }
    rewrite grouped_push_map, lookup_insert_eq, IH.
    rewrite (decide_True (P := k ≠ 0 ∧ group_of k data ++ [m] ≠ [])).
    2:{ split; [done|]. by destruct (group_of k data). }
    rewrite fmap_app. f_equal. f_equal.
    case_decide as Hd; [done|].
    destruct (group_of k data); [done|].
    exfalso. apply Hd. by split.
  - rewrite app_nil_r, <- IH.
    destruct (Row.matchup_id m) as [mid|]; [|done].
    destruct (truthy (Some mid)); [|done].
    rewrite grouped_push_map, lookup_insert_ne; congruence.
Qed.

Lemma group_rows_elem data k g :
  (k, g) ∈ group_rows rosterToUser data
  ↔ k ≠ 0 ∧ g ≠ [] ∧ g = entry <$> group_of k data.
Proof.
  rewrite elem_of_list_to_map by apply group_rows_NoDup.
  rewrite group_rows_lookup. case_decide as Hd.
  - split.
    + intros [= <-]. destruct Hd as [? Hne]. split_and!; [done| |done].
      by destruct (group_of k data).
    + by intros (_ & _ & ->).
  - split; [done|]. intros (Hk & Hg & ->).
    exfalso. apply Hd. split; [done|]. by destruct (group_of k data).
Qed.

Lemma group_rows_size data :
  sum_list (length <$> (group_rows rosterToUser data).*2)
  = length (filter (λ m, truthy (Row.matchup_id m)) data).
Proof.
  induction data as [|m data IH] using rev_ind; [done|].
  rewrite group_rows_snoc, filter_app, length_app, <- IH.
  rewrite filter_cons, filter_nil. unfold group_row.
  destruct (Row.matchup_id m) as [mid|]; simpl; [|lia].
  destruct (negb (mid =? 0)); simpl; [|lia].
  rewrite grouped_push_size. lia.
Qed.

(** Rows the guard skips do not take part in the grouping. *)
Lemma group_rows_skip (P : Row.t → Prop) `{!∀ m, Decision (P m)} data :
  (∀ m, ¬ P m → truthy (Row.matchup_id m) = false) →
  group_rows rosterToUser (filter P data) = group_rows rosterToUser data.
Proof.
  intros HP. induction data as [|m data IH] using rev_ind; [done|].
  rewrite filter_app, filter_cons, filter_nil, group_rows_snoc.
  destruct (decide (P m)) as [Hm|Hm].
  - by rewrite group_rows_snoc, IH.
  - rewrite app_nil_r, IH. unfold group_row.
    specialize (HP m Hm).
    destruct (Row.matchup_id m) as [mid|]; [|done]. by rewrite HP.
Qed.

Lemma grouped_push_remove k mid e grouped :
  filter (λ kv, kv.1 ≠ k) (grouped_push mid e grouped)
  = if decide (mid = k) then filter (λ kv, kv.1 ≠ k) grouped
    else grouped_push mid e (filter (λ kv, kv.1 ≠ k) grouped).
Proof.
  induction grouped as [|[k' g] rest IH]; simpl.
  { rewrite filter_cons, filter_nil. simpl.
    destruct (decide (mid = k)) as [->|Hne].
    - by rewrite decide_False by (by intros []).
    - by rewrite decide_True. }
  destruct (decide (k' = mid)) as [->|Hk'].
  - rewrite !(filter_cons _ (mid, _)). simpl.
    destruct (decide (mid = k)) as [->|Hne].
    + by rewrite !decide_False by (by intros []).
    + rewrite !decide_True by done. simpl. by rewrite decide_True.
  - rewrite !(filter_cons _ (k', g)), IH. simpl.
    destruct (decide (mid = k)) as [->|Hne]; [done|].
    destruct (decide (k' ≠ k)); [|done].
    simpl. by rewrite decide_False.
Qed.

(** Grouping without the rows of one identifier is the grouping without
    that identifier's group. *)
Lemma group_rows_remove k data :
  group_rows rosterToUser (filter (λ m, Row.matchup_id m ≠ Some k) data)
  = filter (λ kv, kv.1 ≠ k) (group_rows rosterToUser data).
Proof.
  induction data as [|m data IH] using rev_ind; [done|].
  rewrite filter_app, filter_cons, filter_nil, group_rows_snoc.
  destruct (decide (Row.matchup_id m ≠ Some k)) as [Hm|Hm].
  - rewrite group_rows_snoc, IH. unfold group_row.
    destruct (Row.matchup_id m) as [mid|]; [|done].
    destruct (truthy (Some mid)); [|done].
    rewrite grouped_push_remove, decide_False; [done|congruence].
  - rewrite app_nil_r, IH. unfold group_row.
    apply dec_stable in Hm. rewrite Hm.
    destruct (truthy (Some k)); [|done].
    by rewrite grouped_push_remove, decide_True.
Qed.
End grouping.

(** *** Enumeration order *)

Lemma keeps_by_key {V} (a b : Z * V) : keeps by_key a b ↔ a.1 ≤ b.1.
Proof.
  unfold keeps, by_key. rewrite <- (Zlt_Qlt 0). lia.
Qed.

Lemma by_key_asym {V} (a b : Z * V) :
  (0 < by_key a b)%Q → keeps by_key b a.
Proof.
  intros H. apply keeps_by_key.
  assert (¬ keeps by_key a b) as Hk by (intros Hk; by apply Hk).
  rewrite keeps_by_key in Hk. lia.
Qed.

Lemma keeps_by_key_trans {V} (a b c : Z * V) :
  keeps by_key a b → keeps by_key b c → keeps by_key a c.
Proof. rewrite !keeps_by_key. lia. Qed.

Lemma Object_entries_perm {V} (o : list (Z * V)) : Object_entries o ≡ₚ o.
Proof.
  unfold Object_entries. rewrite Array_sort_perm.
  apply filter_app_complement.
Qed.

Lemma Object_entries_filter {V} (P : Z * V → Prop) `{!∀ kv, Decision (P kv)}
    (o : list (Z * V)) :
  filter P (Object_entries o) = Object_entries (filter P o).
Proof.
  unfold Object_entries. rewrite filter_app.
  rewrite (filter_Array_sort _ by_key_asym keeps_by_key_trans).
  rewrite !list_filter_filter. f_equal; [f_equal|];
    apply list_filter_iff; intros kv; split; intros [? ?]; by split.
Qed.

(** *** The pairs *)

Lemma to_matchup_pair (a b : Entry.t) :
  to_matchup [a; b]
  = Return {| team1 := Entry.teamName a; score1 := Entry.points a;
              team2 := Entry.teamName b; score2 := Entry.points b |}.
Proof. done. Qed.

Lemma length_two {A} (l : list A) : length l = 2%nat → ∃ a b, l = [a; b].
Proof. destruct l as [|a [|b [|c l]]]; intros [=]. by exists a, b. Qed.

(** The pairer never reads a property of a missing element: [pairs] is
    computed, and each pair comes from a group of exactly two entries. *)
Lemma pair_rows_Return rosterToUser data :
  ∃ out,
    pair_rows rosterToUser data = Return out
    ∧ Forall2 (λ g p, to_matchup g = Return p)
        (filter (λ g, length g = 2%nat)
           (Object_values (group_rows rosterToUser data)))
        out.
Proof.
  apply Array_mapM_Return, Forall_forall.
  intros g [Hg _]%list_elem_of_filter.
  destruct (length_two g Hg) as (a & b & ->). by eexists.
Qed.

Lemma pair_rows_without rosterToUser (k : Z) (data : list Row.t) :
  occurrences k data ≠ 2%nat →
  pair_rows rosterToUser (filter (λ m, Row.matchup_id m ≠ Some k) data)
  = pair_rows rosterToUser data.
Proof.
  intros Hk. unfold pair_rows, Object_values.
  rewrite group_rows_remove, <- Object_entries_filter.
  f_equal. apply filter_fmap_filter.
  intros [k' g] Hin Hk'. apply dec_stable in Hk'. simpl in *. subst k'.
  rewrite Object_entries_perm in Hin.
  apply group_rows_elem in Hin as (_ & _ & ->).
  by rewrite length_fmap.
Qed.

Lemma pair_rows_skip rosterToUser (P : Row.t → Prop) `{!∀ m, Decision (P m)}
    (data : list Row.t) :
  (∀ m, ¬ P m → truthy (Row.matchup_id m) = false) →
  pair_rows rosterToUser (filter P data) = pair_rows rosterToUser data.
Proof. intros HP. unfold pair_rows. by rewrite group_rows_skip. Qed.

(** Every emitted pair is the group of some identifier with exactly two
    rows, first row first. *)
Lemma pair_rows_trace rosterToUser data out p :
  pair_rows rosterToUser data = Return out → p ∈ out →
  ∃ k a b,
    k ≠ 0 ∧ group_of k data = [a; b]
    ∧ p = {| team1 := team_name rosterToUser a;
             score1 := num_or0 (Row.points a);
             team2 := team_name rosterToUser b;
             score2 := num_or0 (Row.points b) |}.
Proof.
  intros Hout Hp.
  destruct (pair_rows_Return rosterToUser data) as (out' & Hout' & HF).
  rewrite Hout in Hout'. injection Hout' as <-.
  apply list_elem_of_lookup in Hp as [i Hi].
  destruct (Forall2_lookup_r _ _ _ _ _ HF Hi) as (g & Hg & Hgp).
  apply list_elem_of_lookup_2, list_elem_of_filter in Hg as [Hlen Hg].
  unfold Object_values in Hg.
  apply list_elem_of_fmap in Hg as ([k g'] & -> & Hin). simpl in *.
  rewrite Object_entries_perm in Hin.
  apply group_rows_elem in Hin as (Hk & _ & ->).
  rewrite length_fmap in Hlen.
  destruct (length_two _ Hlen) as (a & b & Hab).
  exists k, a, b. split_and!; [done..|].
  rewrite Hab in Hgp. simpl in Hgp. by injection Hgp as <-.
Qed.

(** Conversely every identifier with exactly two rows yields its pair. *)
Lemma pair_rows_emits rosterToUser data out k a b :
  pair_rows rosterToUser data = Return out →
  k ≠ 0 → group_of k data = [a; b] →
  {| team1 := team_name rosterToUser a; score1 := num_or0 (Row.points a);
     team2 := team_name rosterToUser b; score2 := num_or0 (Row.points b) |}
  ∈ out.
Proof.
  intros Hout Hk Hab.
  destruct (pair_rows_Return rosterToUser data) as (out' & Hout' & HF).
  rewrite Hout in Hout'. injection Hout' as <-.
  set (g := entry_of rosterToUser <$> [a; b]).
  assert (g ∈ filter (λ g, length g = 2%nat)
                (Object_values (group_rows rosterToUser data))) as Hg.
  { apply list_elem_of_filter. split; [done|].
    unfold Object_values. apply list_elem_of_fmap. exists (k, g).
    split; [done|]. rewrite Object_entries_perm.
    apply group_rows_elem. by rewrite Hab. }
  apply list_elem_of_lookup in Hg as [i Hi].
  destruct (Forall2_lookup_l _ _ _ _ _ HF Hi) as (p & Hp & Hgp).
  simpl in Hgp. injection Hgp as <-.
  by eapply list_elem_of_lookup_2.
Qed.

(** C2 as stated fails for the pairing identifier 0: two rows that share the
    identifier 0, and no other row, yield no matchup at all instead of one. *)
Lemma pairing_zero_id_counterexample :
  (∀ m, m ∈ zero_id_rows →
     ∃ k, Row.matchup_id m = Some k ∧ occurrences k zero_id_rows = 2%nat)
  ∧ useMatchups ∅ [] (Some zero_id_rows) = Return []
  ∧ length (@nil Matchup) ≠ (length zero_id_rows / 2)%nat.
Proof.
  split_and!; [|done..].
  intros m Hm. exists 0. unfold zero_id_rows in Hm.
  repeat (apply elem_of_cons in Hm as [->|Hm]); [done..|].
  by apply elem_of_nil in Hm.
Qed.

(** C2, amended. For every list of rows in which every row carries a
    pairing identifier that is neither missing nor 0 and every identifier
    appears exactly twice, the pairer emits half as many matchups as there
    are rows; every emitted matchup holds the points (a missing one read as
    0) and the team names of the two rows that share one identifier, the
    earlier row first; and every identifier yields its matchup. *)
Theorem pairing_complete
    (userMap : gmap string UserEntry) (rosters : list Sleeper.Roster)
    (data : list Row.t) :
  (∀ m, m ∈ data →
     ∃ k, Row.matchup_id m = Some k ∧ k ≠ 0 ∧ occurrences k data = 2%nat) →
  let rosterToUser := build_rosterToUser userMap rosters in
  ∃ out,
    useMatchups userMap rosters (Some data) = Return out
    ∧ length out = (length data / 2)%nat
    ∧ (∀ p, p ∈ out →
         ∃ k a b,
           group_of k data = [a; b]
           ∧ score1 p = num_or0 (Row.points a)
           ∧ score2 p = num_or0 (Row.points b)
           ∧ team1 p = team_name rosterToUser a
           ∧ team2 p = team_name rosterToUser b)
    ∧ (∀ m, m ∈ data →
         ∃ p a b,
           p ∈ out ∧ m ∈ [a; b]
           ∧ group_of (int_or0 (Row.matchup_id m)) data = [a; b]
           ∧ score1 p = num_or0 (Row.points a)
           ∧ score2 p = num_or0 (Row.points b)).
Proof.
  intros Hdata rosterToUser. unfold useMatchups. fold rosterToUser.
  destruct (pair_rows_Return rosterToUser data) as (out & Hout & HF).
  exists out. split_and!; [done| | |].
  - apply Forall2_length in HF. rewrite <- HF.
    set (grouped := group_rows rosterToUser data).
    assert (Forall (λ g, length g = 2%nat) grouped.*2) as Htwo.
    { apply Forall_forall. intros g ([k g'] & -> & Hin)%list_elem_of_fmap.
      apply group_rows_elem in Hin as (_ & Hne & ->). simpl.
      rewrite length_fmap.
      destruct (group_of k data) as [|m l] eqn:Hg; [done|].
      assert (m ∈ group_of k data) as Hm by (rewrite Hg; left).
      apply list_elem_of_filter in Hm as [Hmk Hm].
      destruct (Hdata m Hm) as (k' & Hk' & _ & Hocc).
      rewrite Hmk in Hk'. injection Hk' as <-.
      by rewrite <- Hg. }
    assert (length data = (length grouped * 2)%nat) as ->.
    { pose proof (sum_list_fmap_same 2 grouped.*2 length Htwo) as Hsum.
      rewrite length_fmap in Hsum. rewrite <- Hsum.
      unfold grouped. rewrite group_rows_size.
      rewrite filter_all; [done|]. apply Forall_forall. intros m Hm.
      destruct (Hdata m Hm) as (k & -> & Hk & _). simpl.
      by destruct (Z.eqb_spec k 0). }
    rewrite Nat.div_mul by done.
    rewrite filter_all.
    + unfold Object_values. by rewrite length_fmap, Object_entries_perm.
    + unfold Object_values. by rewrite Object_entries_perm.
  - intros p Hp.
    destruct (pair_rows_trace _ _ _ _ Hout Hp) as (k & a & b & _ & Hab & ->).
    by exists k, a, b.
  - intros m Hm. destruct (Hdata m Hm) as (k & Hmk & Hk & Hocc).
    destruct (length_two _ Hocc) as (a & b & Hab).
    eexists _, a, b. split_and!.
    + by eapply pair_rows_emits.
    + rewrite <- Hab. by apply list_elem_of_filter.
    + by rewrite Hmk.
    + done.
    + done.
Qed.

Lemma pairing_complete_witness :
  (∀ m, m ∈ one_game_rows →
     ∃ k, Row.matchup_id m = Some k ∧ k ≠ 0
          ∧ occurrences k one_game_rows = 2%nat)
  ∧ ∃ out,
      useMatchups ∅ [] (Some one_game_rows) = Return out
      ∧ length out = 1%nat.
Proof.
  assert (∀ m, m ∈ one_game_rows →
     ∃ k, Row.matchup_id m = Some k ∧ k ≠ 0
          ∧ occurrences k one_game_rows = 2%nat) as H.
  { intros m Hm. exists 1. unfold one_game_rows in Hm.
    repeat (apply elem_of_cons in Hm as [->|Hm]); [done..|].
    by apply elem_of_nil in Hm. }
  split; [exact H|].
  destruct (pairing_complete ∅ [] one_game_rows H) as (out & Hout & Hlen & _).
  exists out. by split.
Defined.

(** C6. A pairing identifier that does not appear exactly twice (once, or
    three or more times) contributes no matchup: the pairer's output is the
    one it gives without that identifier's rows, and every emitted matchup
    belongs to another identifier.  A row without pairing identifier is
    left out of the grouping: the groups, and so the output, are those of
    the input without such rows, and every grouped row carries the
    identifier of its group. *)
Theorem pairing_drops_malformed
    (userMap : gmap string UserEntry) (rosters : list Sleeper.Roster)
    (data : list Row.t) (k : Z) :
  occurrences k data ≠ 2%nat →
  let rosterToUser := build_rosterToUser userMap rosters in
  useMatchups userMap rosters
    (Some (filter (λ m, Row.matchup_id m ≠ Some k) data))
  = useMatchups userMap rosters (Some data)
  ∧ (∀ out p,
       useMatchups userMap rosters (Some data) = Return out → p ∈ out →
       ∃ k' a b,
         k' ≠ k ∧ group_of k' data = [a; b]
         ∧ score1 p = num_or0 (Row.points a)
         ∧ score2 p = num_or0 (Row.points b))
  ∧ group_rows rosterToUser (filter (λ m, Row.matchup_id m ≠ None) data)
    = group_rows rosterToUser data
  ∧ useMatchups userMap rosters
      (Some (filter (λ m, Row.matchup_id m ≠ None) data))
    = useMatchups userMap rosters (Some data)
  ∧ (∀ k' g e,
       (k', g) ∈ group_rows rosterToUser data → e ∈ g →
       Row.matchup_id (Entry.m e) = Some k').
Proof.
  intros Hk rosterToUser. unfold useMatchups. fold rosterToUser.
  assert (∀ m, ¬ Row.matchup_id m ≠ None → truthy (Row.matchup_id m) = false)
    as Hnull.
  { intros m Hm. apply dec_stable in Hm. by rewrite Hm. }
  split_and!.
  - by apply pair_rows_without.
  - intros out p Hout Hp.
    destruct (pair_rows_trace _ _ _ _ Hout Hp) as (k' & a & b & _ & Hab & ->).
    exists k', a, b. split_and!; [|done..].
    intros ->. apply Hk. unfold occurrences. by rewrite Hab.
  - by apply group_rows_skip.
  - by apply pair_rows_skip.
  - intros k' g e (_ & _ & ->)%group_rows_elem.
    intros (m & -> & Hm)%list_elem_of_fmap.
    by apply list_elem_of_filter in Hm as [Hm _].
Qed.

Lemma pairing_drops_malformed_witness :
  occurrences 4 three_way_rows ≠ 2%nat
  ∧ useMatchups ∅ [] (Some []) = useMatchups ∅ [] (Some three_way_rows).
Proof.
  assert (occurrences 4 three_way_rows ≠ 2%nat) as H by (vm_compute; lia).
  split; [exact H|].
  exact (proj1 (pairing_drops_malformed ∅ [] three_way_rows 4 H)).
Defined.

(** C10. A row whose pairing identifier is 0 is skipped like a row without
    one: the output is the one the pairer gives with every 0 read as
    missing, and the one it gives without those rows; no group is keyed 0
    and every emitted matchup belongs to a non-zero identifier.  In
    particular two rows that share the identifier 0 yield no matchup. *)
Theorem pairing_skips_zero_id
    (userMap : gmap string UserEntry) (rosters : list Sleeper.Roster)
    (data : list Row.t) :
  let rosterToUser := build_rosterToUser userMap rosters in
  useMatchups userMap rosters (Some (zero_as_missing <$> data))
  = useMatchups userMap rosters (Some data)
  ∧ useMatchups userMap rosters
      (Some (filter (λ m, Row.matchup_id m ≠ Some 0) data))
    = useMatchups userMap rosters (Some data)
  ∧ (∀ k g, (k, g) ∈ group_rows rosterToUser data → k ≠ 0)
  ∧ (∀ out p,
       useMatchups userMap rosters (Some data) = Return out → p ∈ out →
       ∃ k a b,
         k ≠ 0 ∧ group_of k data = [a; b]
         ∧ score1 p = num_or0 (Row.points a)
         ∧ score2 p = num_or0 (Row.points b))
  ∧ useMatchups userMap rosters (Some zero_id_rows) = Return [].
Proof.
  intros rosterToUser. unfold useMatchups. fold rosterToUser.
  split_and!.
  - unfold pair_rows. f_equal. f_equal. f_equal.
    unfold group_rows. rewrite foldl_fmap.
    generalize (@nil (Z * list Entry.t)).
    induction data as [|m data IH]; intros grouped; [done|]. simpl.
    rewrite IH. f_equal. unfold zero_as_missing, group_row.
    case_decide as Hm; [|done]. by rewrite Hm.
  - apply pair_rows_skip. intros m Hm. apply dec_stable in Hm.
    by rewrite Hm.
  - by intros k g (Hk & _)%group_rows_elem.
  - intros out p Hout Hp.
    destruct (pair_rows_trace _ _ _ _ Hout Hp) as (k & a & b & Hk & Hab & ->).
    by exists k, a, b.
  - done.
Qed.

(** ** Roster/User Resolver *)

Lemma str_or_nonempty x d : d ≠ "" → str_or x d ≠ "".
Proof. intros Hd. unfold str_or. destruct x; [case_decide|]; done. Qed.

Lemma user_entry_name_nonempty u : name (user_entry u) ≠ "".
Proof. simpl. by apply str_or_nonempty, str_or_nonempty. Qed.

Lemma Team_label_nonempty (n : Z) : "Team " +:+ pretty n ≠ "".
Proof. done. Qed.

Lemma resolve_name_nonempty userMap r : resolve_name userMap r ≠ "".
Proof. apply str_or_nonempty, Team_label_nonempty. Qed.

(** A dictionary filled by [forEach] holds, under each key, the value of the
    last element with that key. *)
Lemma forEach_lookup {A K V} `{Countable K} (key : A → K) (val : A → V)
    (l : list A) (k : K) :
  foldl (λ (m : gmap K V) x, <[key x := val x]> m) ∅ l !! k
  = val <$> last (filter (λ x, key x = k) l).
Proof.
  induction l as [|x l IH] using rev_ind; [done|].
  rewrite foldl_snoc, filter_app, filter_cons, filter_nil.
  destruct (decide (key x = k)) as [<-|Hne].
  - by rewrite lookup_insert_eq, last_snoc.
  - by rewrite lookup_insert_ne, app_nil_r.
Qed.

(** C7. For every list of users and every list of rosters: each owner
    identifier maps to the entry of the (last) user with that identifier,
    whose name is the display name, else the username, else "Unknown" (so
    "Unknown" when both are absent), and whose avatar is the thumbnail URL
    of the user's avatar reference, and null when the reference is absent
    or empty: no value at all, and never the text "none".  Each roster
    identifier maps to the name resolved for the (last) roster with that
    identifier, which is the owning user's name when the owner is in the
    user mapping and "Team {rosterId}" when it is not; every user and every
    roster is resolved, to a name that is not empty. *)
Theorem resolver_fallbacks
    (users : list Sleeper.User) (rosters : list Sleeper.Roster) :
  let userMap := build_userMap users in
  let rosterToUser := build_rosterToUser userMap rosters in
  (∀ id, userMap !! id
         = user_entry <$> last (filter (λ u, Sleeper.user_id u = id) users))
  ∧ (∀ u, name (user_entry u)
          = str_or (Sleeper.display_name u)
              (str_or (Sleeper.username u) "Unknown"))
  ∧ (∀ u, Sleeper.display_name u = None → Sleeper.username u = None →
          name (user_entry u) = "Unknown")
  ∧ (∀ u, Sleeper.avatar u = None → avatar (user_entry u) = None)
  ∧ (∀ u, Sleeper.avatar u = Some "" → avatar (user_entry u) = None)
  ∧ (∀ u a, Sleeper.avatar u = Some a → a ≠ "" →
            avatar (user_entry u)
            = Some ("https://sleepercdn.com/avatars/thumbs/" +:+ a))
  ∧ (∀ u, avatar (user_entry u) ≠ Some "none")
  ∧ (∀ u, u ∈ users →
          ∃ e, userMap !! Sleeper.user_id u = Some e ∧ name e ≠ "")
  ∧ (∀ rid, rosterToUser !! rid
            = resolve_name userMap
                <$> last (filter (λ r, Sleeper.roster_id r = rid) rosters))
  ∧ (∀ r e, userMap !! Sleeper.owner_id r = Some e →
            resolve_name userMap r = name e)
  ∧ (∀ r, userMap !! Sleeper.owner_id r = None →
          resolve_name userMap r = "Team " +:+ pretty (Sleeper.roster_id r))
  ∧ (∀ r, r ∈ rosters →
          ∃ n, rosterToUser !! Sleeper.roster_id r = Some n ∧ n ≠ "").
Proof.
  intros userMap rosterToUser.
  assert (∀ id, userMap !! id
     = user_entry <$> last (filter (λ u, Sleeper.user_id u = id) users))
    as HuserMap by apply forEach_lookup.
  assert (∀ rid, rosterToUser !! rid
     = resolve_name userMap
         <$> last (filter (λ r, Sleeper.roster_id r = rid) rosters))
    as HrosterToUser by apply forEach_lookup.
  assert (∀ {A} (P : A → Prop) `{!∀ x, Decision (P x)} (l : list A) x,
            x ∈ l → P x → ∃ y, last (filter P l) = Some y ∧ P y) as Hlast.
  { intros A P ? l x Hx HP.
    assert (x ∈ filter P l) as Hin by by apply list_elem_of_filter.
    destruct (last (filter P l)) as [y|] eqn:Hy.
    - exists y. split; [done|].
      apply last_Some in Hy as [l' Hl'].
      assert (y ∈ filter P l) as Hyin.
      { rewrite Hl'. apply elem_of_app. right. left. }
      by apply list_elem_of_filter in Hyin as [? _].
    - apply last_None in Hy. rewrite Hy in Hin. by apply elem_of_nil in Hin. }
  split_and!; [done|done| | | | | | |done| | |].
  - intros u Hd Hu. simpl. by rewrite Hd, Hu.
  - intros u Hu. simpl. by rewrite Hu.
  - intros u Hu. simpl. by rewrite Hu.
  - intros u a Hu Ha. simpl. rewrite Hu. by rewrite decide_False.
  - intros u. simpl. destruct (Sleeper.avatar u) as [a|]; [|done].
    by case_decide.
  - intros u Hu. rewrite HuserMap.
    destruct (Hlast _ (λ u', Sleeper.user_id u' = Sleeper.user_id u) _
                users u Hu eq_refl) as (u' & -> & _).
    eexists. split; [done|]. apply user_entry_name_nonempty.
  - intros r e He. unfold resolve_name. rewrite He. simpl.
    rewrite decide_False; [done|].
    rewrite HuserMap in He.
    destruct (last _) as [u|]; [|done]. injection He as <-.
    apply user_entry_name_nonempty.
  - intros r Hr. unfold resolve_name. by rewrite Hr.
  - intros r Hr. rewrite HrosterToUser.
    destruct (Hlast _ (λ r', Sleeper.roster_id r' = Sleeper.roster_id r) _
                rosters r Hr eq_refl) as (r' & -> & _).
    eexists. split; [done|]. apply resolve_name_nonempty.
Qed.

(** C7, the claim as it stands.  A user without avatar reference is
    resolved to an entry whose avatar is null, not the text "none"; a team
    of that owner carries no avatar either. *)
Lemma resolver_avatar_counterexample :
  Sleeper.avatar sample_user = None
  ∧ ∃ e, build_userMap [sample_user] !! Sleeper.user_id sample_user = Some e
         ∧ avatar e = None
         ∧ avatar e ≠ Some "none"
         ∧ name e = "Unknown".
Proof. split; [done|]. eexists. by split_and!. Qed.

(** ** Values computed week by week *)

Lemma seqZ_sorted m n : StronglySorted Z.lt (seqZ m n).
Proof.
  remember (Z.to_nat n) as len eqn:Hlen. revert m n Hlen.
  induction len as [|len IH]; intros m n Hlen.
  { rewrite seqZ_nil by lia. constructor. }
  rewrite seqZ_cons by lia. constructor.
  - apply IH. lia.
  - apply Forall_seqZ. lia.
Qed.

Lemma elem_of_for_range lo hi w : w ∈ for_range lo hi ↔ lo ≤ w ≤ hi.
Proof. unfold for_range. rewrite elem_of_seqZ. lia. Qed.

Section per_week.
Context {P : Type} (week : P → Z) (f : Z → option P).
Hypothesis f_week : ∀ w p, f w = Some p → week p = w.

Lemma omap_week_elem (ws : list Z) p :
  p ∈ omap f ws ↔ week p ∈ ws ∧ f (week p) = Some p.
Proof using f_week.
  rewrite list_elem_of_omap. split.
  - intros (w & Hw & Hp). by rewrite (f_week _ _ Hp).
  - intros [Hw Hp]. eauto.
Qed.

Lemma omap_week_sorted (ws : list Z) :
  StronglySorted Z.lt ws →
  StronglySorted (λ p q, week p < week q) (omap f ws).
Proof using f_week.
  induction 1 as [|w ws Hws IH Hw]; [constructor|].
  csimpl. destruct (f w) as [p|] eqn:Hp; [|done].
  constructor; [done|]. apply Forall_forall.
  intros q [Hq _]%omap_week_elem.
  rewrite (f_week _ _ Hp). by eapply Forall_forall in Hw.
Qed.

Lemma omap_week_filter (ws : list Z) w :
  NoDup ws →
  filter (λ p, week p = w) (omap f ws)
  = if decide (w ∈ ws) then option_list (f w) else [].
Proof using f_week.
  induction 1 as [|w' ws Hw' Hws IH]; [done|].
  csimpl.
  destruct (decide (w' = w)) as [->|Hne].
  - rewrite decide_True by left.
    rewrite decide_False in IH by done.
    destruct (f w) as [p|] eqn:Hp; [|done].
    by rewrite filter_cons_True, IH by by apply f_week.
  - assert (filter (λ p, week p = w) (omap f ws)
            = if decide (w ∈ w' :: ws) then option_list (f w) else [])
      as IH'.
    { rewrite IH. apply decide_ext. rewrite elem_of_cons.
      split; [by right | by intros [?|?]]. }
    destruct (f w') as [p|] eqn:Hp; [|done].
    rewrite filter_cons_False; [done|].
    by rewrite (f_week _ _ Hp).
Qed.
End per_week.

(** ** Weekly Trend Aggregator *)

Lemma Qmax_cases x y :
  (Qmax x y = x ∧ (y <= x)%Q) ∨ (Qmax x y = y ∧ (x <= y)%Q).
Proof.
  unfold Qmax, GenericMinMax.gmax.
  destruct (x ?= y)%Q eqn:Hc.
  - left. split; [done|]. apply Qeq_alt in Hc. rewrite Hc. apply Qle_refl.
  - right. split; [done|]. apply Qlt_alt in Hc. by apply Qlt_le_weak.
  - left. split; [done|]. apply Qgt_alt in Hc. by apply Qlt_le_weak.
Qed.

Lemma Qmin_cases x y :
  (Qmin x y = x ∧ (x <= y)%Q) ∨ (Qmin x y = y ∧ (y <= x)%Q).
Proof.
  unfold Qmin, GenericMinMax.gmin.
  destruct (x ?= y)%Q eqn:Hc.
  - left. split; [done|]. apply Qeq_alt in Hc. rewrite Hc. apply Qle_refl.
  - left. split; [done|]. apply Qlt_alt in Hc. by apply Qlt_le_weak.
  - right. split; [done|]. apply Qgt_alt in Hc. by apply Qlt_le_weak.
Qed.

Lemma foldl_Qmax_is_max s rest : is_max (foldl Qmax s rest) (s :: rest).
Proof.
  revert s. induction rest as [|x rest IH]; intros s; simpl.
  { split; [left|]. intros y ->%list_elem_of_singleton. apply Qle_refl. }
  destruct (IH (Qmax s x)) as [Hin Hle]. split.
  - apply elem_of_cons in Hin as [Hh|Hin]; [|by do 2 right].
    rewrite Hh. destruct (Qmax_cases s x) as [[-> _]|[-> _]];
      [left | right; left].
  - intros y Hy.
    assert (Qmax s x <= foldl Qmax (Qmax s x) rest)%Q as Hm
      by (apply Hle; left).
    apply elem_of_cons in Hy as [->|[->|Hy]%elem_of_cons].
    + eapply Qle_trans; [|exact Hm]. apply Q.le_max_l.
    + eapply Qle_trans; [|exact Hm]. apply Q.le_max_r.
    + apply Hle. by right.
Qed.

Lemma foldl_Qmin_is_min s rest : is_min (foldl Qmin s rest) (s :: rest).
Proof.
  revert s. induction rest as [|x rest IH]; intros s; simpl.
  { split; [left|]. intros y ->%list_elem_of_singleton. apply Qle_refl. }
  destruct (IH (Qmin s x)) as [Hin Hle]. split.
  - apply elem_of_cons in Hin as [Hh|Hin]; [|by do 2 right].
    rewrite Hh. destruct (Qmin_cases s x) as [[-> _]|[-> _]];
      [left | right; left].
  - intros y Hy.
    assert (foldl Qmin (Qmin s x) rest <= Qmin s x)%Q as Hm
      by (apply Hle; left).
    apply elem_of_cons in Hy as [->|[->|Hy]%elem_of_cons].
    + eapply Qle_trans; [exact Hm|]. apply Q.le_min_l.
    + eapply Qle_trans; [exact Hm|]. apply Q.le_min_r.
    + apply Hle. by right.
Qed.

Lemma trend_scores_positive data : trend_scores data = positive_scores data.
Proof.
  unfold trend_scores. induction data as [|m data IH]; [done|].
  csimpl. rewrite filter_cons, IH.
  by destruct (Row.points m) as [p|].
Qed.

Lemma week_scores_positive_scores fetch w :
  week_scores fetch w = from_option positive_scores [] (fetch w).
Proof.
  unfold week_scores. destruct (fetch w); simpl; [|done].
  apply trend_scores_positive.
Qed.

Lemma Qsum_snoc l x : (Qsum (l ++ [x]) == Qsum l + x)%Q.
Proof.
  unfold Qsum. induction l as [|y l IH]; simpl; [ring|].
  rewrite IH. ring.
Qed.

(** Where no running sum rounds, the accumulated sum is the exact one. *)
Lemma foldl_num_add_exact l :
  (∀ k, (k ≤ length l)%nat →
        (binary64 (Qsum (take k l)) == Qsum (take k l))%Q) →
  (foldl num_add 0%Q l == Qsum l)%Q.
Proof.
  induction l as [|x l IH] using rev_ind; intros Hexact; [reflexivity|].
  rewrite foldl_app. simpl. unfold num_add at 1.
  rewrite IH.
  - rewrite <- Qsum_snoc.
    specialize (Hexact (length (l ++ [x])) ltac:(done)).
    by rewrite firstn_all in Hexact.
  - intros k Hk. specialize (Hexact k).
    rewrite take_app_le in Hexact by done.
    apply Hexact. rewrite length_app. lia.
Qed.

Lemma mean_exact l :
  sums_exact l →
  (mean l == Qsum l / inject_Z (Z.of_nat (length l)))%Q.
Proof.
  intros [Hsums Hquot]. unfold mean, num_div.
  by rewrite foldl_num_add_exact.
Qed.

Lemma foldl_num_add_nonneg acc l :
  (0 <= acc)%Q → Forall (λ x, 0 <= x)%Q l → (0 <= foldl num_add acc l)%Q.
Proof.
  intros Hacc Hl. revert acc Hacc.
  induction Hl as [|x l Hx _ IH]; intros acc Hacc; [done|].
  simpl. apply IH. apply binary64_nonneg. lra.
Qed.

Lemma history_week_point fetch weeks w :
  history_week fetch weeks w = weeks ++ option_list (trend_point fetch w).
Proof.
  unfold history_week, trend_point, week_scores.
  destruct (fetch w) as [data|]; simpl; [|by rewrite app_nil_r].
  case_decide as Hlen.
  - destruct (trend_scores data); simpl; [by rewrite app_nil_r | done].
  - destruct data; simpl in *; [by rewrite app_nil_r | lia].
Qed.

Lemma foldl_history_week fetch weeks ws :
  foldl (history_week fetch) weeks ws = weeks ++ omap (trend_point fetch) ws.
Proof.
  revert weeks. induction ws as [|w ws IH]; intros weeks; simpl.
  { by rewrite app_nil_r. }
  rewrite IH, history_week_point, <- app_assoc. f_equal.
  by destruct (trend_point fetch w).
Qed.

Lemma trend_point_week fetch w p :
  trend_point fetch w = Some p → Trend.week p = w.
Proof.
  unfold trend_point. destruct (week_scores fetch w); [done|].
  by intros [= <-].
Qed.

Lemma useWeeklyHistory_points currentWeek fetch :
  useWeeklyHistory currentWeek fetch
  = omap (trend_point fetch) (for_range 1 (Z.min currentWeek 17)).
Proof.
  unfold useWeeklyHistory.
  destruct ((currentWeek =? 0) || (currentWeek <? 1)) eqn:Hguard.
  - unfold for_range. rewrite seqZ_nil; [done|].
    apply orb_true_iff in Hguard as [?%Z.eqb_eq|?%Z.ltb_lt]; lia.
  - by rewrite foldl_history_week.
Qed.

(** C5. A week's qualifying scores are the positive scores of its rows,
    in row order, one for every row with a positive score (a zero, a
    negative and a missing score count for nothing).  Every week from 1 to
    min(currentWeek, 17) that has at least one qualifying score gets exactly
    one point, whose high is their maximum and whose low is their minimum.
    Its average is their sum divided by their number as double arithmetic
    computes it: the scores are added from the left, starting from 0, every
    sum rounded to the nearest double, and so is the quotient.  It is the
    arithmetic mean whenever no step rounds, as for the scores 10, 20, 30,
    which give high 30, low 10, average 20 (a 0 and a missing score being
    filtered out).  A week without qualifying score gets no point, and the
    points come in ascending week order. *)
Theorem weekly_trend_points
    (currentWeek : Z) (fetch : Z → option (list Row.t)) :
  let history := useWeeklyHistory currentWeek fetch in
  let scores := λ w, from_option positive_scores [] (fetch w) in
  (∀ w, 1 ≤ w ≤ Z.min currentWeek 17 → scores w ≠ [] →
     ∃ p, filter (λ p, Trend.week p = w) history = [p]
          ∧ is_max (Trend.high p) (scores w)
          ∧ is_min (Trend.low p) (scores w)
          ∧ Trend.avg p
            = num_div (foldl num_add 0%Q (scores w))
                (inject_Z (Z.of_nat (length (scores w))))
          ∧ (sums_exact (scores w) →
             (Trend.avg p
              == Qsum (scores w)
                 / inject_Z (Z.of_nat (length (scores w))))%Q))
  ∧ (∀ w, scores w = [] → w ∉ Trend.week <$> history)
  ∧ (∀ p, p ∈ history → 1 ≤ Trend.week p ≤ Z.min currentWeek 17)
  ∧ StronglySorted (λ p q, Trend.week p < Trend.week q) history
  ∧ (positive_scores sample_week = [10; 20; 30]%Q
     ∧ ∃ p, useWeeklyHistory 1 (λ _, Some sample_week) = [p]
            ∧ Trend.week p = 1
            ∧ (Trend.high p == 30)%Q ∧ (Trend.low p == 10)%Q
            ∧ (Trend.avg p == 20)%Q).
Proof.
  intros history scores. subst history.
  rewrite useWeeklyHistory_points.
  pose proof (trend_point_week fetch) as Hweek.
  assert (∀ w, week_scores fetch w = scores w) as Hscores
    by apply week_scores_positive_scores.
  split_and!.
  - intros w Hw Hne.
    rewrite (omap_week_filter _ _ Hweek) by apply NoDup_seqZ.
    rewrite decide_True by by apply elem_of_for_range.
    unfold trend_point. rewrite Hscores.
    destruct (scores w) as [|s rest] eqn:Hs; [done|].
    eexists. split; [done|]. simpl. split_and!.
    + apply foldl_Qmax_is_max.
    + apply foldl_Qmin_is_min.
    + done.
    + apply mean_exact.
  - intros w Hnone (p & -> & Hin)%list_elem_of_fmap.
    apply (omap_week_elem _ _ Hweek) in Hin as [_ Hin].
    unfold trend_point in Hin. by rewrite Hscores, Hnone in Hin.
  - intros p [Hp _]%(omap_week_elem _ _ Hweek).
    by apply elem_of_for_range in Hp.
  - apply (omap_week_sorted _ _ Hweek), seqZ_sorted.
  - done.
  - eexists. split; [by vm_compute|]. by vm_compute.
Qed.

(** C5, the claim as it stands.  Three rows with the score 50.05 give one
    point whose average is not the arithmetic mean of the three scores: the
    third sum rounds, and the average comes out below the low. *)
Lemma trend_average_counterexample :
  ∃ p, useWeeklyHistory 1 (λ _, Some three_equal_scores) = [p]
       ∧ positive_scores three_equal_scores
         = [binary64 50.05; binary64 50.05; binary64 50.05]
       ∧ (Trend.low p == binary64 50.05)%Q
       ∧ (Trend.high p == binary64 50.05)%Q
       ∧ ¬ (Trend.avg p
            == Qsum (positive_scores three_equal_scores) / 3)%Q
       ∧ (Trend.avg p < Trend.low p)%Q.
Proof.
  eexists. split; [by vm_compute|].
  split_and!; [by vm_compute..| |by vm_compute].
  vm_compute. discriminate.
Qed.

(** ** Award Calculator *)

Lemma reduce_pick_top (l : list Score.t) (b : Score.t) :
  Array_reduceM pick_top (Some b) l = Return (Some (foldl keep_top b l)).
Proof.
  revert b. induction l as [|t l IH]; intros b; simpl; [done|].
  unfold keep_top at 2. case_decide; apply IH.
Qed.

Lemma reduce_pick_low (l : list Score.t) (b : Score.t) :
  Array_reduceM pick_low (Some b) l = Return (Some (foldl keep_low b l)).
Proof.
  revert b. induction l as [|t l IH]; intros b; simpl; [done|].
  unfold keep_low at 2. case_decide; apply IH.
Qed.

(** The running maximum is the first maximal element of what was read. *)
Lemma foldl_keep_top_first_max (seen rest : list Score.t) (b : Score.t) :
  first_max b seen → first_max (foldl keep_top b rest) (seen ++ rest).
Proof.
  revert seen b. induction rest as [|t rest IH]; intros seen b Hb; simpl.
  { by rewrite app_nil_r. }
  replace (seen ++ t :: rest) with ((seen ++ [t]) ++ rest)
    by by rewrite <- app_assoc.
  apply IH.
  destruct Hb as (l1 & l2 & -> & H1 & H2).
  unfold keep_top. case_decide as Hlt.
  - exists (l1 ++ b :: l2), []. split_and!; [done| |done].
    apply Forall_app. split; [|constructor; [done|]].
    + eapply Forall_impl; [exact H1|]. simpl. intros x Hx. lra.
    + eapply Forall_impl; [exact H2|]. simpl. intros x Hx. lra.
  - exists l1, (l2 ++ [t]). split_and!; [by rewrite <- app_assoc|done|].
    apply Forall_app. split; [done|]. constructor; [|done]. lra.
Qed.

Lemma foldl_keep_low_first_min (seen rest : list Score.t) (b : Score.t) :
  first_min b seen → first_min (foldl keep_low b rest) (seen ++ rest).
Proof.
  revert seen b. induction rest as [|t rest IH]; intros seen b Hb; simpl.
  { by rewrite app_nil_r. }
  replace (seen ++ t :: rest) with ((seen ++ [t]) ++ rest)
    by by rewrite <- app_assoc.
  apply IH.
  destruct Hb as (l1 & l2 & -> & H1 & H2).
  unfold keep_low. case_decide as Hlt.
  - exists (l1 ++ b :: l2), []. split_and!; [done| |done].
    apply Forall_app. split; [|constructor; [done|]].
    + eapply Forall_impl; [exact H1|]. simpl. intros x Hx. lra.
    + eapply Forall_impl; [exact H2|]. simpl. intros x Hx. lra.
  - exists l1, (l2 ++ [t]). split_and!; [by rewrite <- app_assoc|done|].
    apply Forall_app. split; [done|]. constructor; [|done]. lra.
Qed.

Lemma keep_top_first_max (s : Score.t) (rest : list Score.t) :
  first_max (foldl keep_top s (s :: rest)) (s :: rest).
Proof.
  simpl. unfold keep_top at 2. rewrite decide_False by apply Qlt_irrefl.
  apply (foldl_keep_top_first_max [s] rest). by exists [], [].
Qed.

Lemma keep_low_first_min (s : Score.t) (rest : list Score.t) :
  first_min (foldl keep_low s (s :: rest)) (s :: rest).
Proof.
  simpl. unfold keep_low at 2. rewrite decide_False by apply Qlt_irrefl.
  apply (foldl_keep_low_first_min [s] rest). by exists [], [].
Qed.

Lemma award_week_award userMap rosters fetch result w :
  award_week userMap rosters fetch result w
  = Return (result ++ option_list (week_award userMap rosters fetch w)).
Proof.
  unfold award_week, week_award, week_award_scores.
  destruct (fetch w) as [matchups|]; simpl; [|by rewrite app_nil_r].
  case_decide as Hm.
  { destruct matchups; [|done]. simpl. by rewrite app_nil_r. }
  destruct (award_scores _ matchups) as [|s rest] eqn:Hs.
  { simpl. by rewrite app_nil_r. }
  rewrite decide_False by done.
  change ((s :: rest) !! 0%nat) with (Some s).
  by rewrite reduce_pick_top, reduce_pick_low.
Qed.

Lemma reduce_award_week userMap rosters fetch result ws :
  Array_reduceM (award_week userMap rosters fetch) result ws
  = Return (result ++ omap (week_award userMap rosters fetch) ws).
Proof.
  revert result. induction ws as [|w ws IH]; intros result; simpl.
  { by rewrite app_nil_r. }
  rewrite award_week_award. simpl. rewrite IH, <- app_assoc.
  by destruct (week_award userMap rosters fetch w).
Qed.

Lemma Awards_awards userMap rosters currentWeek fetch :
  Awards userMap rosters currentWeek fetch
  = Return (reverse (omap (week_award userMap rosters fetch)
                       (awards_window currentWeek))).
Proof.
  unfold Awards. destruct (Z.eqb_spec currentWeek 0) as [->|_]; [done|].
  by rewrite reduce_award_week.
Qed.

Lemma week_award_week userMap rosters fetch w a :
  week_award userMap rosters fetch w = Some a → Award.week a = w.
Proof.
  unfold week_award. destruct (week_award_scores _ _ _ _); [done|].
  by intros [= <-].
Qed.

(** *** The feed of [App.jsx] *)

Lemma awards_week_feed feed result w :
  AppJsx.awards_week feed result w
  = result ++ option_list (feed_awards feed w).
Proof.
  unfold feed_awards, AppJsx.awards_week. simpl.
  destruct (feed w) as [weekAwards|]; [|by rewrite app_nil_r].
  case_decide; [done | by rewrite app_nil_r].
Qed.

Lemma foldl_awards_week feed result ws :
  foldl (AppJsx.awards_week feed) result ws
  = result ++ omap (feed_awards feed) ws.
Proof.
  revert result. induction ws as [|w ws IH]; intros result; simpl.
  { by rewrite app_nil_r. }
  rewrite IH, awards_week_feed, <- app_assoc. f_equal.
  by destruct (feed_awards feed w).
Qed.

Lemma useAwards_awards currentWeek feed :
  AppJsx.useAwards currentWeek feed
  = reverse (omap (feed_awards feed) (awards_window currentWeek)).
Proof.
  unfold AppJsx.useAwards.
  destruct (Z.eqb_spec currentWeek 0) as [->|_]; [done|].
  by rewrite foldl_awards_week.
Qed.

Lemma feed_awards_week feed w a :
  feed_awards feed w = Some a → AppJsx.week a = w.
Proof.
  unfold feed_awards, AppJsx.awards_week. simpl.
  destruct (feed w) as [weekAwards|]; [|done].
  case_decide; [|done]. by intros [= <-].
Qed.

Lemma feed_awards_Some feed w :
  is_Some (feed_awards feed w)
  ↔ ∃ weekAwards, feed w = Some weekAwards ∧ weekAwards ≠ [].
Proof.
  unfold feed_awards, AppJsx.awards_week. simpl.
  destruct (feed w) as [weekAwards|].
  - case_decide as Hlen; simpl.
    + split; [|by eexists]. intros _. exists weekAwards.
      split; [done|]. destruct weekAwards; [simpl in Hlen; lia | done].
    + split; [by intros [? ?]|]. intros (l & [= <-] & Hl).
      destruct weekAwards; [done|]. simpl in Hlen. lia.
  - split; [by intros [? ?]|]. by intros (? & ? & _).
Qed.

Lemma awards_window_three currentWeek :
  3 ≤ currentWeek →
  awards_window currentWeek
  = [currentWeek - 2; currentWeek - 1; currentWeek].
Proof.
  intros H. unfold awards_window, for_range.
  rewrite Z.max_r by lia.
  replace (currentWeek + 1 - (currentWeek - 2)) with 3 by lia.
  rewrite !seqZ_cons, seqZ_nil by lia. repeat f_equal; lia.
Qed.

Lemma award_scores_positive rosterToUser rows :
  award_scores rosterToUser rows = positive_team_scores rosterToUser rows.
Proof.
  unfold award_scores. induction rows as [|m rows IH]; [done|].
  csimpl. rewrite filter_cons, IH. simpl.
  by destruct (Row.points m) as [p|].
Qed.

Lemma week_award_scores_positive userMap rosters fetch w :
  week_award_scores userMap rosters fetch w
  = from_option (positive_team_scores (build_rosterToUser userMap rosters))
      [] (fetch w).
Proof.
  unfold week_award_scores. destruct (fetch w); simpl; [|done].
  apply award_scores_positive.
Qed.

Lemma Array_find_first_titled pat weekAwards :
  first_titled pat weekAwards (Array_find (AppJsx.titled pat) weekAwards).
Proof.
  unfold Array_find, AppJsx.titled.
  induction weekAwards as [|a l IH]; simpl; [constructor|].
  destruct (String_includes pat (Backend.title a)) eqn:Ha; simpl.
  { by exists [], l. }
  destruct (head (List.filter _ l)) as [b|]; simpl in *.
  - destruct IH as (l1 & l2 & -> & Hb & Hl1).
    exists (a :: l1), l2. split_and!; [done|done|by constructor].
  - by constructor.
Qed.

Lemma feed_awards_inv feed w e :
  feed_awards feed w = Some e →
  ∃ weekAwards,
    feed w = Some weekAwards ∧ weekAwards ≠ []
    ∧ e = {| AppJsx.week := w;
             AppJsx.topDawg :=
               AppJsx.superlative
                 <$> Array_find (AppJsx.titled "Top Dawg") weekAwards;
             AppJsx.superWeenie :=
               AppJsx.superlative
                 <$> Array_find (AppJsx.titled "Super Weenie") weekAwards;
             AppJsx.horsesAss :=
               (λ a, {| AppJsx.title :=
                          String_remove "🐴 Horses Ass: "
                            (String_remove "🐴 Horse's Ass: "
                               (Backend.title a));
                        AppJsx.ha_team := Backend.winner a;
                        AppJsx.reason := Backend.detail a |})
                 <$> Array_find (AppJsx.titled "Horse") weekAwards |}.
Proof.
  unfold feed_awards, AppJsx.awards_week. simpl.
  destruct (feed w) as [weekAwards|]; [|done].
  case_decide as Hlen; [|done]. intros [= <-].
  exists weekAwards. split_and!; [done| |done].
  destruct weekAwards; [simpl in Hlen; lia|done].
Qed.

(** C3. The award calculator walks through the weeks
    max(1, currentWeek - 2), ..., currentWeek and no other: at most three
    weeks, and exactly the three weeks currentWeek - 2, currentWeek - 1,
    currentWeek from week 3 on.  A week's qualifying scores are the positive
    scores of its fetched rows, in row order, each with the name the
    rosterId-to-name mapping has for the row's roster, which is the name
    resolved for the (last) roster with that identifier.  The calculator of
    the direct-Sleeper source returns one entry for every week of the window
    with a qualifying score; in each entry the top scorer is the first
    qualifying score with the largest points and the low scorer the first
    with the smallest points, the bust restating the low scorer.  The
    calculator of [App.jsx] computes no extreme: it returns one entry for
    every week of the window with a non-empty feed, whose top scorer, low
    scorer and bust are the first awards of that week's feed whose titles
    contain "Top Dawg", "Super Weenie" and "Horse", each absent when no
    title contains the text.  Both results are the oldest-to-newest list
    reversed, so their weeks strictly decrease. *)
Theorem awards_window_extremes_order
    (userMap : gmap string UserEntry) (rosters : list Sleeper.Roster)
    (currentWeek : Z) (fetch : Z → option (list Row.t))
    (feed : Z → option (list Backend.Award)) :
  let rosterToUser := build_rosterToUser userMap rosters in
  let scores :=
    λ w, from_option (positive_team_scores rosterToUser) [] (fetch w) in
  (∀ w, w ∈ awards_window currentWeek
        ↔ Z.max 1 (currentWeek - 2) ≤ w ≤ currentWeek)
  ∧ (length (awards_window currentWeek) ≤ 3)%nat
  ∧ (3 ≤ currentWeek →
     awards_window currentWeek
     = [currentWeek - 2; currentWeek - 1; currentWeek])
  ∧ (∀ rid, rosterToUser !! rid
            = resolve_name userMap
                <$> last (filter (λ r, Sleeper.roster_id r = rid) rosters))
  ∧ (∃ awards,
      Awards userMap rosters currentWeek fetch = Return awards
      ∧ awards = reverse (omap (week_award userMap rosters fetch)
                            (awards_window currentWeek))
      ∧ (∀ w, w ∈ Award.week <$> awards
              ↔ w ∈ awards_window currentWeek ∧ scores w ≠ [])
      ∧ (∀ a, a ∈ awards →
           ∃ top low,
             Award.topDawg a = Some top
             ∧ Award.superWeenie a = Some low
             ∧ first_max top (scores (Award.week a))
             ∧ first_min low (scores (Award.week a))
             ∧ Award.horsesAss a
               = {| Award.name := Score.team low;
                    Award.detail := Score.points low |})
      ∧ StronglySorted (λ a b, Award.week b < Award.week a) awards)
  ∧ let awards' := AppJsx.useAwards currentWeek feed in
    (∀ w, w ∈ AppJsx.week <$> awards'
          ↔ w ∈ awards_window currentWeek
            ∧ ∃ weekAwards, feed w = Some weekAwards ∧ weekAwards ≠ [])
    ∧ (∀ e, e ∈ awards' →
         ∃ weekAwards top low horse,
           feed (AppJsx.week e) = Some weekAwards
           ∧ first_titled "Top Dawg" weekAwards top
           ∧ first_titled "Super Weenie" weekAwards low
           ∧ first_titled "Horse" weekAwards horse
           ∧ AppJsx.topDawg e
             = (λ a, {| AppJsx.team := Backend.winner a;
                        AppJsx.points := Backend.detail a |}) <$> top
           ∧ AppJsx.superWeenie e
             = (λ a, {| AppJsx.team := Backend.winner a;
                        AppJsx.points := Backend.detail a |}) <$> low
           ∧ AppJsx.horsesAss e
             = (λ a, {| AppJsx.title :=
                          String_remove "🐴 Horses Ass: "
                            (String_remove "🐴 Horse's Ass: "
                               (Backend.title a));
                        AppJsx.ha_team := Backend.winner a;
                        AppJsx.reason := Backend.detail a |}) <$> horse)
    ∧ StronglySorted (λ a b, AppJsx.week b < AppJsx.week a) awards'.
Proof.
  intros rosterToUser scores.
  pose proof (week_award_week userMap rosters fetch) as Hweek.
  pose proof (feed_awards_week feed) as Hfeed.
  assert (∀ w, week_award_scores userMap rosters fetch w = scores w)
    as Hscores by apply week_award_scores_positive.
  split_and!.
  - intros w. apply elem_of_for_range.
  - unfold awards_window, for_range. rewrite length_seqZ. lia.
  - apply awards_window_three.
  - apply forEach_lookup.
  - eexists. split; [apply Awards_awards|]. split_and!.
    + done.
    + intros w. rewrite fmap_reverse, elem_of_reverse, list_elem_of_fmap.
      split.
      * intros (a & -> & [Hw Ha]%(omap_week_elem _ _ Hweek)).
        split; [done|]. unfold week_award in Ha. rewrite Hscores in Ha.
        by destruct (scores (Award.week a)).
      * intros [Hw Hs].
        destruct (week_award userMap rosters fetch w) as [a|] eqn:Ha.
        -- exists a. pose proof (Hweek _ _ Ha) as Hwa. split; [done|].
           apply (omap_week_elem _ _ Hweek). by rewrite Hwa.
        -- unfold week_award in Ha. rewrite Hscores in Ha.
           by destruct (scores w).
    + intros a [_ Ha]%elem_of_reverse%(omap_week_elem _ _ Hweek).
      unfold week_award in Ha. rewrite Hscores in Ha.
      destruct (scores (Award.week a)) as [|s rest]; [done|].
      injection Ha as <-. simpl.
      eexists _, _. split_and!; [done|done| | |done].
      * apply keep_top_first_max.
      * apply keep_low_first_min.
    + apply (StronglySorted_reverse (λ a b, Award.week a < Award.week b)).
      apply (omap_week_sorted _ _ Hweek), seqZ_sorted.
  - intros awards'. subst awards'. rewrite useAwards_awards. split_and!.
    + intros w. rewrite fmap_reverse, elem_of_reverse, list_elem_of_fmap.
      rewrite <- (feed_awards_Some feed w). split.
      * intros (a & -> & [Hw Ha]%(omap_week_elem _ _ Hfeed)).
        split; [done|]. by rewrite Ha.
      * intros [Hw [a Ha]]. exists a.
        pose proof (Hfeed _ _ Ha) as Hwa. split; [done|].
        apply (omap_week_elem _ _ Hfeed). by rewrite Hwa.
    + intros e [_ He]%elem_of_reverse%(omap_week_elem _ _ Hfeed).
      apply feed_awards_inv in He as (weekAwards & Hw & _ & ->).
      exists weekAwards. eexists _, _, _. simpl.
      split_and!; [done|apply Array_find_first_titled..| | |]; done.
    + apply (StronglySorted_reverse
               (λ a b, AppJsx.week a < AppJsx.week b)).
      apply (omap_week_sorted _ _ Hfeed), seqZ_sorted.
Qed.

(** C3, the claim as it stands, on [App.jsx].  A week whose feed holds one
    award with none of the three titles is processed and gets an entry
    without top scorer and without low scorer; and a feed that names the
    team with 80.2 points under the top title and the team with 150.5
    points under the low title is repeated as it is: no maximum and no
    minimum is selected. *)
Lemma useAwards_feed_counterexample :
  AppJsx.useAwards 6 untitled_feed
  = [{| AppJsx.week := 6; AppJsx.topDawg := None;
        AppJsx.superWeenie := None; AppJsx.horsesAss := None |}]
  ∧ AppJsx.useAwards 6 upside_down_feed
    = [{| AppJsx.week := 6;
          AppJsx.topDawg :=
            Some {| AppJsx.team := Some "B";
                    AppJsx.points := Some "80.2 pts" |};
          AppJsx.superWeenie :=
            Some {| AppJsx.team := Some "A";
                    AppJsx.points := Some "150.5 pts" |};
          AppJsx.horsesAss := None |}].
Proof. split; by vm_compute. Qed.

(** ** [useLeagueData] *)

(** C8. When a required fetch of the joined group delivers null (the state,
    the users or the rosters; in [App.jsx] the state or the standings of the
    backend path), the refresh ends in the error state: the message is set,
    loading is off, and the standings, the mappings and every other field
    keep the values of the previous snapshot, so nothing derived from the
    partial results is published.  Path B of [App.jsx] throws in the same
    way. *)
Theorem refresh_failure_keeps_snapshot
    (nflState' : option Sleeper.NflState) (league' : option Sleeper.League)
    (users' : option (list Sleeper.User))
    (rosters' : option (list Sleeper.Roster)) (d : LeagueData)
    (state' : option Sleeper.NflState)
    (standingsData' : option (list Backend.Standing))
    (d' : AppJsx.LeagueData) :
  (fetch_failed nflState' users' rosters' →
   refresh nflState' league' users' rosters' d
   = {| loading := false; error := Some "Failed to fetch league data";
        nflState := nflState d; league := league d; users := users d;
        rosters := rosters d; standings := standings d;
        currentWeek := currentWeek d; userMap := userMap d |})
  ∧ (backend_fetch_failed state' standingsData' →
     AppJsx.refresh state' standingsData' nflState' users' rosters' d'
     = {| AppJsx.loading := false;
          AppJsx.error := Some "Failed to connect to Python Brain";
          AppJsx.nflState := AppJsx.nflState d';
          AppJsx.standings := AppJsx.standings d';
          AppJsx.currentWeek := AppJsx.currentWeek d';
          AppJsx.userMap := AppJsx.userMap d';
          AppJsx.rosters := AppJsx.rosters d' |})
  ∧ (fetch_failed nflState' users' rosters' →
     AppJsx.refresh_sleeper nflState' users' rosters'
     = Throw "Failed to fetch league data").
Proof.
  split_and!.
  - intros [-> | [-> | ->]]; unfold refresh, refresh_try; [done|..].
    + by destruct nflState'.
    + by destruct nflState', users'.
  - intros [-> | ->]; unfold AppJsx.refresh; simpl; [done|].
    by destruct state'.
  - intros [-> | [-> | ->]]; simpl; [done|..].
    + by destruct nflState'.
    + by destruct nflState', users'.
Qed.

Lemma refresh_failure_keeps_snapshot_witness :
  fetch_failed None (Some [sample_user]) None
  ∧ standings (refresh None None (Some [sample_user]) None sample_data)
    = standings sample_data
  ∧ backend_fetch_failed None (Some [])
  ∧ AppJsx.standings
      (AppJsx.refresh None (Some []) None (Some [sample_user]) None
         sample_app_data)
    = AppJsx.standings sample_app_data.
Proof.
  assert (fetch_failed None (Some [sample_user]) None) as H1 by by left.
  assert (backend_fetch_failed None (Some [])) as H2 by by left.
  destruct (refresh_failure_keeps_snapshot None None (Some [sample_user])
              None sample_data None (Some []) sample_app_data)
    as (Ha & Hb & _).
  split_and!; [done| |done|].
  - by rewrite (Ha H1).
  - pose proof (Hb H2) as Hm. simpl in Hm. by rewrite Hm.
Defined.

(** A refresh whose required fetches all succeed publishes the whole new
    snapshot. *)
Lemma refresh_success n l u r d :
  refresh (Some n) l (Some u) (Some r) d
  = {| loading := false; error := None; nflState := Some n; league := l;
       users := u; rosters := r;
       standings := standings_of (build_userMap u) r;
       currentWeek := int_or (Sleeper.week n) 1;
       userMap := build_userMap u |}.
Proof. done. Qed.

(** ** Totality *)

(** C9. The derivation functions return a value on every input.  The
    ranker returns a team per roster, reading an absent settings object or
    an absent field as 0, an absent streak as the empty text and an
    unresolved owner as "Team {rosterId}".  The pairer returns its pairs for
    every row list, and the empty list when the fetch failed; it reads
    missing points as 0 and an unresolved roster as "Team {rosterId}".  The
    trend aggregator drops a row without points.  The award calculator
    returns its entries for every input; it never reads a property of a
    missing value. *)
Theorem derivations_never_raise
    (userMap : gmap string UserEntry) (rosters : list Sleeper.Roster)
    (data : option (list Row.t)) (currentWeek : Z)
    (fetch : Z → option (list Row.t)) :
  length (standings_of userMap rosters) = length rosters
  ∧ (∀ r field,
       Sleeper.settings r = None
       ∨ (∃ s, Sleeper.settings r = Some s ∧ field s = None) →
       setting r field = 0)
  ∧ (∀ r, Sleeper.settings r = None →
          let t := team_of_roster userMap r in
          wins t = 0 ∧ losses t = 0 ∧ (pf t == 0)%Q ∧ (pa t == 0)%Q)
  ∧ (∀ r, Sleeper.metadata r = None
          ∨ (∃ md, Sleeper.metadata r = Some md ∧ Sleeper.streak md = None) →
          streak (team_of_roster userMap r) = "")
  ∧ (∀ r, userMap !! Sleeper.owner_id r = None →
          t_name (team_of_roster userMap r)
          = "Team " +:+ pretty (Sleeper.roster_id r))
  ∧ (∃ out, useMatchups userMap rosters data = Return out)
  ∧ useMatchups userMap rosters None = Return []
  ∧ (∀ rosterToUser m, Row.points m = None →
       (Entry.points (entry_of rosterToUser m) == 0)%Q)
  ∧ (∀ rosterToUser m, rosterToUser !! Row.roster_id m = None →
       Entry.teamName (entry_of rosterToUser m)
       = "Team " +:+ pretty (Row.roster_id m))
  ∧ (∀ m, Row.points m = None → trend_scores [m] = [])
  ∧ (∀ w, fetch w = None →
          w ∉ Trend.week <$> useWeeklyHistory currentWeek fetch)
  ∧ (∃ awards, Awards userMap rosters currentWeek fetch = Return awards).
Proof.
  split_and!.
  - apply standings_length_of.
  - intros r field [Hs|(s & Hs & Hf)]; unfold setting; rewrite Hs; simpl;
      [done | by rewrite Hf].
  - intros r Hs t. subst t. simpl. unfold setting. by rewrite Hs.
  - intros r [Hm|(md & Hm & Hs)]; simpl; rewrite Hm; simpl;
      [done | by rewrite Hs].
  - intros r Hr. simpl. unfold resolve_name. by rewrite Hr.
  - destruct data as [data|]; simpl; [|by eexists].
    destruct (pair_rows_Return (build_rosterToUser userMap rosters) data)
      as (out & Hout & _).
    by exists out.
  - done.
  - intros rosterToUser m Hm. simpl. by rewrite Hm.
  - intros rosterToUser m Hm. simpl. unfold team_name. by rewrite Hm.
  - intros m Hm. unfold trend_scores. simpl. by rewrite Hm.
  - intros w Hw (p & -> & Hp)%list_elem_of_fmap.
    rewrite useWeeklyHistory_points in Hp.
    apply (omap_week_elem _ _ (trend_point_week fetch)) in Hp as [_ Hp].
    unfold trend_point, week_scores in Hp. by rewrite Hw in Hp.
  - eexists. apply Awards_awards.
Qed.

(** ** Worked examples *)

(** Most wins first, then most points; the rosters 1 and 3 have the same
    record and keep their order; the owner of roster 4 is unknown. *)
Example standings_sample :
  (λ t, (t_name (row t), rank t))
    <$> standings_of (build_userMap sample_users) sample_rosters
  = [("B", 1); ("Team 4", 2); ("A", 3); ("C", 4)].
Proof. by vm_compute. Qed.

(** Groups come out in ascending order of their identifier; the identifier
    7 has three rows and the last row has none. *)
Example useMatchups_sample :
  useMatchups (build_userMap sample_users) sample_rosters
    (Some [mkrow 1 (Some 2) 101.5; mkrow 2 (Some 1) 98.25;
           mkrow 3 (Some 2) 77; mkrow 4 (Some 1) 120;
           mkrow 5 (Some 7) 1; mkrow 6 (Some 7) 2; mkrow 7 (Some 7) 3;
           mkrow 8 None 50])
  = Return [{| team1 := "B"; score1 := 98.25;
               team2 := "Team 4"; score2 := 120 |};
            {| team1 := "A"; score1 := 101.5;
               team2 := "C"; score2 := 77 |}].
Proof. by vm_compute. Qed.

(** Current week 7, no data for week 5: week 7 comes first, and on its tie
    the first team is both top and low scorer. *)
Example Awards_sample :
  Awards (build_userMap sample_users) sample_rosters 7 sample_awards_fetch
  = Return
      [{| Award.week := 7;
          Award.topDawg :=
            Some {| Score.team := Some "A"; Score.points := 88 |};
          Award.superWeenie :=
            Some {| Score.team := Some "A"; Score.points := 88 |};
          Award.horsesAss :=
            {| Award.name := Some "A"; Award.detail := 88 |} |};
       {| Award.week := 6;
          Award.topDawg :=
            Some {| Score.team := Some "A"; Score.points := 150.5 |};
          Award.superWeenie :=
            Some {| Score.team := Some "B"; Score.points := 80.2 |};
          Award.horsesAss :=
            {| Award.name := Some "B"; Award.detail := 80.2 |} |}].
Proof. by vm_compute. Qed.

(** * Further properties *)

(** ** Standings Ranker: re-ranking and input order *)

Lemma Array_sort_sorted_id {A} (cmp : A → A → Q) (l : list A) :
  StronglySorted (keeps cmp) l → Array_sort cmp l = l.
Proof.
  induction 1 as [|x l Hl IH Hx]; simpl; [done|].
  rewrite IH. by apply sort_insert_front.
Qed.

(** X1. Ranking is a round trip: ranking the rows of a ranked list again
    gives the same list, with the same ranks. *)
Theorem standings_rerank
    (userMap : gmap string UserEntry) (rosters : list Sleeper.Roster) :
  rank_teams (row <$> standings_of userMap rosters)
  = standings_of userMap rosters.
Proof.
  unfold standings_of. rewrite rank_teams_rows. unfold rank_teams.
  f_equal. apply Array_sort_sorted_id.
  apply Array_sort_sorted; [apply by_record_asym | apply keeps_by_record_trans].
Qed.

(** X2. When no two different teams share a record (wins and points-for),
    the standings do not depend on the order in which the rosters come. *)
Theorem standings_order_independent
    (userMap : gmap string UserEntry)
    (rosters1 rosters2 : list Sleeper.Roster) :
  rosters1 ≡ₚ rosters2 →
  (∀ a b, a ∈ team_of_roster userMap <$> rosters1 →
          b ∈ team_of_roster userMap <$> rosters1 →
          wins a = wins b → (pf a == pf b)%Q → a = b) →
  standings_of userMap rosters1 = standings_of userMap rosters2.
Proof.
  intros Hperm Hdistinct. unfold standings_of, rank_teams. f_equal.
  set (rows1 := team_of_roster userMap <$> rosters1) in *.
  set (rows2 := team_of_roster userMap <$> rosters2).
  assert (rows1 ≡ₚ rows2) as Hrows by (unfold rows1, rows2; by rewrite Hperm).
  apply (StronglySorted_unique_strong (keeps by_record)).
  - intros a b Ha Hb Hab Hba.
    rewrite Array_sort_perm in Ha. rewrite Array_sort_perm, <- Hrows in Hb.
    apply keeps_by_record in Hab, Hba.
    assert (wins a = wins b) as Hw by (destruct Hab as [?|[? _]],
      Hba as [?|[? _]]; lia).
    apply Hdistinct; [done..|].
    destruct Hab as [?|[_ ?]], Hba as [?|[_ ?]]; try lia.
    by apply Qle_antisym.
  - apply Array_sort_sorted;
      [apply by_record_asym | apply keeps_by_record_trans].
  - apply Array_sort_sorted;
      [apply by_record_asym | apply keeps_by_record_trans].
  - by rewrite !Array_sort_perm.
Qed.

Lemma standings_order_independent_witness :
  [mkroster 1 "871" 5 900 50; mkroster 2 "872" 7 850 0]
  ≡ₚ [mkroster 2 "872" 7 850 0; mkroster 1 "871" 5 900 50]
  ∧ standings_of ∅ [mkroster 1 "871" 5 900 50; mkroster 2 "872" 7 850 0]
    = standings_of ∅ [mkroster 2 "872" 7 850 0; mkroster 1 "871" 5 900 50].
Proof.
  assert ([mkroster 1 "871" 5 900 50; mkroster 2 "872" 7 850 0]
          ≡ₚ [mkroster 2 "872" 7 850 0; mkroster 1 "871" 5 900 50]) as Hp
    by apply Permutation_swap.
  split; [exact Hp|].
  apply (standings_order_independent ∅ _ _ Hp).
  intros a b Ha Hb Hw _. simpl in Ha, Hb.
  repeat (apply elem_of_cons in Ha as [->|Ha]);
    repeat (apply elem_of_cons in Hb as [->|Hb]);
    try (by apply elem_of_nil in Ha); try (by apply elem_of_nil in Hb);
    try done; by vm_compute in Hw.
Defined.

(** ** Resolver: the same name everywhere *)

Lemma last_filter_NoDup {A K} `{EqDecision K} (key : A → K) (l : list A) x :
  NoDup (key <$> l) → x ∈ l → last (filter (λ y, key y = key x) l) = Some x.
Proof.
  induction l as [|y l IH] using rev_ind; intros Hnd Hx.
  { by apply elem_of_nil in Hx. }
  rewrite fmap_app in Hnd. apply NoDup_app in Hnd as (Hl & Hdisj & _).
  rewrite filter_app, filter_cons, filter_nil.
  apply elem_of_app in Hx as [Hx | ->%list_elem_of_singleton].
  - rewrite decide_False, app_nil_r; [by apply IH|].
    intros Heq. apply (Hdisj (key x)).
    + by apply list_elem_of_fmap_2.
    + rewrite <- Heq. csimpl. left.
  - by rewrite decide_True, last_snoc.
Qed.

(** X3. With distinct roster identifiers, a score row of a roster is paired
    under the very name the roster carries in the standings; a row of a
    roster that is not in the league is paired as "Team {rosterId}". *)
Theorem matchup_name_is_standings_name
    (userMap : gmap string UserEntry) (rosters : list Sleeper.Roster)
    (m : Row.t) :
  NoDup (Sleeper.roster_id <$> rosters) →
  let rosterToUser := build_rosterToUser userMap rosters in
  (∀ r, r ∈ rosters → Row.roster_id m = Sleeper.roster_id r →
        team_name rosterToUser m = t_name (team_of_roster userMap r))
  ∧ (Row.roster_id m ∉ Sleeper.roster_id <$> rosters →
     team_name rosterToUser m = "Team " +:+ pretty (Row.roster_id m)).
Proof.
  intros Hnd rosterToUser.
  assert (∀ rid, rosterToUser !! rid
     = resolve_name userMap
         <$> last (filter (λ r, Sleeper.roster_id r = rid) rosters))
    as Hlookup by apply forEach_lookup.
  split.
  - intros r Hr Hm. unfold team_name. rewrite Hlookup, Hm.
    rewrite (last_filter_NoDup Sleeper.roster_id) by done. simpl.
    rewrite decide_False; [done|]. apply resolve_name_nonempty.
  - intros Hm. unfold team_name. rewrite Hlookup.
    destruct (last _) as [r|] eqn:Hlast; [|done].
    exfalso. apply Hm. apply last_Some_elem_of in Hlast.
    apply list_elem_of_filter in Hlast as [<- Hr].
    by apply list_elem_of_fmap_2.
Qed.

Lemma matchup_name_is_standings_name_witness :
  NoDup (Sleeper.roster_id <$> sample_rosters)
  ∧ team_name (build_rosterToUser (build_userMap sample_users) sample_rosters)
      (mkrow 2 (Some 1) 98.25)
    = "B".
Proof.
  assert (NoDup (Sleeper.roster_id <$> sample_rosters)) as H
    by (apply (bool_decide_unpack _); vm_compute; exact I).
  split; [exact H|].
  apply (proj1 (matchup_name_is_standings_name
                  (build_userMap sample_users) sample_rosters
                  (mkrow 2 (Some 1) 98.25) H)
           (mkroster 2 "872" 7 850 0)); [|done].
  right. left.
Defined.

(** ** Matchup Pairer: size, names and order of the output *)

Lemma pairs_twice_le (gs : list (list Entry.t)) :
  (2 * length (filter (λ g, length g = 2%nat) gs)
   ≤ sum_list (length <$> gs))%nat.
Proof.
  induction gs as [|g gs IH]; [done|].
  rewrite filter_cons. csimpl. case_decide; simpl; lia.
Qed.

(** X4. Whatever the rows, the pairer emits at most one matchup for every
    two rows. *)
Theorem pairing_at_most_half
    (userMap : gmap string UserEntry) (rosters : list Sleeper.Roster)
    (data : list Row.t) (out : list Matchup) :
  useMatchups userMap rosters (Some data) = Return out →
  (2 * length out ≤ length data)%nat.
Proof.
  unfold useMatchups. set (rosterToUser := build_rosterToUser userMap rosters).
  intros Hout.
  destruct (pair_rows_Return rosterToUser data) as (out' & Hout' & HF).
  rewrite Hout in Hout'. injection Hout' as <-.
  apply Forall2_length in HF. rewrite <- HF.
  etransitivity; [apply pairs_twice_le|].
  unfold Object_values.
  assert (sum_list (length <$> (Object_entries
            (group_rows rosterToUser data)).*2)
          = sum_list (length <$> (group_rows rosterToUser data).*2)) as ->.
  { by rewrite Object_entries_perm. }
  rewrite group_rows_size. apply length_filter.
Qed.

Lemma pairing_at_most_half_witness :
  useMatchups ∅ [] (Some three_way_rows) = Return []
  ∧ (2 * length (@nil Matchup) ≤ length three_way_rows)%nat.
Proof.
  assert (useMatchups ∅ [] (Some three_way_rows) = Return []) as H by done.
  split; [exact H|].
  exact (pairing_at_most_half ∅ [] three_way_rows [] H).
Defined.

(** X5. Every emitted matchup names both of its teams: no name is empty. *)
Theorem matchup_names_nonempty
    (userMap : gmap string UserEntry) (rosters : list Sleeper.Roster)
    (data : option (list Row.t)) (out : list Matchup) (p : Matchup) :
  useMatchups userMap rosters data = Return out → p ∈ out →
  team1 p ≠ "" ∧ team2 p ≠ "".
Proof.
  destruct data as [data|]; simpl.
  - intros Hout Hp.
    destruct (pair_rows_trace _ _ _ _ Hout Hp) as (k & a & b & _ & _ & ->).
    simpl. split; apply str_or_nonempty, Team_label_nonempty.
  - intros [= <-] Hp. by apply elem_of_nil in Hp.
Qed.

Lemma matchup_names_nonempty_witness :
  ∃ out p,
    useMatchups ∅ [] (Some one_game_rows) = Return out ∧ p ∈ out
    ∧ team1 p ≠ "" ∧ team2 p ≠ "".
Proof.
  eexists _, _.
  assert (useMatchups ∅ [] (Some one_game_rows)
          = Return [{| team1 := "Team 1"; score1 := 101.5;
                       team2 := "Team 2"; score2 := 98.25 |}]) as H by done.
  assert ({| team1 := "Team 1"; score1 := 101.5;
             team2 := "Team 2"; score2 := 98.25 |}
          ∈ [{| team1 := "Team 1"; score1 := 101.5;
                team2 := "Team 2"; score2 := 98.25 |}]) as Hp by left.
  split; [exact H|]. split; [exact Hp|].
  exact (matchup_names_nonempty ∅ [] (Some one_game_rows) _ _ H Hp).
Defined.

Lemma StronglySorted_filter {A} (R : relation A) (P : A → Prop)
    `{!∀ x, Decision (P x)} (l : list A) :
  StronglySorted R l → StronglySorted R (filter P l).
Proof.
  induction 1 as [|x l Hl IH Hx]; [constructor|].
  rewrite filter_cons. case_decide; [|done].
  constructor; [done|]. apply Forall_forall.
  intros y [_ Hy]%list_elem_of_filter. by eapply Forall_forall in Hx.
Qed.

Lemma filter_fmap_comp {A B} (f : A → B) (P : B → Prop)
    `{!∀ y, Decision (P y)} (l : list A) :
  filter P (f <$> l) = f <$> filter (λ x, P (f x)) l.
Proof.
  induction l as [|x l IH]; [done|].
  rewrite fmap_cons, !filter_cons, IH. by case_decide.
Qed.

Lemma by_key_strictly_sorted {V} (l : list (Z * V)) :
  StronglySorted (keeps by_key) l → NoDup l.*1 →
  StronglySorted (λ a b, a.1 < b.1) l.
Proof.
  induction 1 as [|kv l Hl IH Hkv]; intros Hnd; [constructor|].
  rewrite fmap_cons in Hnd. apply NoDup_cons in Hnd as [Hni Hnd].
  constructor; [by apply IH|].
  apply Forall_forall. intros kv' Hin.
  eapply Forall_forall in Hkv; [|done]. apply keeps_by_key in Hkv.
  assert (kv.1 ≠ kv'.1); [|lia].
  intros Heq'. apply Hni. rewrite Heq'. by apply list_elem_of_fmap_2.
Qed.

(** With array-index identifiers only, the groups are enumerated in
    strictly ascending order of their identifier. *)
Lemma Object_entries_ascending rosterToUser (data : list Row.t) :
  (∀ m k, m ∈ data → Row.matchup_id m = Some k → array_index k) →
  Object_entries (group_rows rosterToUser data)
  = Array_sort by_key (group_rows rosterToUser data)
  ∧ StronglySorted (λ a b, a.1 < b.1)
      (Object_entries (group_rows rosterToUser data)).
Proof.
  intros Hidx. set (grouped := group_rows rosterToUser data).
  assert (Forall (λ kv, array_index kv.1) grouped) as Hall.
  { apply Forall_forall. intros [k g] Hin. simpl.
    apply group_rows_elem in Hin as (_ & Hg & ->).
    destruct (group_of k data) as [|m l] eqn:Hm; [done|].
    assert (m ∈ group_of k data) as Hin by (rewrite Hm; left).
    apply list_elem_of_filter in Hin as [Hk Hin]. by eapply Hidx. }
  assert (Object_entries grouped = Array_sort by_key grouped) as Heq.
  { unfold Object_entries. rewrite (filter_all _ grouped Hall).
    assert (filter (λ kv : Z * list Entry.t, ¬ array_index kv.1) grouped = [])
      as ->; [|by rewrite app_nil_r].
    induction Hall as [|kv l Hkv _ IH]; [done|].
    by rewrite filter_cons_False by (by intros H; apply H). }
  split; [done|]. rewrite Heq.
  apply by_key_strictly_sorted.
  - apply Array_sort_sorted; [apply by_key_asym | apply keeps_by_key_trans].
  - rewrite Array_sort_perm. apply group_rows_NoDup.
Qed.

(** X6. When every pairing identifier is an array index (an integer from 0
    to 2^32 - 2), the matchups come out in strictly ascending order of their
    identifier, each with the identifier's two rows, wherever those rows
    stand in the input. *)
Theorem pairing_ascending_ids
    (userMap : gmap string UserEntry) (rosters : list Sleeper.Roster)
    (data : list Row.t) (out : list Matchup) :
  (∀ m k, m ∈ data → Row.matchup_id m = Some k → array_index k) →
  useMatchups userMap rosters (Some data) = Return out →
  let rosterToUser := build_rosterToUser userMap rosters in
  ∃ ids : list Z,
    StronglySorted Z.lt ids
    ∧ Forall2 (λ k p, ∃ a b,
                 group_of k data = [a; b]
                 ∧ p = {| team1 := team_name rosterToUser a;
                          score1 := num_or0 (Row.points a);
                          team2 := team_name rosterToUser b;
                          score2 := num_or0 (Row.points b) |})
        ids out.
Proof.
  intros Hidx Hout rosterToUser. unfold useMatchups in Hout.
  fold rosterToUser in Hout.
  destruct (pair_rows_Return rosterToUser data) as (out' & Hout' & HF).
  rewrite Hout in Hout'. injection Hout' as <-.
  destruct (Object_entries_ascending rosterToUser data Hidx) as [_ Hs].
  unfold Object_values in HF. rewrite filter_fmap_comp in HF.
  set (kept := filter (λ kv : Z * list Entry.t, length kv.2 = 2%nat)
                 (Object_entries (group_rows rosterToUser data))) in *.
  exists kept.*1. split.
  - apply (StronglySorted_fmap fst (λ a b, a.1 < b.1)); [done|].
    by apply StronglySorted_filter.
  - apply Forall2_fmap_l. apply Forall2_fmap_l in HF.
    apply Forall2_same_length_lookup in HF as [Hlen HF].
    apply Forall2_same_length_lookup. split; [done|].
    intros i [k g] p Hi Hp. specialize (HF i _ _ Hi Hp) as Hgp. simpl in *.
    assert ((k, g) ∈ kept) as Hk by by eapply list_elem_of_lookup_2.
    clear Hlen.
    apply list_elem_of_filter in Hk as [Hlen Hk]. simpl in Hlen.
    rewrite Object_entries_perm in Hk.
    apply group_rows_elem in Hk as (_ & _ & ->).
    rewrite length_fmap in Hlen.
    destruct (length_two _ Hlen) as (a & b & Hab).
    exists a, b. split; [done|]. rewrite Hab in Hgp. simpl in Hgp.
    by injection Hgp as <-.
Qed.

Lemma one_game_rows_index m k :
  m ∈ one_game_rows → Row.matchup_id m = Some k → array_index k.
Proof.
  intros Hm Hk. unfold one_game_rows in Hm.
  repeat (apply elem_of_cons in Hm as [->|Hm]);
    [injection Hk as <-; unfold array_index; lia..|].
  by apply elem_of_nil in Hm.
Defined.

Lemma pairing_ascending_ids_witness :
  (∀ m k, m ∈ one_game_rows → Row.matchup_id m = Some k → array_index k)
  ∧ useMatchups ∅ [] (Some one_game_rows)
    = Return [{| team1 := "Team 1"; score1 := 101.5;
                 team2 := "Team 2"; score2 := 98.25 |}]
  ∧ ∃ ids : list Z, StronglySorted Z.lt ids ∧ length ids = 1%nat.
Proof.
  assert (useMatchups ∅ [] (Some one_game_rows)
          = Return [{| team1 := "Team 1"; score1 := 101.5;
                       team2 := "Team 2"; score2 := 98.25 |}]) as H by done.
  split; [exact one_game_rows_index|]. split; [exact H|].
  destruct (pairing_ascending_ids ∅ [] one_game_rows _ one_game_rows_index H)
    as (ids & Hs & HF).
  exists ids. split; [exact Hs|]. by apply Forall2_length in HF.
Defined.

(** X7. With array-index identifiers only, the output depends on the rows
    of each identifier and their order, not on how the rows of different
    identifiers are interleaved: two inputs that agree on every identifier's
    rows give the same matchups in the same order. *)
Theorem pairing_interleaving
    (userMap : gmap string UserEntry) (rosters : list Sleeper.Roster)
    (data1 data2 : list Row.t) :
  (∀ m k, m ∈ data1 → Row.matchup_id m = Some k → array_index k) →
  (∀ m k, m ∈ data2 → Row.matchup_id m = Some k → array_index k) →
  (∀ k, group_of k data1 = group_of k data2) →
  useMatchups userMap rosters (Some data1)
  = useMatchups userMap rosters (Some data2).
Proof.
  intros Hidx1 Hidx2 Hgroups. unfold useMatchups, pair_rows, Object_values.
  set (rosterToUser := build_rosterToUser userMap rosters).
  do 3 f_equal.
  destruct (Object_entries_ascending rosterToUser data1 Hidx1) as [-> _].
  destruct (Object_entries_ascending rosterToUser data2 Hidx2) as [-> _].
  assert (∀ kv, kv ∈ group_rows rosterToUser data1
                ↔ kv ∈ group_rows rosterToUser data2) as Hsame.
  { intros [k g]. by rewrite !group_rows_elem, Hgroups. }
  apply (StronglySorted_unique_strong (keeps by_key)).
  - intros [k1 g1] [k2 g2] H1 H2 H12 H21.
    rewrite Array_sort_perm in H1. rewrite Array_sort_perm, <- Hsame in H2.
    apply keeps_by_key in H12, H21. simpl in *.
    assert (k1 = k2) as <- by lia.
    apply group_rows_elem in H1 as (_ & _ & ->).
    by apply group_rows_elem in H2 as (_ & _ & ->).
  - apply Array_sort_sorted; [apply by_key_asym | apply keeps_by_key_trans].
  - apply Array_sort_sorted; [apply by_key_asym | apply keeps_by_key_trans].
  - rewrite !Array_sort_perm.
    apply NoDup_Permutation; [| |done];
      eapply NoDup_fmap_1, group_rows_NoDup.
Qed.

Lemma interleaved_rows_index (data : list Row.t) m k :
  data = interleaved_rows ∨ data = regrouped_rows →
  m ∈ data → Row.matchup_id m = Some k → array_index k.
Proof.
  intros [-> | ->] Hm Hk;
    repeat (apply elem_of_cons in Hm as [->|Hm]);
    try (injection Hk as <-; unfold array_index; lia);
    by apply elem_of_nil in Hm.
Defined.

Lemma interleaved_rows_groups k :
  group_of k interleaved_rows = group_of k regrouped_rows.
Proof.
  unfold group_of, interleaved_rows, regrouped_rows.
  destruct (decide (k = 1)) as [->|H1]; [done|].
  destruct (decide (k = 2)) as [->|H2]; [done|].
  rewrite !filter_cons, !filter_nil.
  by rewrite !decide_False by (simpl; congruence).
Defined.

Lemma pairing_interleaving_witness :
  (∀ m k, m ∈ interleaved_rows → Row.matchup_id m = Some k → array_index k)
  ∧ (∀ m k, m ∈ regrouped_rows → Row.matchup_id m = Some k → array_index k)
  ∧ (∀ k, group_of k interleaved_rows = group_of k regrouped_rows)
  ∧ useMatchups ∅ [] (Some interleaved_rows)
    = useMatchups ∅ [] (Some regrouped_rows).
Proof.
  assert (∀ m k, m ∈ interleaved_rows → Row.matchup_id m = Some k →
                 array_index k) as H1
    by (intros m k; apply interleaved_rows_index; by left).
  assert (∀ m k, m ∈ regrouped_rows → Row.matchup_id m = Some k →
                 array_index k) as H2
    by (intros m k; apply interleaved_rows_index; by right).
  split_and!; [exact H1 | exact H2 | exact interleaved_rows_groups |].
  exact (pairing_interleaving ∅ [] _ _ H1 H2 interleaved_rows_groups).
Defined.

(** ** Weekly Trend Aggregator: shape of the points *)

Lemma history_point_inv currentWeek fetch p :
  p ∈ useWeeklyHistory currentWeek fetch →
  1 ≤ Trend.week p ≤ Z.min currentWeek 17
  ∧ ∃ s rest,
      week_scores fetch (Trend.week p) = s :: rest
      ∧ Trend.high p = foldl Qmax s rest
      ∧ Trend.low p = foldl Qmin s rest
      ∧ Trend.avg p = mean (s :: rest).
Proof.
  rewrite useWeeklyHistory_points.
  intros [Hw Hp]%(omap_week_elem _ _ (trend_point_week fetch)).
  split; [by apply elem_of_for_range in Hw|].
  unfold trend_point in Hp.
  destruct (week_scores fetch (Trend.week p)) as [|s rest]; [done|].
  exists s, rest. by injection Hp as <-.
Qed.

Lemma week_scores_positive fetch w s : s ∈ week_scores fetch w → (0 < s)%Q.
Proof.
  unfold week_scores, trend_scores. destruct (fetch w) as [data|]; simpl.
  - by intros [? _]%list_elem_of_filter.
  - by intros ?%elem_of_nil.
Qed.

Lemma foldl_num_add_mono a1 a2 l1 l2 :
  (a1 <= a2)%Q → Forall2 Qle l1 l2 →
  (foldl num_add a1 l1 <= foldl num_add a2 l2)%Q.
Proof.
  intros Ha Hl. revert a1 a2 Ha.
  induction Hl as [|x1 x2 l1 l2 Hx _ IH]; intros a1 a2 Ha; [done|].
  simpl. apply IH. apply binary64_mono. lra.
Qed.

(** The average grows with the scores. *)
Lemma mean_mono l1 l2 : Forall2 Qle l1 l2 → (mean l1 <= mean l2)%Q.
Proof.
  intros Hl. unfold mean, num_div.
  rewrite (Forall2_length _ _ _ Hl).
  apply binary64_mono, Qmult_le_compat_r.
  - apply foldl_num_add_mono; [apply Qle_refl|exact Hl].
  - apply Qinv_le_0_compat. change 0%Q with (inject_Z 0).
    rewrite <- Zle_Qle. lia.
Qed.

Lemma mean_nonneg l : Forall (λ x, 0 <= x)%Q l → (0 <= mean l)%Q.
Proof.
  intros Hl. unfold mean, num_div. apply binary64_nonneg.
  apply Qmult_le_0_compat.
  - by apply foldl_num_add_nonneg.
  - apply Qinv_le_0_compat. change 0%Q with (inject_Z 0).
    rewrite <- Zle_Qle. lia.
Qed.

(** X8. In every point of the weekly history the low is positive and does
    not exceed the high, and the average is not negative.  The average
    need not lie between the low and the high, since its sums round; it
    lies between the averages the same arithmetic gives to as many scores
    that all equal the low, and that all equal the high. *)
Theorem trend_average_bounds
    (currentWeek : Z) (fetch : Z → option (list Row.t)) (p : Trend.Point) :
  p ∈ useWeeklyHistory currentWeek fetch →
  let n := length (week_scores fetch (Trend.week p)) in
  (0 < Trend.low p ∧ Trend.low p <= Trend.high p ∧ 0 <= Trend.avg p
   ∧ mean (replicate n (Trend.low p)) <= Trend.avg p
   ∧ Trend.avg p <= mean (replicate n (Trend.high p)))%Q.
Proof.
  intros (_ & s & rest & Hscores & Hhigh & Hlow & Havg)%history_point_inv n.
  subst n. rewrite Hscores.
  destruct (foldl_Qmax_is_max s rest) as [_ Hmax].
  destruct (foldl_Qmin_is_min s rest) as [Hin Hmin].
  assert (∀ x, x ∈ s :: rest → (0 < x)%Q) as Hpos.
  { intros x Hx. apply (week_scores_positive fetch (Trend.week p)).
    by rewrite Hscores. }
  rewrite Hhigh, Hlow, Havg.
  split_and!.
  - by apply Hpos.
  - by apply Hmax.
  - apply mean_nonneg, Forall_forall. intros x Hx.
    by apply Qlt_le_weak, Hpos.
  - apply mean_mono, Forall2_replicate_l; [done|].
    apply Forall_forall. intros x Hx. by apply Hmin.
  - apply mean_mono, Forall2_replicate_r; [done|].
    apply Forall_forall. intros x Hx. by apply Hmax.
Qed.

Lemma trend_average_bounds_witness :
  ∃ p, p ∈ useWeeklyHistory 1 (λ _, Some sample_week)
       ∧ (0 < Trend.low p ∧ Trend.low p <= Trend.high p
          ∧ 0 <= Trend.avg p)%Q.
Proof.
  eexists.
  assert ({| Trend.week := 1; Trend.high := 30; Trend.low := 10;
             Trend.avg := mean [10; 20; 30]%Q |}
          ∈ useWeeklyHistory 1 (λ _, Some sample_week)) as H by left.
  split; [exact H|].
  destruct (trend_average_bounds 1 (λ _, Some sample_week) _ H)
    as (H1 & H2 & H3 & _).
  by split_and!.
Defined.

Lemma length_omap_le {A B} (f : A → option B) (l : list A) :
  (length (omap f l) ≤ length l)%nat.
Proof. induction l as [|x l IH]; csimpl; [done|]. destruct (f x); simpl; lia. Qed.

(** X9. The weekly history never holds more than 17 points, and never more
    points than the current week counts. *)
Theorem trend_at_most_17
    (currentWeek : Z) (fetch : Z → option (list Row.t)) :
  let n := Z.of_nat (length (useWeeklyHistory currentWeek fetch)) in
  n ≤ 17 ∧ n ≤ Z.max currentWeek 0.
Proof.
  intros n. subst n. rewrite useWeeklyHistory_points.
  pose proof (length_omap_le (trend_point fetch)
                (for_range 1 (Z.min currentWeek 17))) as H.
  assert (length (for_range 1 (Z.min currentWeek 17))
          = Z.to_nat (Z.min currentWeek 17 + 1 - 1)) as Hlen
    by (unfold for_range; apply length_seqZ).
  lia.
Qed.

(** ** Award Calculator against the trend *)

Lemma Awards_inv userMap rosters currentWeek fetch awards a :
  Awards userMap rosters currentWeek fetch = Return awards → a ∈ awards →
  Award.week a ∈ awards_window currentWeek
  ∧ ∃ s rest,
      week_award_scores userMap rosters fetch (Award.week a) = s :: rest
      ∧ Award.topDawg a = Some (foldl keep_top s (s :: rest))
      ∧ Award.superWeenie a = Some (foldl keep_low s (s :: rest)).
Proof.
  rewrite Awards_awards. intros [= <-] Ha. rewrite elem_of_reverse in Ha.
  apply (omap_week_elem _ _ (week_award_week userMap rosters fetch)) in Ha
    as [Hw Ha].
  split; [done|]. unfold week_award in Ha.
  destruct (week_award_scores _ _ _ _) as [|s rest]; [done|].
  exists s, rest. by injection Ha as <-.
Qed.

Lemma award_scores_points rosterToUser (matchups : list Row.t) :
  Score.points <$> award_scores rosterToUser matchups
  = trend_scores matchups.
Proof.
  unfold award_scores, trend_scores.
  rewrite <- (filter_fmap_comp Score.points (λ p, (0 < p)%Q)).
  by rewrite <- list_fmap_compose.
Qed.

Lemma week_award_scores_points userMap rosters fetch w :
  Score.points <$> week_award_scores userMap rosters fetch w
  = week_scores fetch w.
Proof.
  unfold week_award_scores, week_scores.
  destruct (fetch w); simpl; [apply award_scores_points | done].
Qed.

Lemma first_max_is_max top scores :
  first_max top scores → is_max (Score.points top) (Score.points <$> scores).
Proof.
  intros (l1 & l2 & -> & H1 & H2). split.
  - apply list_elem_of_fmap_2. apply elem_of_app. right. left.
  - intros y (t & -> & Ht)%list_elem_of_fmap.
    apply elem_of_app in Ht as [Ht|Ht].
    + eapply Forall_forall in H1; [|done]. by apply Qlt_le_weak.
    + apply elem_of_cons in Ht as [->|Ht]; [apply Qle_refl|].
      by eapply Forall_forall in H2.
Qed.

Lemma first_min_is_min low scores :
  first_min low scores → is_min (Score.points low) (Score.points <$> scores).
Proof.
  intros (l1 & l2 & -> & H1 & H2). split.
  - apply list_elem_of_fmap_2. apply elem_of_app. right. left.
  - intros y (t & -> & Ht)%list_elem_of_fmap.
    apply elem_of_app in Ht as [Ht|Ht].
    + eapply Forall_forall in H1; [|done]. by apply Qlt_le_weak.
    + apply elem_of_cons in Ht as [->|Ht]; [apply Qle_refl|].
      by eapply Forall_forall in H2.
Qed.

(** X10. The awards agree with the trend chart: every award week up to
    week 17 has a point in the weekly history computed from the same fetched
    rows, the top scorer's points are that point's high and the low
    scorer's points are its low. *)
Theorem awards_agree_with_trend
    (userMap : gmap string UserEntry) (rosters : list Sleeper.Roster)
    (currentWeek : Z) (fetch : Z → option (list Row.t))
    (awards : list Award.t) (a : Award.t) :
  Awards userMap rosters currentWeek fetch = Return awards →
  a ∈ awards → Award.week a ≤ 17 →
  ∃ p top low,
    filter (λ p, Trend.week p = Award.week a)
      (useWeeklyHistory currentWeek fetch) = [p]
    ∧ Award.topDawg a = Some top ∧ Award.superWeenie a = Some low
    ∧ (Score.points top == Trend.high p)%Q
    ∧ (Score.points low == Trend.low p)%Q.
Proof.
  intros Hawards Ha Hw.
  destruct (Awards_inv _ _ _ _ _ _ Hawards Ha)
    as (Hwin & s & rest & Hscores & Htop & Hlow).
  apply elem_of_for_range in Hwin.
  pose proof (week_award_scores_points userMap rosters fetch (Award.week a))
    as Hpoints.
  rewrite Hscores in Hpoints. csimpl in Hpoints.
  rewrite useWeeklyHistory_points.
  rewrite (omap_week_filter _ _ (trend_point_week fetch))
    by apply NoDup_seqZ.
  rewrite decide_True by (apply elem_of_for_range; lia).
  unfold trend_point. rewrite <- Hpoints.
  eexists _, _, _. split_and!; [done|done|done|..]; simpl.
  - pose proof (first_max_is_max _ _ (keep_top_first_max s rest)) as [Hin Hle].
    destruct (foldl_Qmax_is_max (Score.points s) (Score.points <$> rest))
      as [Hin' Hle'].
    apply Qle_antisym; [by apply Hle' | by apply Hle].
  - pose proof (first_min_is_min _ _ (keep_low_first_min s rest)) as [Hin Hle].
    destruct (foldl_Qmin_is_min (Score.points s) (Score.points <$> rest))
      as [Hin' Hle'].
    apply Qle_antisym; [by apply Hle | by apply Hle'].
Qed.

(** X11. In every award entry the low scorer's points are positive and do
    not exceed the top scorer's. *)
Theorem awards_low_le_top
    (userMap : gmap string UserEntry) (rosters : list Sleeper.Roster)
    (currentWeek : Z) (fetch : Z → option (list Row.t))
    (awards : list Award.t) (a : Award.t) :
  Awards userMap rosters currentWeek fetch = Return awards → a ∈ awards →
  ∃ top low,
    Award.topDawg a = Some top ∧ Award.superWeenie a = Some low
    ∧ (0 < Score.points low ∧ Score.points low <= Score.points top)%Q.
Proof.
  intros Hawards Ha.
  destruct (Awards_inv _ _ _ _ _ _ Hawards Ha)
    as (_ & s & rest & Hscores & Htop & Hlow).
  eexists _, _. split_and!; [done..| |].
  - destruct (first_min_is_min _ _ (keep_low_first_min s rest)) as [Hin _].
    rewrite <- Hscores, week_award_scores_points in Hin.
    rewrite Hscores in Hin. by eapply week_scores_positive.
  - destruct (first_max_is_max _ _ (keep_top_first_max s rest)) as [_ Hle].
    destruct (first_min_is_min _ _ (keep_low_first_min s rest)) as [Hin _].
    by apply Hle.
Qed.

Lemma Awards_sample_awards :
  Awards (build_userMap sample_users) sample_rosters 7 sample_awards_fetch
  = Return [sample_week7_award; sample_week6_award].
Proof. by vm_compute. Defined.

Lemma awards_agree_with_trend_witness :
  Awards (build_userMap sample_users) sample_rosters 7 sample_awards_fetch
  = Return [sample_week7_award; sample_week6_award]
  ∧ sample_week6_award ∈ [sample_week7_award; sample_week6_award]
  ∧ Award.week sample_week6_award ≤ 17
  ∧ ∃ p, filter (λ p, Trend.week p = 6)
           (useWeeklyHistory 7 sample_awards_fetch) = [p]
         ∧ (150.5 == Trend.high p)%Q ∧ (80.2 == Trend.low p)%Q.
Proof.
  assert (sample_week6_award ∈ [sample_week7_award; sample_week6_award])
    as Hin by (right; left).
  assert (Award.week sample_week6_award ≤ 17) as Hw by (simpl; lia).
  split_and!; [exact Awards_sample_awards | exact Hin | exact Hw |].
  destruct (awards_agree_with_trend _ _ _ _ _ _ Awards_sample_awards Hin Hw)
    as (p & top & low & Hp & [= <-] & [= <-] & Hhigh & Hlow).
  by exists p.
Defined.

Lemma awards_low_le_top_witness :
  Awards (build_userMap sample_users) sample_rosters 7 sample_awards_fetch
  = Return [sample_week7_award; sample_week6_award]
  ∧ sample_week6_award ∈ [sample_week7_award; sample_week6_award]
  ∧ (0 < 80.2 ∧ 80.2 <= 150.5)%Q.
Proof.
  assert (sample_week6_award ∈ [sample_week7_award; sample_week6_award])
    as Hin by (right; left).
  split_and!; [exact Awards_sample_awards | exact Hin | |];
    destruct (awards_low_le_top _ _ _ _ _ _ Awards_sample_awards Hin)
      as (top & low & [= <-] & [= <-] & Hpos & Hle); done.
Defined.

(** ** The fetch boundary and the refresh *)

Lemma api_get_Some {A} (fetched : js (Http.Response A)) (body : A) :
  api_get fetched = Some body
  ↔ ∃ res, fetched = Return res ∧ Http.ok res = true
           ∧ Http.json res = Return (Some body).
Proof.
  unfold api_get. destruct fetched as [[ok status json]|e]; simpl.
  - destruct ok; simpl.
    + destruct json as [b|e]; simpl.
      * split; [intros ->; by eexists|].
        by intros (res' & [= <-] & _ & [= ->]).
      * split; [done|]. by intros (res' & [= <-] & _ & ?).
    + split; [done|]. by intros (res' & [= <-] & ? & _).
  - split; [done|]. by intros (? & ? & _).
Qed.

Lemma api_get_succeeded {A} (fetched : js (Http.Response A)) :
  succeeded fetched ↔ ∃ body, api_get fetched = Some body.
Proof.
  unfold succeeded. split.
  - intros (res & body & H). exists body. apply api_get_Some. by exists res.
  - intros (body & (res & H)%api_get_Some). by exists res, body.
Qed.

(** X12. From the HTTP exchanges to the state: a refresh ends without
    error exactly when the state, users and rosters exchanges all went
    through (the network call resolved, the status was ok, the body parsed
    and was not null); the league exchange does not matter.  In every other
    case only the error message and the loading flag change. *)
Theorem refresh_from_exchanges
    (nflState' : js (Http.Response Sleeper.NflState))
    (league' : js (Http.Response Sleeper.League))
    (users' : js (Http.Response (list Sleeper.User)))
    (rosters' : js (Http.Response (list Sleeper.Roster)))
    (d : LeagueData) :
  let d' := refresh_from nflState' league' users' rosters' d in
  (error d' = None
   ↔ succeeded nflState' ∧ succeeded users' ∧ succeeded rosters')
  ∧ (error d' ≠ None →
     d' = {| loading := false; error := Some "Failed to fetch league data";
             nflState := nflState d; league := league d; users := users d;
             rosters := rosters d; standings := standings d;
             currentWeek := currentWeek d; userMap := userMap d |}).
Proof.
  intros d'. subst d'. unfold refresh_from, refresh, refresh_try.
  pose proof (api_get_succeeded nflState') as Hn.
  pose proof (api_get_succeeded users') as Hu.
  pose proof (api_get_succeeded rosters') as Hr.
  assert (∀ A, (∃ body : A, None = Some body) → False) as Hno
    by (by intros A [? ?]).
  destruct (api_get nflState') as [n|], (api_get users') as [u|],
    (api_get rosters') as [r|]; simpl.
  1: { split; [|done]. split; [|done]. intros _.
       split_and!; [apply Hn | apply Hu | apply Hr]; by eexists. }
  all: split; [|done]; split; [done|]; intros (Hn' & Hu' & Hr');
    exfalso; first [by eapply Hno, Hn | by eapply Hno, Hu | by eapply Hno, Hr].
Qed.

(** X13. Whatever the refreshes deliver, and however many fail, the state
    stays coherent: the user mapping is the one of the stored users, the
    standings are the ranking of the stored rosters under that mapping, with
    one team per roster, and the current week is never 0. *)
Theorem refreshes_coherent (results : list Fetched) :
  let d := refreshes results initial_data in
  coherent d ∧ length (standings d) = length (rosters d).
Proof.
  intros d. subst d.
  assert (coherent (refreshes results initial_data)) as Hc.
  { unfold refreshes.
    induction results as [|got results IH] using rev_ind.
    { by split_and!. }
    rewrite foldl_snoc.
    set (d := foldl _ initial_data results) in *.
    destruct got as [[n|] l [u|] [r|]]; try exact IH.
    unfold refresh. simpl. split_and!; [done..|].
    unfold int_or. destruct (Sleeper.week n) as [w|]; [|done].
    by destruct (Z.eqb_spec w 0). }
  split; [done|]. destruct Hc as (_ & -> & _). apply standings_length_of.
Qed.

(** ** The page shown *)

(** X14. What the user sees after a refresh: when a required fetch failed,
    every tab shows the error page with the message; when all succeeded,
    the active tab's page, an unknown tab falling back to the dashboard.
    Before the first refresh settles the spinner is shown.  [App.jsx]
    selects the page by the tab alone: its page after a failed refresh is
    the page before it. *)
Theorem page_after_refresh
    (got : Fetched) (d : LeagueData) (activeTab : string)
    (state' : option Sleeper.NflState)
    (standingsData' : option (list Backend.Standing))
    (d' : AppJsx.LeagueData) :
  let after := refresh (got_nflState got) (got_league got) (got_users got)
                 (got_rosters got) d in
  (fetch_failed (got_nflState got) (got_users got) (got_rosters got) →
   renderPage after activeTab = Page.Error "Failed to fetch league data")
  ∧ (¬ fetch_failed (got_nflState got) (got_users got) (got_rosters got) →
     renderPage after activeTab = tab_page activeTab
     ∧ renderPage after activeTab ≠ Page.LoadingSpinner
     ∧ ∀ message, renderPage after activeTab ≠ Page.Error message)
  ∧ renderPage initial_data activeTab = Page.LoadingSpinner
  ∧ AppJsxPages.renderPage
      (AppJsx.refresh state' standingsData' (got_nflState got)
         (got_users got) (got_rosters got) d') activeTab
    = AppJsxPages.renderPage d' activeTab.
Proof.
  intros after. subst after.
  assert (tab_page activeTab ≠ Page.LoadingSpinner
          ∧ ∀ message, tab_page activeTab ≠ Page.Error message) as [Hs He].
  { unfold tab_page. split; [|intros message]; by repeat case_decide. }
  destruct got as [[n|] l [u|] [r|]]; simpl; split_and!; try done;
    try (intros H; exfalso; apply H; unfold fetch_failed; tauto);
    try (by intros [?|[?|?]]).
Qed.

(** ** [Dashboard] *)

(** X15. With at least one roster, the first-place card names the team of
    rank 1, and no team has more wins than it; without rosters the card
    shows the placeholder. *)
Theorem leader_has_most_wins
    (userMap : gmap string UserEntry) (rosters : list Sleeper.Roster) :
  rosters ≠ [] →
  let standings := standings_of userMap rosters in
  (∃ t, leader standings = Some t
        ∧ rank t = 1
        ∧ leader_label standings = t_name (row t)
        ∧ ∀ r, r ∈ rosters → wins (team_of_roster userMap r) ≤ wins (row t))
  ∧ leader_label (standings_of userMap []) = "...".
Proof.
  intros Hne standings. split; [|done].
  assert (length standings = length rosters) as Hlen
    by apply standings_length_of.
  unfold leader, leader_label, leader.
  destruct (standings !! 0%nat) as [t|] eqn:Ht.
  2:{ apply lookup_ge_None in Ht. destruct rosters; [done|]. simpl in *. lia. }
  exists t. split_and!; [done| | |].
  - assert (rank <$> standings !! 0%nat = Some 1) as Hr.
    { rewrite <- list_lookup_fmap. unfold standings, standings_of.
      rewrite rank_teams_ranks, length_fmap. apply lookup_seqZ.
      destruct rosters; [done|]. simpl. lia. }
    rewrite Ht in Hr. by injection Hr.
  - simpl. rewrite decide_False; [done|].
    assert (row t ∈ team_of_roster userMap <$> rosters) as Hin.
    { unfold standings, standings_of in Ht.
      rewrite <- (Array_sort_perm by_record), <- rank_teams_rows.
      apply list_elem_of_fmap_2. by eapply list_elem_of_lookup_2. }
    apply list_elem_of_fmap in Hin as (r & -> & _). simpl.
    apply resolve_name_nonempty.
  - intros r Hr.
    assert (team_of_roster userMap r ∈ row <$> standings) as Hin.
    { unfold standings, standings_of.
      rewrite rank_teams_rows, Array_sort_perm. by apply list_elem_of_fmap_2. }
    apply list_elem_of_lookup in Hin as [i Hi].
    destruct i as [|i].
    { rewrite list_lookup_fmap, Ht in Hi. by injection Hi as <-. }
    pose proof (Array_sort_sorted by_record by_record_asym
                  keeps_by_record_trans (team_of_roster userMap <$> rosters))
      as Hs.
    rewrite <- rank_teams_rows in Hs.
    assert (keeps by_record (row t) (team_of_roster userMap r)) as Hk.
    { eapply (StronglySorted_lookup _ _ 0 (S i)); [exact Hs|lia| |exact Hi].
      unfold standings, standings_of in Ht. by rewrite list_lookup_fmap, Ht. }
    apply keeps_by_record in Hk. lia.
Qed.

Lemma leader_has_most_wins_witness :
  sample_rosters ≠ []
  ∧ leader_label (standings_of (build_userMap sample_users) sample_rosters)
    = "B".
Proof.
  assert (sample_rosters ≠ []) as H by done.
  split; [exact H|].
  destruct (leader_has_most_wins (build_userMap sample_users)
              sample_rosters H) as [(t & Ht & _ & -> & _) _].
  vm_compute in Ht. by injection Ht as <-.
Defined.

(** X16. With at least one roster, [highestPF], the number the top-scorer
    card prints with one decimal, is the largest points-for among all
    rosters: it is some roster's points-for and none is larger; without
    rosters it is 0.  (What the card prints, [highestPF.toFixed(1)], is not
    part of the statement.) *)
Theorem highestPF_is_largest
    (userMap : gmap string UserEntry) (rosters : list Sleeper.Roster) :
  rosters ≠ [] →
  is_max (highestPF (standings_of userMap rosters))
         ((λ r, pf (team_of_roster userMap r)) <$> rosters)
  ∧ highestPF (standings_of userMap []) = 0%Q.
Proof.
  intros Hne. split; [|done].
  assert ((λ s, pf (row s)) <$> standings_of userMap rosters
          ≡ₚ (λ r, pf (team_of_roster userMap r)) <$> rosters) as Hperm.
  { rewrite (list_fmap_compose row pf).
    unfold standings_of. rewrite rank_teams_rows, Array_sort_perm.
    by rewrite <- list_fmap_compose. }
  unfold highestPF.
  destruct ((λ s, pf (row s)) <$> standings_of userMap rosters)
    as [|p rest] eqn:Hpf.
  { apply Permutation_nil in Hperm. by destruct rosters. }
  destruct (foldl_Qmax_is_max p rest) as [Hin Hle].
  split.
  - by rewrite <- Hperm.
  - intros y Hy. apply Hle. by rewrite Hperm.
Qed.

Lemma highestPF_is_largest_witness :
  sample_rosters ≠ []
  ∧ is_max (highestPF (standings_of (build_userMap sample_users)
                         sample_rosters))
      ((λ r, pf (team_of_roster (build_userMap sample_users) r))
         <$> sample_rosters).
Proof.
  assert (sample_rosters ≠ []) as H by done.
  split; [exact H|].
  exact (proj1 (highestPF_is_largest (build_userMap sample_users)
                  sample_rosters H)).
Defined.

(** *** The streak card *)

Lemma digits_idemp s : digits (digits s) = digits s.
Proof.
  induction s as [|c s IH]; [done|]. simpl.
  destruct (is_digit c) eqn:Hc; [|done]. simpl. by rewrite Hc, IH.
Qed.

Lemma is_digit_not_W c : is_digit c = true → c ≠ Ascii.ascii_of_nat 87.
Proof. intros Hc ->. by vm_compute in Hc. Qed.

Lemma digits_cons c d :
  digits (String c d) = String c d → is_digit c = true ∧ digits d = d.
Proof. simpl. destruct (is_digit c); [|done]. by intros [= ->]. Qed.

Lemma match_W_digits_inv s d :
  match_W_digits s = Some d → digits d = d ∧ d ≠ "".
Proof.
  induction s as [|c s IH]; [done|]. simpl.
  destruct (decide (c = Ascii.ascii_of_nat 87)); [|done].
  destruct (digits s) eqn:Hd; [done|].
  intros [= <-]. split; [|done]. rewrite <- Hd. apply digits_idemp.
Qed.

Lemma match_W_digits_skip d s :
  digits d = d → match_W_digits (d +:+ s) = match_W_digits s.
Proof.
  induction d as [|c d IH]; [done|].
  intros [Hc Hd]%digits_cons. simpl.
  rewrite decide_False by by apply is_digit_not_W. by apply IH.
Qed.

Lemma match_W_digits_digits d : digits d = d → match_W_digits d = None.
Proof.
  induction d as [|c d IH]; [done|].
  intros [Hc Hd]%digits_cons. simpl.
  rewrite decide_False by by apply is_digit_not_W. by apply IH.
Qed.

Lemma parseInt_from_nonneg n d :
  digits d = d → 0 ≤ n → 0 ≤ parseInt_from n d.
Proof.
  revert n. induction d as [|c d IH]; [done|].
  intros n [Hc Hd]%digits_cons Hn. simpl. apply IH; [done|].
  unfold is_digit in Hc. apply andb_prop in Hc as [Hc%N.leb_le _]. lia.
Qed.

Lemma win_streak_nonneg s : 0 ≤ win_streak s.
Proof.
  unfold win_streak. destruct (match_W_digits s) as [d|] eqn:Hd; [|done].
  apply match_W_digits_inv in Hd as [Hd _].
  by apply parseInt_from_nonneg.
Qed.

Lemma longestStreak_snoc standings t :
  longestStreak (standings ++ [t])
  = Z.max (longestStreak standings) (win_streak (streak (row t))).
Proof. unfold longestStreak. by rewrite foldl_app. Qed.

(** X17. The streak card shows the longest win streak of the standings: it
    is never negative, no team's win streak exceeds it, some team attains
    it unless it is 0, and the card shows a dash exactly when no team has
    a win streak. *)
Theorem longestStreak_is_longest (standings : list Team) :
  0 ≤ longestStreak standings
  ∧ (∀ t, t ∈ standings →
       win_streak (streak (row t)) ≤ longestStreak standings)
  ∧ (longestStreak standings = 0
     ∨ ∃ t, t ∈ standings
            ∧ win_streak (streak (row t)) = longestStreak standings)
  ∧ (streak_label standings = "-"
     ↔ ∀ t, t ∈ standings → win_streak (streak (row t)) = 0).
Proof.
  assert (0 ≤ longestStreak standings
          ∧ (∀ t, t ∈ standings →
               win_streak (streak (row t)) ≤ longestStreak standings)
          ∧ (longestStreak standings = 0
             ∨ ∃ t, t ∈ standings
                 ∧ win_streak (streak (row t)) = longestStreak standings))
    as (Hnn & Hle & Hat).
  { induction standings as [|t standings IH] using rev_ind.
    { split_and!; [done| |by left]. by intros t Ht%elem_of_nil. }
    destruct IH as (Hnn & Hle & Hat).
    rewrite longestStreak_snoc.
    pose proof (win_streak_nonneg (streak (row t))) as Ht.
    split_and!; [lia| |].
    - intros t' [Hin | ->%list_elem_of_singleton]%elem_of_app; [|lia].
      specialize (Hle _ Hin). lia.
    - destruct (decide (longestStreak standings
                        ≤ win_streak (streak (row t)))) as [Hc|Hc].
      + right. exists t. split; [|lia].
        rewrite elem_of_app, list_elem_of_singleton. by right.
      + destruct Hat as [H0 | (t' & Hin & Heq)]; [lia|].
        right. exists t'. split; [|lia]. rewrite elem_of_app. by left. }
  split_and!; [done..|].
  unfold streak_label. destruct (Z.eqb_spec (longestStreak standings) 0)
    as [H0|H0].
  - split; [|done]. intros _ t Hin. specialize (Hle _ Hin).
    pose proof (win_streak_nonneg (streak (row t))). lia.
  - split.
    + destruct (longestStreak standings) as [|p|p]; [done| |lia].
      intros Hp. exfalso. revert Hp.
      apply (pretty_N_go_ne_dash (N.pos p) "" ""). done.
    + intros Hall. destruct Hat as [? | (t & Hin & Heq)]; [done|].
      rewrite (Hall _ Hin) in Heq. done.
Qed.

Lemma pretty_N_char_digit x :
  (x < 10)%N →
  is_digit (pretty_N_char x) = true
  ∧ Z.of_N (Ascii.N_of_ascii (pretty_N_char x)) - 48 = Z.of_N x.
Proof.
  intros Hx.
  assert (x = 0 ∨ x = 1 ∨ x = 2 ∨ x = 3 ∨ x = 4 ∨ x = 5 ∨ x = 6 ∨ x = 7
          ∨ x = 8 ∨ x = 9)%N as Hcases by lia.
  repeat (destruct Hcases as [-> | Hcases]; [by vm_compute|]).
  by subst.
Qed.

Lemma pretty_N_go_digits x s :
  digits s = s → digits (pretty_N_go x s) = pretty_N_go x s.
Proof.
  revert s. induction (N.lt_wf_0 x) as [x _ IH]. intros s Hs.
  destruct (decide (x = 0)%N) as [-> | Hx]; [by rewrite pretty_N_go_0|].
  rewrite pretty_N_go_step by lia. apply IH.
  { apply N.div_lt; lia. }
  simpl.
  destruct (pretty_N_char_digit (x `mod` 10)) as [-> _];
    [by apply N.mod_lt|].
  by rewrite Hs.
Qed.

Lemma pretty_N_go_nonempty x s : s ≠ "" → pretty_N_go x s ≠ "".
Proof.
  revert s. induction (N.lt_wf_0 x) as [x _ IH]. intros s Hs.
  destruct (decide (x = 0)%N) as [-> | Hx]; [by rewrite pretty_N_go_0|].
  rewrite pretty_N_go_step by lia. apply IH; [|done].
  apply N.div_lt; lia.
Qed.

Lemma parseInt_from_pretty_N_go x :
  ∃ k, 0 ≤ k ∧ ∀ s m,
    parseInt_from m (pretty_N_go x s)
    = parseInt_from (m * 10 ^ k + Z.of_N x) s.
Proof.
  induction (N.lt_wf_0 x) as [x _ IH].
  destruct (decide (x = 0)%N) as [-> | Hx].
  { exists 0. split; [done|]. intros s m. rewrite pretty_N_go_0.
    f_equal. lia. }
  destruct (IH (x `div` 10)%N) as (k & Hk & Hgo).
  { apply N.div_lt; lia. }
  exists (k + 1). split; [lia|]. intros s m.
  rewrite pretty_N_go_step, Hgo by lia. simpl. f_equal.
  destruct (pretty_N_char_digit (x `mod` 10)) as [_ ->];
    [by apply N.mod_lt|].
  rewrite Z.pow_add_r, Z.pow_1_r by lia.
  rewrite N2Z.inj_div, N2Z.inj_mod.
  assert (Z.of_N x = 10 * (Z.of_N x `div` 10) + Z.of_N x `mod` 10) as Hz
    by (apply Z.div_mod; lia).
  change (Z.of_N 10) with 10. lia.
Qed.

Lemma pretty_N_digits (n : N) :
  digits (pretty n) = pretty n ∧ pretty n ≠ ""
  ∧ parseInt (pretty n) = Z.of_N n.
Proof.
  unfold pretty, pretty_N. destruct (decide (n = 0)%N) as [-> | Hn].
  { by vm_compute. }
  split_and!.
  - by apply pretty_N_go_digits.
  - rewrite pretty_N_go_step by lia. by apply pretty_N_go_nonempty.
  - unfold parseInt.
    destruct (parseInt_from_pretty_N_go n) as (k & _ & ->).
    simpl. lia.
Qed.

(** X18. The streak reader takes the number after a [W]: a streak written
    as [W] followed by the decimal digits of [n] reads as [n], while a loss
    streak, and a streak written with the digits before the letter, read
    as no win streak. *)
Theorem win_streak_reads_W_number (n : N) :
  win_streak ("W" +:+ pretty n) = Z.of_N n
  ∧ win_streak ("L" +:+ pretty n) = 0
  ∧ win_streak (pretty n +:+ "W") = 0.
Proof.
  destruct (pretty_N_digits n) as (Hd & Hne & Hp).
  unfold win_streak. split_and!.
  - change ("W" +:+ pretty n) with (String (Ascii.ascii_of_nat 87) (pretty n)).
    simpl. rewrite Hd. by destruct (pretty n).
  - change ("L" +:+ pretty n) with (String (Ascii.ascii_of_nat 76) (pretty n)).
    simpl. by rewrite match_W_digits_digits.
  - by rewrite match_W_digits_skip.
Qed.

(** ** [Matchups] *)

Lemma elem_of_week_options currentWeek w :
  w ∈ week_options currentWeek ↔ 1 ≤ w ≤ Z.max currentWeek 1.
Proof.
  unfold week_options. rewrite list_elem_of_fmap. split.
  - intros (i & -> & Hi%elem_of_seqZ). lia.
  - intros Hw. exists (w - 1). split; [lia|]. apply elem_of_seqZ. lia.
Qed.

(** X19. The week selector offers the weeks from 1 to the current week (only
    week 1 when the current week is below 1), in ascending order; every week
    the trend has a point for and every week the awards list has an entry
    for can be selected; and the week selected at the start, the current
    week, is one of the options exactly when it is at least 1. *)
Theorem week_options_cover
    (userMap : gmap string UserEntry) (rosters : list Sleeper.Roster)
    (currentWeek : Z) (fetch : Z → option (list Row.t)) :
  (∀ w, w ∈ week_options currentWeek ↔ 1 ≤ w ≤ Z.max currentWeek 1)
  ∧ StronglySorted Z.lt (week_options currentWeek)
  ∧ (∀ p, p ∈ useWeeklyHistory currentWeek fetch →
       Trend.week p ∈ week_options currentWeek)
  ∧ (∀ awards a,
       Awards userMap rosters currentWeek fetch = Return awards →
       a ∈ awards → Award.week a ∈ week_options currentWeek)
  ∧ (currentWeek ∈ week_options currentWeek ↔ 1 ≤ currentWeek).
Proof.
  split_and!.
  - apply elem_of_week_options.
  - unfold week_options.
    apply (StronglySorted_fmap _ Z.lt); [|apply seqZ_sorted].
    intros a b. lia.
  - intros p [Hp _]%history_point_inv. apply elem_of_week_options. lia.
  - intros awards a Hawards Ha.
    destruct (Awards_inv _ _ _ _ _ _ Hawards Ha) as [Hw _].
    apply elem_of_for_range in Hw. apply elem_of_week_options. lia.
  - rewrite elem_of_week_options. lia.
Qed.

(** X20. For two scores that are not negative, the first of them a
    double, the bar of a matchup is between 0 and 100 percent wide,
    whatever the sum, the quotient and the product round to. *)
Theorem bar_width_percent (m : Matchup) :
  (0 <= score1 m)%Q → (0 <= score2 m)%Q →
  (binary64 (score1 m) == score1 m)%Q →
  (0 <= bar_width m)%Q ∧ (bar_width m <= 100)%Q.
Proof.
  intros H1 H2 Hdouble. unfold bar_width, num_mul, num_div, num_add.
  set (total := Qmax (binary64 (score1 m + score2 m)) 1).
  assert (1 <= total)%Q as Ht1 by apply Q.le_max_r.
  assert (score1 m <= total)%Q as Hts.
  { rewrite <- Hdouble. eapply Qle_trans; [|apply Q.le_max_l].
    apply binary64_mono. lra. }
  assert (0 < total)%Q as Hpos by lra.
  assert (0 <= binary64 (score1 m / total))%Q as Hlo.
  { apply binary64_nonneg. apply Qle_shift_div_l; [done|lra]. }
  assert (binary64 (score1 m / total) <= 1)%Q as Hhi.
  { rewrite <- binary64_1. apply binary64_mono.
    apply Qle_shift_div_r; [done|lra]. }
  split.
  - apply binary64_nonneg. lra.
  - rewrite <- binary64_100 at 2. apply binary64_mono. lra.
Qed.

Lemma bar_width_percent_witness :
  (0 <= score1 sample_matchup)%Q ∧ (0 <= score2 sample_matchup)%Q
  ∧ (binary64 (score1 sample_matchup) == score1 sample_matchup)%Q
  ∧ (0 <= bar_width sample_matchup)%Q
  ∧ (bar_width sample_matchup <= 100)%Q.
Proof.
  assert (0 <= score1 sample_matchup)%Q as H1 by (vm_compute; discriminate).
  assert (0 <= score2 sample_matchup)%Q as H2 by (vm_compute; discriminate).
  assert (binary64 (score1 sample_matchup) == score1 sample_matchup)%Q
    as H3 by (by vm_compute).
  split_and!; [exact H1|exact H2|exact H3|..];
    apply (bar_width_percent sample_matchup H1 H2 H3).
Defined.

(** ** [AIChat] *)

Lemma random_index (random : Q) (n : Z) :
  0 < n → (0 <= random)%Q → (random < 1)%Q →
  0 ≤ Qfloor (random * inject_Z n) < n.
Proof.
  intros Hn H0 H1.
  assert (inject_Z 0 < inject_Z n)%Q as Hq by (by rewrite <- Zlt_Qlt).
  change (inject_Z 0) with 0%Q in Hq.
  split.
  - rewrite <- (Qfloor_Z 0). apply Qfloor_resp_le.
    change (inject_Z 0) with 0%Q. nra.
  - rewrite Zlt_Qlt.
    eapply Qle_lt_trans; [apply Qfloor_le|]. nra.
Qed.

Lemma Array_get_elem {A} (l : list A) (i : Z) :
  0 ≤ i < Z.of_nat (length l) → ∃ x, Array_get l i = Some x ∧ x ∈ l.
Proof.
  intros Hi. unfold Array_get.
  destruct (Z.ltb_spec i 0) as [?|_]; [lia|].
  destruct (lookup_lt_is_Some_2 l (Z.to_nat i)) as [x Hx]; [lia|].
  exists x. split; [done|]. by eapply list_elem_of_lookup_2.
Qed.

Lemma in_step_snoc (msgs : list AIChat.Message) (m : AIChat.Message) :
  (∀ i m', msgs !! i = Some m' →
     AIChat.role m'
     = if Nat.even i then AIChat.assistant else AIChat.user) →
  AIChat.role m
  = (if Nat.even (length msgs) then AIChat.assistant else AIChat.user) →
  ∀ i m', (msgs ++ [m]) !! i = Some m' →
    AIChat.role m' = if Nat.even i then AIChat.assistant else AIChat.user.
Proof.
  intros Hroles Hm i m' Hi.
  apply lookup_app_Some in Hi as [Hi | [Hlen Hi]]; [by apply Hroles|].
  apply list_lookup_singleton_Some in Hi as [Hi <-].
  replace i with (length msgs) by lia. done.
Qed.

(** X21. The chat stays in step however typing, sends and scheduled replies
    follow one another from the opening state: a reply is scheduled exactly
    while the chat loads (so a send while loading schedules no second one),
    the messages alternate, beginning with the assistant, the user has the
    last word exactly while the chat loads, and every line of the assistant
    is the greeting or one of the four canned responses, never an absent
    one.  This holds for every [trim]. *)
Theorem chat_in_step (trim : string → string) (st : AIChat.State) :
  rtc (AIChat.step trim) AIChat.initial st → in_step st.
Proof.
  revert st. apply rtc_ind_r; [|intros st st' _ Hstep IH].
  { split_and!; [done..| |].
    - intros [|i] m Hi; [by injection Hi as <-|done].
    - intros m ->%list_elem_of_singleton _. eexists. split; [done|].
      apply elem_of_cons. by left. }
  pose proof IH as (Htimers & Heven & Hroles & Hlines).
  destruct Hstep as [st text | st | st random Hpos H0 H1].
  - exact IH.
  - unfold AIChat.send.
    destruct (bool_decide (trim (AIChat.input st) = "")); [exact IH|].
    destruct (AIChat.loading st) eqn:Hl; [exact IH|]. simpl.
    split_and!; simpl.
    + by rewrite Htimers.
    + by rewrite length_app, Nat.add_1_r, Nat.even_succ, <- Nat.negb_even,
        Heven.
    + apply in_step_snoc; [done|]. by rewrite Heven.
    + intros m [Hm | ->%list_elem_of_singleton]%elem_of_app; [|done].
      by apply Hlines.
  - destruct (AIChat.loading st) eqn:Hl; [|lia].
    unfold AIChat.reply. split_and!; simpl.
    + by rewrite Htimers.
    + by rewrite length_app, Nat.add_1_r, Nat.even_succ, <- Nat.negb_even,
        Heven.
    + apply in_step_snoc; [done|]. by rewrite Heven.
    + intros m [Hm | ->%list_elem_of_singleton]%elem_of_app;
        [by apply Hlines|].
      intros _.
      destruct (Array_get_elem AIChat.responses
                  (Qfloor (random * inject_Z
                             (Z.of_nat (length AIChat.responses)))))
        as (c & Hget & Hc).
      { apply random_index; [done..]. }
      exists c. split; [exact Hget|]. apply elem_of_cons. by right.
Qed.

Lemma chat_in_step_witness :
  in_step (AIChat.reply (1 # 2)
             (AIChat.send id (AIChat.type "Who wins?" AIChat.initial))).
Proof.
  apply (chat_in_step id).
  eapply rtc_l; [apply AIChat.step_type|].
  eapply rtc_l; [apply AIChat.step_send|].
  eapply rtc_l; [|apply rtc_refl].
  apply AIChat.step_reply; [vm_compute; lia|done|done].
Defined.

(** *** The chat of [App.jsx] *)

Lemma said_snoc r msgs m :
  said r (msgs ++ [m])
  = said r msgs ++ (if decide (AppJsxChat.role m = r) then [m] else []).
Proof.
  unfold said. by rewrite filter_app.
Qed.

Lemma completed_content outcome st :
  ∃ c, c ≠ ""
       ∧ AppJsxChat.messages (AppJsxChat.completed outcome st)
         = AppJsxChat.messages st
           ++ [{| AppJsxChat.role := AIChat.assistant;
                  AppJsxChat.content := c |}].
Proof.
  eexists. split; [|done].
  destruct outcome as [content|e]; [|done]. apply str_or_nonempty. done.
Qed.

(** X22. In the chat of [App.jsx], however typing, sends and settling
    requests follow one another from the opening state, every request is
    accounted for: the assistant has spoken exactly once for the greeting
    and once for each request that has settled, whether it succeeded, came
    back without a text or failed; the spinner shows only while a request
    is in flight; and no line of the assistant is empty.  This holds for
    every [trim]. *)
Theorem app_chat_answered (trim : string → string) (st : AppJsxChat.State) :
  rtc (AppJsxChat.step trim) AppJsxChat.initial st → answered st.
Proof.
  revert st. apply rtc_ind_r; [|intros st st' _ Hstep IH].
  { split_and!; [done..|].
    intros m ->%list_elem_of_singleton. done. }
  pose proof IH as (Hcount & Hload & Hlines).
  destruct Hstep as [st text | st | st outcome Hpos].
  - exact IH.
  - unfold AppJsxChat.handleSend.
    destruct (bool_decide (trim (AppJsxChat.input st) = "")); [exact IH|].
    unfold answered. simpl. rewrite !said_snoc. simpl.
    rewrite app_nil_r, length_app. simpl. split_and!; [lia|lia|done].
  - destruct (completed_content outcome st) as (c & Hc & Hmsgs).
    unfold answered. rewrite Hmsgs, !said_snoc. simpl.
    rewrite app_nil_r, length_app. simpl. split_and!; [lia|done|].
    intros m [Hm | ->%list_elem_of_singleton]%elem_of_app; [|done].
    by apply Hlines.
Qed.

Lemma app_chat_answered_witness :
  answered
    (AppJsxChat.completed (Throw "Failed to fetch")
       (AppJsxChat.handleSend id
          (AppJsxChat.type "Who wins?" AppJsxChat.initial))).
Proof.
  apply (app_chat_answered id).
  eapply rtc_l; [apply AppJsxChat.step_type|].
  eapply rtc_l; [apply AppJsxChat.step_send|].
  eapply rtc_l; [|apply rtc_refl].
  apply AppJsxChat.step_completed. vm_compute. lia.
Defined.

(** X23. The chat of [App.jsx] does not hold back a send while it loads:
    with any text that [trim] does not empty, two sends before the first
    answer lead to a state in which the spinner is off although a request
    is still in flight, and in which the user has spoken twice in a row. *)
Theorem app_chat_spinner_off_while_pending
    (trim : string → string) (text : string) (outcome : js (option string)) :
  trim text ≠ "" →
  ∃ st user1 user2 answer,
    rtc (AppJsxChat.step trim) AppJsxChat.initial st
    ∧ AppJsxChat.loading st = false
    ∧ AppJsxChat.pending st = 1%nat
    ∧ AppJsxChat.messages st
      = AppJsxChat.messages AppJsxChat.initial ++ [user1; user2; answer]
    ∧ AppJsxChat.role user1 = AIChat.user
    ∧ AppJsxChat.role user2 = AIChat.user
    ∧ AppJsxChat.role answer = AIChat.assistant.
Proof.
  intros Htext.
  set (typed1 := AppJsxChat.type text AppJsxChat.initial).
  set (sent1 := AppJsxChat.handleSend trim typed1).
  set (typed2 := AppJsxChat.type text sent1).
  set (sent2 := AppJsxChat.handleSend trim typed2).
  assert (sent1 = {| AppJsxChat.messages :=
                       AppJsxChat.messages AppJsxChat.initial
                       ++ [{| AppJsxChat.role := AIChat.user;
                              AppJsxChat.content := text |}];
                     AppJsxChat.input := ""; AppJsxChat.loading := true;
                     AppJsxChat.pending := 1 |}) as Hsent1.
  { unfold sent1, AppJsxChat.handleSend, typed1. simpl.
    by rewrite bool_decide_eq_false_2. }
  assert (sent2 = {| AppJsxChat.messages :=
                       AppJsxChat.messages sent1
                       ++ [{| AppJsxChat.role := AIChat.user;
                              AppJsxChat.content := text |}];
                     AppJsxChat.input := ""; AppJsxChat.loading := true;
                     AppJsxChat.pending := 2 |}) as Hsent2.
  { unfold sent2, AppJsxChat.handleSend, typed2. simpl.
    rewrite bool_decide_eq_false_2 by done. by rewrite Hsent1. }
  destruct (completed_content outcome sent2) as (c & _ & Hmsgs).
  exists (AppJsxChat.completed outcome sent2). eexists _, _, _.
  split_and!.
  - eapply rtc_l; [apply (AppJsxChat.step_type trim _ text)|].
    eapply rtc_l; [apply AppJsxChat.step_send|].
    eapply rtc_l; [apply (AppJsxChat.step_type trim _ text)|].
    eapply rtc_l; [apply AppJsxChat.step_send|].
    eapply rtc_l; [|apply rtc_refl].
    apply AppJsxChat.step_completed. fold typed1 sent1 typed2 sent2.
    rewrite Hsent2. simpl. lia.
  - done.
  - simpl. by rewrite Hsent2.
  - rewrite Hmsgs, Hsent2. simpl. rewrite Hsent1. simpl. done.
  - done.
  - done.
  - done.
Qed.

Lemma app_chat_spinner_off_while_pending_witness :
  ∃ st, rtc (AppJsxChat.step id) AppJsxChat.initial st
        ∧ AppJsxChat.loading st = false
        ∧ AppJsxChat.pending st = 1%nat.
Proof.
  assert (id "Who wins?" ≠ "") as H by done.
  destruct (app_chat_spinner_off_while_pending id "Who wins?"
              (Return None) H) as (st & _ & _ & _ & Hrun & Hl & Hp & _).
  by exists st.
Defined.

(** ** The week of [Matchups] in [App.jsx] *)

Lemma clicks_snoc week cs c :
  clicks week (cs ++ [c]) = AppJsxPages.click (clicks week cs) c.
Proof. unfold clicks. by rewrite foldl_app. Qed.

(** X24. From a week that is at least 1, no series of PREV and NEXT clicks
    leads below week 1; PREV undoes a NEXT; and NEXT has no upper limit:
    [n] clicks on it lead [n] weeks ahead, whatever the current week of the
    season is. *)
Theorem week_clicks (week : Z) (cs : list AppJsxPages.Click) (n : nat) :
  1 ≤ week →
  1 ≤ clicks week cs
  ∧ clicks week (cs ++ [AppJsxPages.NEXT; AppJsxPages.PREV]) = clicks week cs
  ∧ clicks week (cs ++ replicate n AppJsxPages.NEXT)
    = clicks week cs + Z.of_nat n.
Proof.
  intros Hweek.
  assert (1 ≤ clicks week cs) as Hge.
  { induction cs as [|c cs IH] using rev_ind; [done|].
    rewrite clicks_snoc. destruct c; simpl; lia. }
  split_and!; [done| |].
  - unfold clicks in *. rewrite foldl_app. simpl. lia.
  - induction n as [|n IH]; [rewrite app_nil_r; lia|].
    replace (S n) with (n + 1)%nat by lia.
    rewrite replicate_add, app_assoc. simpl.
    rewrite clicks_snoc, IH. simpl. lia.
Qed.

Lemma week_clicks_witness :
  1 ≤ 1
  ∧ 1 ≤ clicks 1 [AppJsxPages.PREV; AppJsxPages.NEXT; AppJsxPages.PREV].
Proof.
  assert (1 ≤ 1) as H by lia.
  split; [exact H|].
  apply (week_clicks 1 [AppJsxPages.PREV; AppJsxPages.NEXT; AppJsxPages.PREV]
           0 H).
Defined.

(** ** The award titles of [App.jsx] *)

Lemma String_remove_unfold pat s :
  String_remove pat s
  = if String.prefix pat s
    then String.substring (String.length pat)
           (String.length s - String.length pat) s
    else match s with
         | EmptyString => EmptyString
         | String c s' => String c (String_remove pat s')
         end.
Proof. by destruct s. Qed.

Lemma String_includes_unfold pat s :
  String_includes pat s
  = String.prefix pat s
    || match s with
       | EmptyString => false
       | String _ s' => String_includes pat s'
       end.
Proof. by destruct s. Qed.

Lemma String_remove_absent pat s :
  String_includes pat s = false → String_remove pat s = s.
Proof.
  induction s as [|c s IH]; rewrite String_includes_unfold,
    String_remove_unfold; intros [-> Hs]%orb_false_elim; [done|].
  by rewrite IH.
Qed.

Lemma prefix_append pat s : String.prefix pat (pat +:+ s) = true.
Proof.
  induction pat as [|c pat IH]; [by destruct s|]. simpl.
  by destruct (Ascii.ascii_dec c c).
Qed.

Lemma substring_all s : String.substring 0 (String.length s) s = s.
Proof. induction s as [|c s IH]; [done|]. simpl. by rewrite IH. Qed.

Lemma substring_append pat s :
  String.substring (String.length pat)
    (String.length (pat +:+ s) - String.length pat) (pat +:+ s) = s.
Proof.
  induction pat as [|c pat IH]; simpl.
  - rewrite Nat.sub_0_r. apply substring_all.
  - apply IH.
Qed.

Lemma String_remove_prefix pat s : String_remove pat (pat +:+ s) = s.
Proof.
  by rewrite String_remove_unfold, prefix_append, substring_append.
Qed.

Lemma horse_title_bare s :
  String_includes "🐴 Horse's Ass: " s = false →
  String_includes "🐴 Horses Ass: " s = false →
  String_remove "🐴 Horses Ass: "
    (String_remove "🐴 Horse's Ass: " ("🐴 Horse's Ass: " +:+ s)) = s
  ∧ String_remove "🐴 Horses Ass: "
      (String_remove "🐴 Horse's Ass: " ("🐴 Horses Ass: " +:+ s)) = s.
Proof.
  intros H1 H2. split.
  - by rewrite String_remove_prefix, String_remove_absent.
  - assert (String_remove "🐴 Horse's Ass: " ("🐴 Horses Ass: " +:+ s)
            = "🐴 Horses Ass: " +:+ String_remove "🐴 Horse's Ass: " s)
      as -> by reflexivity.
    by rewrite (String_remove_absent _ s), String_remove_prefix.
Qed.

(** X25. In a week of the awards window whose feed has an award with
    [Horse] in its title, the first such award becomes the Horse's Ass
    entry of that week; when its title is the bare title behind one of the
    two spellings of the prefix, and the bare title holds neither prefix,
    the entry shows the bare title, with the winner and the detail of that
    award. *)
Theorem horse_title_stripped
    (currentWeek w : Z) (feed : Z → option (list Backend.Award))
    (weekAwards : list Backend.Award) (a : Backend.Award) (s : string) :
  currentWeek ≠ 0 →
  w ∈ awards_window currentWeek →
  feed w = Some weekAwards →
  Array_find (AppJsx.titled "Horse") weekAwards = Some a →
  Backend.title a = "🐴 Horse's Ass: " +:+ s
  ∨ Backend.title a = "🐴 Horses Ass: " +:+ s →
  String_includes "🐴 Horse's Ass: " s = false →
  String_includes "🐴 Horses Ass: " s = false →
  ∃ e h,
    e ∈ AppJsx.useAwards currentWeek feed
    ∧ AppJsx.week e = w
    ∧ AppJsx.horsesAss e = Some h
    ∧ AppJsx.title h = s
    ∧ AppJsx.ha_team h = Backend.winner a
    ∧ AppJsx.reason h = Backend.detail a.
Proof.
  intros Hcw Hw Hfeed Hfind Htitle H1 H2.
  destruct (horse_title_bare s H1 H2) as [Hs1 Hs2].
  assert (0 < length weekAwards)%nat as Hlen.
  { destruct weekAwards; [done|]. simpl. lia. }
  rewrite useAwards_awards.
  eexists _, _. split_and!.
  - rewrite elem_of_reverse, list_elem_of_omap. exists w. split; [done|].
    unfold feed_awards, AppJsx.awards_week. simpl. rewrite Hfeed.
    rewrite decide_True by done. reflexivity.
  - done.
  - simpl. rewrite Hfind. reflexivity.
  - simpl. by destruct Htitle as [-> | ->].
  - done.
  - done.
Qed.

Lemma horse_title_stripped_witness :
  ∃ e h,
    e ∈ AppJsx.useAwards 7 sample_backend_feed
    ∧ AppJsx.week e = 6
    ∧ AppJsx.horsesAss e = Some h
    ∧ AppJsx.title h = "Benchwarmer".
Proof.
  assert (7 ≠ 0) as Hcw by done.
  assert (6 ∈ awards_window 7) as Hw by (apply elem_of_for_range; lia).
  assert (sample_backend_feed 6 = Some sample_backend_awards) as Hfeed
    by reflexivity.
  assert (Array_find (AppJsx.titled "Horse") sample_backend_awards
          = sample_backend_awards !! 1%nat) as Hfind by reflexivity.
  destruct (horse_title_stripped 7 6 sample_backend_feed
              sample_backend_awards _ "Benchwarmer" Hcw Hw Hfeed Hfind
              (or_introl eq_refl) eq_refl eq_refl)
    as (e & h & He & Hweek & Hh & Ht & _).
  by exists e, h.
Defined.
